(** * geomesh/utils.py: mesh topology extraction and repair

    A shallow embedding of [src/geomesh/utils.py] and the properties of
    its operations.

    Conventions of the embedding.

    - A numpy array is a [list]; a structured array ([vert2], [tria3],
      [quad4], [hexa8]) is a list of records.
    - Vertex indexes are positions in the vertex array and are modelled
      by [nat] (the specification's [vertex-index (uint)]).
    - [float64] numbers are modelled by rationals kept in reduced form;
      rounding, NaN and infinities are outside the model.  The concrete
      meshes evaluated below only carry small integers and dyadic
      numbers, on which every floating-point operation of the code is
      exact.
    - Python exceptions are the [Raise] results of the type [result].
    - The [while] loops are bounded by a fuel argument; running out of
      fuel is the separate outcome [OutOfFuel].
    - matplotlib ([Triangulation], [Path]), shapely ([Polygon]) and
      [numpy.sqrt] are libraries outside the repository: they are the
      fields of the class [Geom], and every operation is parametric in
      it.  [ExactGeom] is an exact-arithmetic instance used to evaluate
      the code on concrete meshes.
    - A dictionary is the list of its entries in the order in which
      the keys were first set. *)

From Stdlib Require Import String.
From Stdlib Require Import List Arith ZArith QArith Qabs Bool Lia Lqa.
From Stdlib Require Import Permutation.
Import ListNotations.

Open Scope nat_scope.

(** ** Exceptions *)

Inductive error : Type :=
| ValueError
| IndexError
| NotImplementedError
| UnboundLocalError
| NotConverged (imax : nat)   (* Exception('limgrad() did not converge within {imax} iterations.') *)
| OutOfFuel.

Inductive result (A : Type) : Type :=
| Ok (a : A)
| Raise (e : error).

Arguments Ok {A} a.
Arguments Raise {A} e.

Definition bind {A B : Type} (r : result A) (k : A -> result B) : result B :=
  match r with
  | Ok a => k a
  | Raise e => Raise e
  end.

Notation "x <- c ;; k" := (bind c (fun x => k))
  (at level 61, c at next level, right associativity).
Notation "' pat <- c ;; k" := (bind c (fun x => match x with pat => k end))
  (at level 61, pat pattern, c at next level, right associativity).

Fixpoint mapM {A B : Type} (f : A -> result B) (l : list A) : result (list B) :=
  match l with
  | [] => Ok []
  | x :: l' => y <- f x ;; ys <- mapM f l' ;; Ok (y :: ys)
  end.

Definition of_option {A : Type} (e : error) (o : option A) : result A :=
  match o with
  | Some a => Ok a
  | None => Raise e
  end.

(** ** Numbers *)

Definition num : Type := Q.

Definition nadd (x y : num) : num := Qred (x + y).
Definition nsub (x y : num) : num := Qred (x - y).
Definition nmul (x y : num) : num := Qred (x * y).
Definition ngt (x y : num) : bool := negb (Qle_bool x y).   (* x > y *)
Definition nlt (x y : num) : bool := ngt y x.               (* x < y *)
Definition nle (x y : num) : bool := Qle_bool x y.          (* x <= y *)

Definition coord_t : Type := (num * num)%type.

(** ** numpy and list primitives *)

Module np.

(** [a[i]] *)
Definition getitem {A : Type} (a : list A) (i : nat) : result A :=
  of_option IndexError (nth_error a i).

(** [a.take(idxs)]; every index must be in range. *)
Definition take {A : Type} (a : list A) (idxs : list nat) : result (list A) :=
  mapM (getitem a) idxs.

(** [np.where(mask)[0]] *)
Fixpoint where_from (i : nat) (mask : list bool) : list nat :=
  match mask with
  | [] => []
  | b :: mask' => if b then i :: where_from (S i) mask' else where_from (S i) mask'
  end.
Definition where_ (mask : list bool) : list nat := where_from 0 mask.

(** [np.arange(n)] *)
Definition arange (n : nat) : list nat := seq 0 n.

(** [x in a] for integers *)
Definition mem (x : nat) (a : list nat) : bool := existsb (Nat.eqb x) a.

(** [np.isin(a, b)] *)
Definition isin (a b : list nat) : list bool := map (fun x => mem x b) a.

(** [np.unique(a)]: the sorted distinct values. *)
Fixpoint insert_unique (x : nat) (l : list nat) : list nat :=
  match l with
  | [] => [x]
  | y :: l' =>
      if x <? y then x :: l
      else if x =? y then l
      else y :: insert_unique x l'
  end.
Definition unique (a : list nat) : list nat := fold_right insert_unique [] a.

(** [np.unique(a, return_counts=True)] *)
Definition count (x : nat) (a : list nat) : nat := count_occ Nat.eq_dec a x.
Definition unique_counts (a : list nat) : list nat * list nat :=
  let u := unique a in (u, map (fun x => count x a) u).

(** [u[mask]] *)
Fixpoint compress {A : Type} (a : list A) (mask : list bool) : list A :=
  match a, mask with
  | x :: a', b :: mask' => if b then x :: compress a' mask' else compress a' mask'
  | _, _ => []
  end.

(** [~mask] *)
Definition invert (mask : list bool) : list bool := map negb mask.

(** [a | b] *)
Fixpoint lor (a b : list bool) : list bool :=
  match a, b with
  | x :: a', y :: b' => (x || y) :: lor a' b'
  | _, _ => []
  end.

(** [np.full((n,), False)] *)
Definition full_false (n : nat) : list bool := repeat false n.

(** [mask[i] = True] *)
Fixpoint set_true (mask : list bool) (i : nat) : result (list bool) :=
  match mask, i with
  | [], _ => Raise IndexError
  | _ :: mask', O => Ok (true :: mask')
  | b :: mask', S i' => r <- set_true mask' i' ;; Ok (b :: r)
  end.

(** [mask[idxs] = True] *)
Fixpoint set_true_all (mask : list bool) (idxs : list nat) : result (list bool) :=
  match idxs with
  | [] => Ok mask
  | i :: idxs' => m <- set_true mask i ;; set_true_all m idxs'
  end.

(** [a[i] = v] *)
Fixpoint setitem {A : Type} (a : list A) (i : nat) (v : A) : result (list A) :=
  match a, i with
  | [], _ => Raise IndexError
  | _ :: a', O => Ok (v :: a')
  | x :: a', S i' => r <- setitem a' i' v ;; Ok (x :: r)
  end.

(** [np.max(a)] and [np.min(a)] of a list of numbers. *)
Definition nmax (x y : num) : num := if ngt y x then y else x.
Definition nmin (x y : num) : num := if nlt y x then y else x.
Definition max (a : list num) : result num :=
  match a with
  | [] => Raise ValueError
  | x :: a' => Ok (fold_left nmax a' x)
  end.
Definition min (a : list num) : result num :=
  match a with
  | [] => Raise ValueError
  | x :: a' => Ok (fold_left nmin a' x)
  end.

End np.

Module py.

(** [l.pop(i)] for [0 <= i]: the element and the remaining list. *)
Fixpoint pop {A : Type} (l : list A) (i : nat) : result (A * list A) :=
  match l, i with
  | [], _ => Raise IndexError
  | x :: l', O => Ok (x, l')
  | x :: l', S i' => '(y, r) <- pop l' i' ;; Ok (y, x :: r)
  end.

(** [l.pop(-1)] *)
Definition pop_last {A : Type} (l : list A) : result (A * list A) :=
  match l with
  | [] => Raise IndexError
  | _ => pop l (length l - 1)
  end.

(** [l.index(x)] *)
Fixpoint index_from {A : Type} (eqb : A -> A -> bool) (i : nat) (x : A) (l : list A)
  : result nat :=
  match l with
  | [] => Raise ValueError
  | y :: l' => if eqb y x then Ok i else index_from eqb (S i) x l'
  end.
Definition index {A : Type} (eqb : A -> A -> bool) (x : A) (l : list A) : result nat :=
  index_from eqb 0 x l.

(** [sorted(l)] on integers (insertion sort; stability is immaterial). *)
Fixpoint insert_sorted (x : nat) (l : list nat) : list nat :=
  match l with
  | [] => [x]
  | y :: l' => if x <=? y then x :: l else y :: insert_sorted x l'
  end.
Definition sorted (l : list nat) : list nat := fold_right insert_sorted [] l.

(** [itertools.permutations(simplex, 2)]: the ordered pairs of two
    different positions, in lexicographic order of the positions. *)
Fixpoint others_from {A : Type} (i k : nat) (l : list A) : list A :=
  match l with
  | [] => []
  | y :: l' => if i =? k then others_from i (S k) l' else y :: others_from i (S k) l'
  end.
Definition permutations2 {A : Type} (l : list A) : list (A * A) :=
  flat_map (fun ix => map (fun y => (snd ix, y)) (others_from (fst ix) 0 l))
           (combine (seq 0 (length l)) l).

End py.

(** ** The mesh ([jigsawpy.jigsaw_msh_t]) *)

Record vert2_t : Type := mk_vert2 { coord : coord_t; vert2_IDtag : Z }.
Record tria3_t : Type := mk_tria3 { index : nat * nat * nat; tria3_IDtag : Z }.
(** A [quad4] or [hexa8] element: only its index row and tag are used. *)
Record elem_t : Type := mk_elem { elem_index : list nat; elem_IDtag : Z }.

Record jigsaw_msh_t : Type := mk_mesh {
  mshID : string;
  vert2 : list vert2_t;
  tria3 : list tria3_t;
  quad4 : list elem_t;
  hexa8 : list elem_t;
  value : list num
}.

Definition set_tria3 (m : jigsaw_msh_t) (t : list tria3_t) : jigsaw_msh_t :=
  mk_mesh (mshID m) (vert2 m) t (quad4 m) (hexa8 m) (value m).
Definition set_vert2 (m : jigsaw_msh_t) (v : list vert2_t) : jigsaw_msh_t :=
  mk_mesh (mshID m) v (tria3 m) (quad4 m) (hexa8 m) (value m).
Definition set_value (m : jigsaw_msh_t) (f : list num) : jigsaw_msh_t :=
  mk_mesh (mshID m) (vert2 m) (tria3 m) (quad4 m) (hexa8 m) f.

Definition edge_t : Type := (nat * nat)%type.
(** A ring is the tuple of directed edges chained by [sort_edges]. *)
Definition ring_t : Type := list edge_t.

(** An entry of the dictionary built by [index_ring_collection]. *)
Record polygon_t : Type := mk_polygon { exterior : ring_t; interiors : list ring_t }.

(** ** The external geometry libraries *)

(** What the code reads of a [matplotlib.tri.Triangulation]. *)
Record triangulation : Type := mk_tri {
  triangles : list (nat * nat * nat);
  neighbors : list (Z * Z * Z);
  edges : list edge_t
}.

Class Geom : Type := {
  (** [Triangulation(x, y, triangles)] *)
  Triangulation : list num -> list num -> list (nat * nat * nat) -> result triangulation;
  (** [Polygon(shell, holes).area] *)
  Polygon_area : list coord_t -> list (list coord_t) -> result num;
  (** [Path(vertices, closed=True).contains_point(point)] *)
  Path_contains_point : list coord_t -> coord_t -> bool;
  (** [np.sqrt] *)
  np_sqrt : num -> num
}.

(** [np.sqrt(np.finfo(float).eps)]: eps is 2^-52, its root 2^-26. *)
Definition sqrt_eps : num := 1 # (2 ^ 26).

(** ** Row helpers *)

Definition row_list (t : nat * nat * nat) : list nat :=
  let '(a, b, c) := t in [a; b; c].

(** [a.flatten()] of an (n, 3) array *)
Definition flatten3 (a : list (nat * nat * nat)) : list nat := flat_map row_list a.

(** [a.reshape((n, 3))] *)
Fixpoint reshape3 (n : nat) (a : list nat) : list (nat * nat * nat) :=
  match n, a with
  | S n', x :: y :: z :: a' => (x, y, z) :: reshape3 n' a'
  | _, _ => []
  end.

(** The loop that closes the gaps left by the unused vertex positions:
    [for idx in reversed(tria3_idxs): tria3[np.where(tria3 >= idx)] -= 1].
    In [cleanup_isolates] and [sieve] the entries are referenced
    positions and [idx] runs over the unreferenced ones, from the
    largest down, so an entry that is decremented is positive and the
    subtraction on [nat] is the one of the code. *)
Definition shift_down (idx : nat) (a : list nat) : list nat :=
  map (fun x => if idx <=? x then x - 1 else x) a.
Definition renumber (tria3_idxs : list nat) (a : list nat) : list nat :=
  fold_left (fun acc idx => shift_down idx acc) (rev tria3_idxs) a.

Section Operations.

Context {G : Geom}.

(** ** mesh_to_tri *)

Definition mesh_to_tri (mesh : jigsaw_msh_t) : result triangulation :=
  Triangulation (map (fun v => fst (coord v)) (vert2 mesh))
                (map (fun v => snd (coord v)) (vert2 mesh))
                (map index (tria3 mesh)).

(** ** cleanup_isolates *)

Definition cleanup_isolates (mesh : jigsaw_msh_t) : result jigsaw_msh_t :=
  let node_indexes := np.arange (length (vert2 mesh)) in
  let used_indexes := np.unique (flatten3 (map index (tria3 mesh))) in
  let vert2_idxs := np.where_ (np.isin node_indexes used_indexes) in
  let tria3_idxs := np.where_ (np.invert (np.isin node_indexes used_indexes)) in
  let tria3_flat := renumber tria3_idxs (flatten3 (map index (tria3 mesh))) in
  let tria3' := reshape3 (length (tria3 mesh)) tria3_flat in
  vert2' <- np.take (vert2 mesh) vert2_idxs ;;
  value' <- (if 0 <? length (value mesh)
             then np.take (value mesh) vert2_idxs else Ok (value mesh)) ;;
  Ok (mk_mesh (mshID mesh) vert2'
        (map (fun it => mk_tria3 (fst it) (tria3_IDtag (snd it)))
             (combine tria3' (tria3 mesh)))
        (quad4 mesh) (hexa8 mesh) value').

(** ** put_IDtags *)

Definition enumerate {A : Type} (l : list A) : list (nat * A) :=
  combine (seq 0 (length l)) l.

Definition put_IDtags (mesh : jigsaw_msh_t) : jigsaw_msh_t :=
  mk_mesh (mshID mesh)
    (map (fun it => mk_vert2 (coord (snd it)) (Z.of_nat (fst it + 1))) (enumerate (vert2 mesh)))
    (map (fun it => mk_tria3 (index (snd it)) (Z.of_nat (fst it + 1))) (enumerate (tria3 mesh)))
    (map (fun it => mk_elem (elem_index (snd it)) (Z.of_nat (fst it + 1))) (enumerate (quad4 mesh)))
    (map (fun it => mk_elem (elem_index (snd it)) (Z.of_nat (fst it + 1))) (enumerate (hexa8 mesh)))
    (value mesh).

(** ** vertices_around_vertex *)

(** A [defaultdict(set)]: the keys in insertion order, every set as the
    ascending list of its members (the order in which CPython iterates
    a set of small integers). *)
Definition adjacency : Type := list (nat * list nat).

(** [d[i].add(j)] *)
Fixpoint dd_add (d : adjacency) (i j : nat) : adjacency :=
  match d with
  | [] => [(i, [j])]
  | (k, s) :: d' =>
      if k =? i then (k, np.insert_unique j s) :: d' else (k, s) :: dd_add d' i j
  end.

(** [d[i]]: a missing key is inserted with the empty set. *)
Fixpoint dd_get (d : adjacency) (i : nat) : list nat * adjacency :=
  match d with
  | [] => ([], [(i, [])])
  | (k, s) :: d' =>
      if k =? i then (s, d)
      else let '(r, d'') := dd_get d' i in (r, (k, s) :: d'')
  end.

Definition append_simplex (d : adjacency) (simplex : list nat) : adjacency :=
  fold_left (fun acc ij => dd_add acc (fst ij) (snd ij)) (py.permutations2 simplex) d.

Definition append_geom (d : adjacency) (geom : list (list nat)) : adjacency :=
  fold_left append_simplex geom d.

Definition vertices_around_vertex (mesh : jigsaw_msh_t) : result adjacency :=
  if String.eqb (mshID mesh) "euclidean-mesh" then
    let d1 := append_geom [] (map (fun t => row_list (index t)) (tria3 mesh)) in
    let d2 := append_geom d1 (map elem_index (quad4 mesh)) in
    Ok (append_geom d2 (map elem_index (hexa8 mesh)))
  else Raise NotImplementedError.

(** ** must_be_euclidean_mesh, elements *)

(** [str.lower] on the letters A to Z.  The code only compares
    [mshID.lower()] with an ASCII word, and no character other than an
    upper-case ASCII letter is lowered to a letter of that word, so the
    outcome of the comparison is that of the code. *)
Definition lower_char (c : Ascii.ascii) : Ascii.ascii :=
  let n := Ascii.nat_of_ascii c in
  if (65 <=? n) && (n <=? 90) then Ascii.ascii_of_nat (n + 32) else c.
Fixpoint lower (s : string) : string :=
  match s with
  | EmptyString => EmptyString
  | String c s' => String (lower_char c) (lower s')
  end.

(** The decorator: [f] runs on a mesh whose kind is [euclidean-mesh]
    up to the case of its letters. *)
Definition must_be_euclidean_mesh {A : Type} (f : jigsaw_msh_t -> result A)
    (mesh : jigsaw_msh_t) : result A :=
  if negb (String.eqb (lower (mshID mesh)) "euclidean-mesh")
  then Raise NotImplementedError
  else f mesh.

(** A [dict] with integer keys: the entries in the order in which their
    keys were first set; setting a key that is present replaces its
    value in place. *)
Fixpoint dict_set {V : Type} (d : list (Z * V)) (k : Z) (v : V) : list (Z * V) :=
  match d with
  | [] => [(k, v)]
  | (k', v') :: d' =>
      if Z.eqb k' k then (k', v) :: d' else (k', v') :: dict_set d' k v
  end.

(** The tags and the index rows of all the elements, in the order
    [tria3], [quad4], [hexa8]. *)
Definition element_tags (mesh : jigsaw_msh_t) : list Z :=
  map tria3_IDtag (tria3 mesh) ++ map elem_IDtag (quad4 mesh) ++
  map elem_IDtag (hexa8 mesh).
Definition element_rows (mesh : jigsaw_msh_t) : list (list nat) :=
  map (fun t => row_list (index t)) (tria3 mesh) ++
  map elem_index (quad4 mesh) ++ map elem_index (hexa8 mesh).

(** [len(set(elements_id)) != len(elements_id)] decides between the
    tags and [range(1, len(elements_id)+1)] as keys. *)
Definition elements : jigsaw_msh_t -> result (list (Z * list nat)) :=
  must_be_euclidean_mesh
    (fun mesh =>
       let elements_id := element_tags mesh in
       let elements_id :=
         if negb (length (nodup Z.eq_dec elements_id) =? length elements_id)
         then map Z.of_nat (seq 1 (length elements_id))
         else elements_id in
       fold_left
         (fun acc ii =>
            d <- acc ;;
            k <- np.getitem elements_id (fst ii) ;;
            Ok (dict_set d k (snd ii)))
         (enumerate (element_rows mesh)) (Ok [])).

(** ** sort_edges *)

(** [e0, e1]: the two columns of a list of edges, as unpacked from
    [zip]; unpacking fails on the empty list. *)
Definition unzip (es : list edge_t) : result (list nat * list nat) :=
  match es with
  | [] => Raise ValueError
  | _ => Ok (map fst es, map snd es)
  end.

Record chain_state : Type := mk_chain {
  st_edges : list edge_t;
  st_e0 : list nat;
  st_e1 : list nat;
  st_ordered_edges : list edge_t;
  st_edge_collection : list ring_t
}.

Definition reversed_edge (e : edge_t) : edge_t := (snd e, fst e).

(** [l.pop(idx)] where [None] stands for [idx = -1]. *)
Definition pop_idx {A : Type} (l : list A) (idx : option nat) : result (A * list A) :=
  match idx with
  | Some i => py.pop l i
  | None => py.pop_last l
  end.

(** One turn of the [while len(edges) > 0] loop. *)
Definition sort_edges_step (st : chain_state) : result chain_state :=
  tail <- of_option IndexError (option_map snd (last (map Some (st_ordered_edges st)) None)) ;;
  head <- of_option IndexError (option_map fst (hd_error (st_ordered_edges st))) ;;
  '(idx, ordered, collection, edges') <-
    (if np.mem tail (st_e0 st) then
       i <- py.index Nat.eqb tail (st_e0 st) ;;
       '(e, rest) <- py.pop (st_edges st) i ;;
       Ok (Some i, st_ordered_edges st ++ [e], st_edge_collection st, rest)
     else if np.mem head (st_e1 st) then
       i <- py.index Nat.eqb head (st_e1 st) ;;
       '(e, rest) <- py.pop (st_edges st) i ;;
       Ok (Some i, e :: st_ordered_edges st, st_edge_collection st, rest)
     else if np.mem tail (st_e1 st) then
       i <- py.index Nat.eqb tail (st_e1 st) ;;
       '(e, rest) <- py.pop (st_edges st) i ;;
       Ok (Some i, st_ordered_edges st ++ [reversed_edge e], st_edge_collection st, rest)
     else if np.mem head (st_e0 st) then
       i <- py.index Nat.eqb head (st_e0 st) ;;
       '(e, rest) <- py.pop (st_edges st) i ;;
       Ok (Some i, reversed_edge e :: st_ordered_edges st, st_edge_collection st, rest)
     else
       '(e, rest) <- py.pop_last (st_edges st) ;;
       Ok (None, [e], st_edge_collection st ++ [st_ordered_edges st], rest)) ;;
  '(_, e0') <- pop_idx (st_e0 st) idx ;;
  '(_, e1') <- pop_idx (st_e1 st) idx ;;
  Ok (mk_chain edges' e0' e1' ordered collection).

Fixpoint sort_edges_loop (fuel : nat) (st : chain_state) : result (list ring_t) :=
  match st_edges st with
  | [] => Ok (st_edge_collection st ++ [st_ordered_edges st])
  | _ :: _ =>
      match fuel with
      | O => Raise OutOfFuel
      | S fuel' => st' <- sort_edges_step st ;; sort_edges_loop fuel' st'
      end
  end.

Definition sort_edges (es : list edge_t) : result (list ring_t) :=
  match es with
  | [] => Ok []
  | _ :: _ =>
      '(e, rest) <- py.pop_last es ;;
      '(e0, e1) <- unzip rest ;;
      sort_edges_loop (length rest) (mk_chain rest e0 e1 [e] [])
  end.

End Operations.

Section RingOperations.

Context {G : Geom}.

(** ** index_ring_collection *)

(** The boundary edges: the rows of [np.where(tri.neighbors == -1)], in
    row-major order, each read off [tri.triangles]. *)
Definition boundary_edges (tri : triangulation) : list edge_t :=
  flat_map
    (fun tn =>
       let '((a, b, c), (n0, n1, n2)) := tn in
       (if Z.eqb n0 (-1) then [(a, b)] else []) ++
       (if Z.eqb n1 (-1) then [(b, c)] else []) ++
       (if Z.eqb n2 (-1) then [(c, a)] else []))
    (combine (triangles tri) (neighbors tri)).

(** [vertices[e0, :]] *)
Definition coords_of (vertices : list coord_t) (idxs : list nat) : result (list coord_t) :=
  np.take vertices idxs.

(** [Path(vertices[e0 + [e0[0]], :], closed=True)] of a ring *)
Definition ring_path (vertices : list coord_t) (r : ring_t) : result (list coord_t) :=
  '(e0, _) <- unzip r ;;
  coords_of vertices (e0 ++ firstn 1 e0).

(** [float(Polygon(vertices[e0, :]).area)] of every ring *)
Definition ring_areas (vertices : list coord_t) (rings : list ring_t) : result (list num) :=
  mapM (fun r => '(e0, _) <- unzip r ;;
                 pts <- coords_of vertices e0 ;;
                 Polygon_area pts []) rings.

(** [areas.index(np.max(areas))] *)
Definition argmax (areas : list num) : result nat :=
  mx <- np.max areas ;; py.index Qeq_bool mx areas.

(** The start vertex [ring[0][0]] of a ring, as a point. *)
Definition first_point (vertices : list coord_t) (r : ring_t) : result coord_t :=
  e <- np.getitem r 0 ;; np.getitem vertices (fst e).

(** The indexes of the rings of the pool whose start vertex lies inside [path]. *)
Definition potential_interiors (vertices : list coord_t) (path : list coord_t)
    (pool : list ring_t) : result (list nat) :=
  hits <- mapM (fun r => '(e0, _) <- unzip r ;;
                         i0 <- np.getitem e0 0 ;;
                         p <- np.getitem vertices i0 ;;
                         Ok (Path_contains_point path p)) pool ;;
  Ok (np.where_ hits).

(** [has_parent] for the candidate at position [i] of [potential]. *)
Definition has_parent (vertices : list coord_t) (pool : list ring_t)
    (potential : list nat) (i p_interior : nat) : result bool :=
  _p_interior <- np.getitem pool p_interior ;;
  check <- mapM (fun jp => np.getitem pool (snd jp))
             (filter (fun jp => negb (i =? fst jp)) (rev (enumerate potential))) ;;
  fold_left
    (fun acc _path =>
       hp <- acc ;;
       path' <- ring_path vertices _path ;;
       p <- first_point vertices _p_interior ;;
       Ok (if Path_contains_point path' p then true else hp))
    check (Ok false).

(** The candidates that have no parent among the other candidates. *)
Definition real_interiors (vertices : list coord_t) (pool : list ring_t)
    (potential : list nat) : result (list nat) :=
  fold_left
    (fun acc ip =>
       real <- acc ;;
       hp <- has_parent vertices pool potential (fst ip) (snd ip) ;;
       Ok (if hp then real else real ++ [snd ip]))
    (rev (enumerate potential)) (Ok []).

(** [for i in reversed(sorted(real)): interiors.append(pool.pop(i)); areas.pop(i)] *)
Fixpoint pop_interiors (idxs : list nat) (pool : list ring_t) (areas : list num)
    (ints : list ring_t) : result (list ring_t * list num * list ring_t) :=
  match idxs with
  | [] => Ok (pool, areas, ints)
  | i :: idxs' =>
      '(r, pool') <- py.pop pool i ;;
      '(_, areas') <- py.pop areas i ;;
      pop_interiors idxs' pool' areas' (ints ++ [r])
  end.

(** The [while len(index_ring_collection) > 0] loop.  [done] holds the
    entries [0 .. _id-1] of the dictionary and [cur] the entry [_id]. *)
Fixpoint classify (fuel : nat) (vertices : list coord_t) (pool : list ring_t)
    (areas : list num) (path : list coord_t) (done : list polygon_t) (cur : polygon_t)
    : result (list polygon_t) :=
  match pool with
  | [] => Ok (done ++ [cur])
  | _ :: _ =>
      match fuel with
      | O => Raise OutOfFuel
      | S fuel' =>
          potential <- potential_interiors vertices path pool ;;
          real <- real_interiors vertices pool potential ;;
          '(pool1, areas1, ints) <-
             pop_interiors (rev (py.sorted real)) pool areas (interiors cur) ;;
          let cur1 := mk_polygon (exterior cur) ints in
          match pool1 with
          | [] => classify fuel' vertices pool1 areas1 path done cur1
          | _ :: _ =>
              idx <- argmax areas1 ;;
              '(ext, pool2) <- py.pop pool1 idx ;;
              '(_, areas2) <- py.pop areas1 idx ;;
              path2 <- ring_path vertices ext ;;
              classify fuel' vertices pool2 areas2 path2 (done ++ [cur1]) (mk_polygon ext [])
          end
      end
  end.

(** The rings handed to the classification: [sort_edges(boundary_edges)]. *)
Definition boundary_rings (mesh : jigsaw_msh_t) : result (list ring_t) :=
  tri <- mesh_to_tri mesh ;;
  sort_edges (boundary_edges tri).

Definition classify_rings (vertices : list coord_t) (rings : list ring_t)
    : result (list polygon_t) :=
  areas <- ring_areas vertices rings ;;
  idx <- argmax areas ;;
  '(ext, pool) <- py.pop rings idx ;;
  '(_, areas') <- py.pop areas idx ;;
  path <- ring_path vertices ext ;;
  classify (length pool) vertices pool areas' path [] (mk_polygon ext []).

Definition index_ring_collection (mesh : jigsaw_msh_t) : result (list polygon_t) :=
  rings <- boundary_rings mesh ;;
  classify_rings (map coord (vert2 mesh)) rings.

(** ** outer_ring_collection, inner_ring_collection *)

Definition outer_ring_collection (mesh : jigsaw_msh_t) : result (list ring_t) :=
  c <- index_ring_collection mesh ;; Ok (map exterior c).

Definition inner_ring_collection (mesh : jigsaw_msh_t) : result (list (list ring_t)) :=
  c <- index_ring_collection mesh ;; Ok (map interiors c).

(** ** geom_to_multipolygon *)

(** A shapely polygon: the coordinates of its shell and of its holes. *)
Record shapely_polygon : Type := mk_shapely {
  shell : list coord_t;
  holes : list (list coord_t)
}.

Definition geom_to_multipolygon (mesh : jigsaw_msh_t) : result (list shapely_polygon) :=
  let vertices := map coord (vert2 mesh) in
  c <- index_ring_collection mesh ;;
  mapM (fun polygon =>
          ext <- coords_of vertices (map fst (exterior polygon)) ;;
          ints <- mapM (fun interior => coords_of vertices (map fst interior))
                    (interiors polygon) ;;
          Ok (mk_shapely ext ints)) c.

(** [polygon.area] *)
Definition polygon_area (p : shapely_polygon) : result num :=
  Polygon_area (shell p) (holes p).

(** [polygon.exterior.coords]: shapely closes the ring. *)
Definition exterior_coords (p : shapely_polygon) : list coord_t :=
  match shell p, rev (shell p) with
  | a :: _, z :: _ =>
      if Qeq_bool (fst a) (fst z) && Qeq_bool (snd a) (snd z)
      then shell p else shell p ++ [a]
  | _, _ => shell p
  end.

(** The selection of the regions to remove, the statements shared by
    [needs_sieve] (lines 67-73) and [sieve] (lines 120-126). *)
Definition select_remove (areas : list num) (area : option num) : result (list nat) :=
  match area with
  | None => mx <- np.max areas ;; Ok (np.where_ (map (fun a => nlt a mx) areas))
  | Some t => Ok (map fst (filter (fun ia => nle (snd ia) t) (enumerate areas)))
  end.

(** ** needs_sieve *)

Definition needs_sieve (mesh : jigsaw_msh_t) (area : option num) : result bool :=
  mp <- geom_to_multipolygon mesh ;;
  areas <- mapM polygon_area mp ;;
  remove <- select_remove areas area ;;
  Ok (0 <? length remove).

(** ** has_pinched_nodes, cleanup_pinched_nodes *)

(** [all_nodes]: the start vertexes of the edges of every interior ring. *)
Definition all_nodes (inner : list (list ring_t)) : list nat :=
  flat_map (fun inner_rings => flat_map (fun ring => map fst ring) inner_rings) inner.

(** [u[c > 1]] *)
Definition repeated_nodes (nodes : list nat) : list nat :=
  let '(u, c) := np.unique_counts nodes in
  np.compress u (map (fun k => 1 <? k) c).

Definition has_pinched_nodes (mesh : jigsaw_msh_t) : result bool :=
  inner <- inner_ring_collection mesh ;;
  Ok (0 <? length (repeated_nodes (all_nodes inner))).

(** [np.any(np.isin(tria3['index'], pinched), axis=1)] *)
Definition any_isin (rows : list (nat * nat * nat)) (pinched : list nat) : list bool :=
  map (fun row => existsb (fun b => b) (np.isin (row_list row) pinched)) rows.

Definition cleanup_pinched_nodes (mesh : jigsaw_msh_t) : result jigsaw_msh_t :=
  inner <- inner_ring_collection mesh ;;
  let pinched := repeated_nodes (all_nodes inner) in
  tria3' <- np.take (tria3 mesh)
              (np.where_ (np.invert (any_isin (map index (tria3 mesh)) pinched))) ;;
  Ok (set_tria3 mesh tria3').

End RingOperations.

Section Repair.

Context {G : Geom}.

(** ** sieve *)

(** [vert2_mask | path.contains_points(coord)] for every removed region *)
Definition mask_inside (multipolygon : list shapely_polygon) (coords : list coord_t)
    (remove : list nat) : result (list bool) :=
  fold_left
    (fun acc idx =>
       mask <- acc ;;
       p <- np.getitem multipolygon idx ;;
       let path := exterior_coords p in
       Ok (np.lor mask (map (Path_contains_point path) coords)))
    remove (Ok (np.full_false (length coords))).

(** [for _idx in _idxs: vert2_mask[list(_node_neighbors[_idx])] = True] *)
Definition mask_neighbors (mask : list bool) (node_neighbors : adjacency)
    : result (list bool * adjacency) :=
  fold_left
    (fun acc _idx =>
       '(m, d) <- acc ;;
       let '(s, d') := dd_get d _idx in
       m' <- np.set_true_all m s ;;
       Ok (m', d'))
    (np.where_ mask) (Ok (mask, node_neighbors)).

(** [for idx, neighbors in _node_neighbors.items(): if len(neighbors) <= 2: ...] *)
Definition mask_dangling (mask : list bool) (node_neighbors : adjacency)
    : result (list bool) :=
  fold_left
    (fun acc kv =>
       m <- acc ;;
       if length (snd kv) <=? 2 then np.set_true m (fst kv) else Ok m)
    node_neighbors (Ok mask).

(** The regions of the mesh and the indexes of those to remove
    (lines 118-126). *)
Definition sieve_selection (mesh : jigsaw_msh_t) (area : option num)
    : result (list shapely_polygon * list nat) :=
  multipolygon <- geom_to_multipolygon mesh ;;
  areas <- mapM polygon_area multipolygon ;;
  remove <- select_remove areas area ;;
  Ok (multipolygon, remove).

(** The vertex mask of [sieve] before the triangles are selected. *)
Definition sieve_vert2_mask (mesh : jigsaw_msh_t) (area : option num) : result (list bool) :=
  '(multipolygon, remove) <- sieve_selection mesh area ;;
  mask0 <- mask_inside multipolygon (map coord (vert2 mesh)) remove ;;
  node_neighbors <- vertices_around_vertex mesh ;;
  '(mask1, node_neighbors') <- mask_neighbors mask0 node_neighbors ;;
  mask_dangling mask1 node_neighbors'.

(** [np.any(vert2_mask[tria3['index']], axis=1)] *)
Definition tria3_mask_of (vert2_mask : list bool) (rows : list (nat * nat * nat))
    : result (list bool) :=
  mapM (fun row => bs <- np.take vert2_mask (row_list row) ;;
                   Ok (existsb (fun b => b) bs)) rows.

Definition sieve (mesh : jigsaw_msh_t) (area : option num) : result jigsaw_msh_t :=
  vert2_mask <- sieve_vert2_mask mesh area ;;
  tria3_mask <- tria3_mask_of vert2_mask (map index (tria3 mesh)) ;;
  let used_indexes := np.unique (flatten3 (map index (tria3 mesh))) in
  let node_indexes := np.arange (length (vert2 mesh)) in
  let tria3_idxs := np.where_ (np.invert (np.isin node_indexes used_indexes)) in
  tria3_IDtag' <- np.take (map tria3_IDtag (tria3 mesh))
                    (np.where_ (np.invert tria3_mask)) ;;
  let tria3_index :=
    flatten3 (np.compress (map index (tria3 mesh)) (np.invert tria3_mask)) in
  let tria3_index' :=
    reshape3 (length tria3_IDtag') (renumber tria3_idxs tria3_index) in
  let vert2_idxs := np.where_ (np.isin node_indexes used_indexes) in
  vert2' <- np.take (vert2 mesh) vert2_idxs ;;
  value' <- (if 0 <? length (value mesh)
             then np.take (value mesh) vert2_idxs else Ok (value mesh)) ;;
  Ok (mk_mesh (mshID mesh) vert2'
        (map (fun it => mk_tria3 (fst it) (snd it)) (combine tria3_index' tria3_IDtag'))
        (quad4 mesh) (hexa8 mesh) value').

(** ** finalize_mesh *)

(** The condition of the [while]: [needs_sieve(mesh) or has_pinched_nodes(mesh)];
    [needs_sieve] is called with its default [area=None]. *)
Definition repair_needed (mesh : jigsaw_msh_t) : result bool :=
  ns <- needs_sieve mesh None ;;
  if ns then Ok true else has_pinched_nodes mesh.

Fixpoint finalize_loop (fuel : nat) (mesh : jigsaw_msh_t) (sieve_area : option num)
    : result jigsaw_msh_t :=
  match fuel with
  | O => Raise OutOfFuel
  | S fuel' =>
      again <- repair_needed mesh ;;
      if again then
        m1 <- cleanup_pinched_nodes mesh ;;
        m2 <- sieve m1 sieve_area ;;
        finalize_loop fuel' m2 sieve_area
      else Ok mesh
  end.

Definition finalize_mesh (fuel : nat) (mesh : jigsaw_msh_t) (sieve_area : option num)
    : result jigsaw_msh_t :=
  m0 <- cleanup_isolates mesh ;;
  m1 <- finalize_loop fuel m0 sieve_area ;;
  Ok (put_IDtags m1).

(** ** limgrad *)

(** [np.argsort(a)]: the positions of [a] in ascending order of value
    (equal values keep their order). *)
Fixpoint insert_by_value (x : nat * num) (l : list (nat * num)) : list (nat * num) :=
  match l with
  | [] => [x]
  | y :: l' => if nle (snd x) (snd y) then x :: l else y :: insert_by_value x l'
  end.
Definition argsort (a : list num) : list nat :=
  map fst (fold_right insert_by_value [] (enumerate a)).

(** [point_neighbors[i]]: a key that is missing reads as the empty set. *)
Definition point_neighbors_of (d : adjacency) (i : nat) : list nat := fst (dd_get d i).

(** The body of [for adj_edge in adjacent_edges]. *)
Definition relax (elen : list num) (dfdx ftol : num) (_iter active_idx : nat)
    (st : list num * list nat) (adj_edge : nat) : result (list num * list nat) :=
  let '(ffun, aset) := st in
  f_adj <- np.getitem ffun adj_edge ;;
  f_act <- np.getitem ffun active_idx ;;
  if ngt f_adj f_act then
    el <- np.getitem elen active_idx ;;
    let fun1 := nadd f_act (nmul el dfdx) in
    if ngt f_adj (nadd fun1 ftol) then
      ffun' <- np.setitem ffun adj_edge fun1 ;;
      aset' <- np.setitem aset adj_edge _iter ;;
      Ok (ffun', aset')
    else Ok st
  else
    el <- np.getitem elen active_idx ;;
    let fun2 := nadd f_adj (nmul el dfdx) in
    if ngt f_act (nadd fun2 ftol) then
      ffun' <- np.setitem ffun active_idx fun2 ;;
      aset' <- np.setitem aset active_idx _iter ;;
      Ok (ffun', aset')
    else Ok st.

(** [aidx = np.where(aset == _iter - 1)[0]] *)
Definition active_set (aset : list nat) (_iter : nat) : list nat :=
  np.where_ (map (fun a => a =? _iter - 1) aset).

(** The body of one turn of [for _iter in range(1, imax+1)] after the
    test of the active set. *)
Definition sweep (pn : adjacency) (elen : list num) (dfdx ftol : num) (_iter : nat)
    (st : list num * list nat) : result (list num * list nat) :=
  let aidx := active_set (snd st) _iter in
  vals <- np.take (fst st) aidx ;;
  fold_left
    (fun acc active_idx =>
       s <- acc ;;
       fold_left (fun acc' adj_edge => s' <- acc' ;;
                                       relax elen dfdx ftol _iter active_idx s' adj_edge)
                 (point_neighbors_of pn active_idx) (Ok s))
    (argsort vals) (Ok st).

(** [n] turns remain and the loop variable takes the value [_iter]
    next; the result carries the value [_iter] has after the loop. *)
Fixpoint limgrad_loop (n _iter : nat) (pn : adjacency) (elen : list num)
    (dfdx ftol : num) (st : list num * list nat) : result (list num * list nat * nat) :=
  match n with
  | O => Ok (st, _iter - 1)
  | S n' =>
      if length (active_set (snd st) _iter) =? 0 then Ok (st, _iter)
      else
        st' <- sweep pn elen dfdx ftol _iter st ;;
        limgrad_loop n' (S _iter) pn elen dfdx ftol st'
  end.

(** [limgrad] from [ffun = mesh.value.flatten()] on, given the
    triangles and the table of edge lengths. *)
Definition limgrad_core (tris : list (nat * nat * nat)) (elen : list num)
    (ffun : list num) (dfdx : num) (imax : nat) : result (list num) :=
  let aset := repeat 0 (length ffun) in
  mn <- np.min ffun ;;
  let ftol := nmul mn sqrt_eps in
  let pn := append_geom [] (map row_list tris) in
  '(st, last_iter) <- limgrad_loop imax 1 pn elen dfdx ftol (ffun, aset) ;;
  match imax with
  | O => Raise UnboundLocalError
  | S _ => if last_iter <? imax then Ok (fst st) else Raise (NotConverged imax)
  end.

(** [elen = np.sqrt(dx**2 + dy**2)] over [tri.edges] *)
Definition edge_lengths (xy : list coord_t) (es : list edge_t) : result (list num) :=
  mapM (fun e =>
          p <- np.getitem xy (fst e) ;;
          q <- np.getitem xy (snd e) ;;
          let dx := nsub (fst p) (fst q) in
          let dy := nsub (snd p) (snd q) in
          Ok (np_sqrt (nadd (nmul dx dx) (nmul dy dy)))) es.

Definition limgrad (mesh : jigsaw_msh_t) (dfdx : num) (imax : nat) : result (list num) :=
  tri <- mesh_to_tri mesh ;;
  elen <- edge_lengths (map coord (vert2 mesh)) (edges tri) ;;
  limgrad_core (triangles tri) elen (value mesh) dfdx imax.

End Repair.

(** ** An exact-arithmetic instance of the geometry libraries

    It serves to evaluate the code on concrete meshes.  It follows the
    libraries on meshes that are manifold (no directed edge occurs in
    two triangles) and on points that do not lie on the tested
    polygon's boundary; the meshes below are of that kind. *)

Module ExactGeom.

Definition cross (p q r : coord_t) : num :=
  nsub (nmul (nsub (fst q) (fst p)) (nsub (snd r) (snd p)))
       (nmul (nsub (fst r) (fst p)) (nsub (snd q) (snd p))).

(** matplotlib turns a clockwise triangle anticlockwise by swapping
    its last two points. *)
Definition orient (xy : list coord_t) (t : nat * nat * nat) : nat * nat * nat :=
  let '(a, b, c) := t in
  match nth_error xy a, nth_error xy b, nth_error xy c with
  | Some p, Some q, Some r => if nlt (cross p q r) 0%Q then (a, c, b) else t
  | _, _, _ => t
  end.

Definition directed_edges (t : nat * nat * nat) : list edge_t :=
  let '(a, b, c) := t in [(a, b); (b, c); (c, a)].

Definition edge_eqb (e f : edge_t) : bool :=
  (fst e =? fst f) && (snd e =? snd f).

(** The triangle across the directed edge [e], or -1. *)
Definition neighbor_of (tris : list (nat * nat * nat)) (e : edge_t) : Z :=
  match find (fun it => existsb (edge_eqb (snd e, fst e)) (directed_edges (snd it)))
             (enumerate tris) with
  | Some it => Z.of_nat (fst it)
  | None => (-1)%Z
  end.

Definition neighbor_row (tris : list (nat * nat * nat)) (t : nat * nat * nat)
  : Z * Z * Z :=
  let '(a, b, c) := t in
  (neighbor_of tris (a, b), neighbor_of tris (b, c), neighbor_of tris (c, a)).

(** [tri.edges]: every edge once, larger end first, in ascending order. *)
Definition edge_ltb (e f : edge_t) : bool :=
  (fst e <? fst f) || ((fst e =? fst f) && (snd e <? snd f)).
Fixpoint insert_edge (e : edge_t) (l : list edge_t) : list edge_t :=
  match l with
  | [] => [e]
  | f :: l' =>
      if edge_ltb e f then e :: l
      else if edge_eqb e f then l
      else f :: insert_edge e l'
  end.
Definition normal_edge (e : edge_t) : edge_t :=
  if fst e <? snd e then (snd e, fst e) else e.
Definition all_edges (tris : list (nat * nat * nat)) : list edge_t :=
  fold_right insert_edge [] (map normal_edge (flat_map directed_edges tris)).

Definition Triangulation (x y : list num) (tris : list (nat * nat * nat))
  : result triangulation :=
  match tris with
  | [] => Raise ValueError
  | _ :: _ =>
      if forallb (fun i => i <? length x) (flatten3 tris) && (length x =? length y) then
        let tris' := map (orient (combine x y)) tris in
        Ok (mk_tri tris' (map (neighbor_row tris') tris') (all_edges tris'))
      else Raise ValueError
  end.

(** Twice the signed area of a polygon (shoelace formula). *)
Fixpoint shoelace2 (first : coord_t) (pts : list coord_t) : num :=
  match pts with
  | [] => 0%Q
  | p :: rest =>
      let q := match rest with [] => first | q :: _ => q end in
      nadd (nsub (nmul (fst p) (snd q)) (nmul (fst q) (snd p))) (shoelace2 first rest)
  end.
Definition nabs (x : num) : num := Qred (Qabs x).
Definition ring_area (pts : list coord_t) : num :=
  match pts with
  | [] => 0%Q
  | p :: _ => nmul (nabs (shoelace2 p pts)) (1 # 2)%Q
  end.

Definition Polygon_area (ext : list coord_t) (ints : list (list coord_t)) : result num :=
  if length ext <? 3 then Raise ValueError
  else Ok (fold_left (fun acc h => nsub acc (ring_area h)) ints (ring_area ext)).

(** Even-odd rule: the segments that a ray from [p] towards +x crosses. *)
Definition crosses (p a b : coord_t) : bool :=
  negb (Bool.eqb (ngt (snd a) (snd p)) (ngt (snd b) (snd p))) &&
  (let t := nsub (nmul (nsub (fst b) (fst a)) (nsub (snd p) (snd a)))
                 (nmul (nsub (fst p) (fst a)) (nsub (snd b) (snd a))) in
   if ngt (snd b) (snd a) then ngt t 0%Q else nlt t 0%Q).
Fixpoint crossings (p : coord_t) (path : list coord_t) : nat :=
  match path with
  | a :: ((b :: _) as rest) => (if crosses p a b then 1 else 0) + crossings p rest
  | _ => 0
  end.
Definition Path_contains_point (path : list coord_t) (p : coord_t) : bool :=
  Nat.odd (crossings p path).

(** The root of a rational square; exact on squares of rationals. *)
Definition np_sqrt (x : num) : num :=
  Qred (Z.sqrt (Qnum x * Zpos (Qden x)) # Qden x)%Q.

End ExactGeom.

#[local] Instance exact_geom : Geom := {|
  Triangulation := ExactGeom.Triangulation;
  Polygon_area := ExactGeom.Polygon_area;
  Path_contains_point := ExactGeom.Path_contains_point;
  np_sqrt := ExactGeom.np_sqrt
|}.

(** ** Concrete meshes *)

Definition zq (p : Z * Z) : coord_t := (inject_Z (fst p), inject_Z (snd p)).

Definition euclidean_mesh (cs : list (Z * Z)) (ts : list (nat * nat * nat))
    (vs : list Z) : jigsaw_msh_t :=
  mk_mesh "euclidean-mesh"
    (map (fun c => mk_vert2 (zq c) 0) cs)
    (map (fun t => mk_tria3 t 0) ts) [] []
    (map inject_Z vs).

(** One triangle with sides 4 (0-1), 3 (0-2) and 5 (1-2). *)
Definition one_triangle (vs : list Z) : jigsaw_msh_t :=
  euclidean_mesh [(0, 0); (0, 4); (3, 0)]%Z [(0, 2, 1)] vs.

(** A triangle split into three by an inner point: every vertex has
    three neighbours.  Its area is 18. *)
Definition split_triangle_coords : list (Z * Z) := [(0, 0); (6, 0); (0, 6); (2, 2)]%Z.
Definition split_triangle_rows : list (nat * nat * nat) := [(0, 1, 3); (1, 2, 3); (2, 0, 3)].
Definition split_triangle : jigsaw_msh_t :=
  euclidean_mesh split_triangle_coords split_triangle_rows [10; 11; 12; 13]%Z.

(** The split triangle and, apart from it, one floating triangle. *)
Definition with_floating_triangle : jigsaw_msh_t :=
  euclidean_mesh (split_triangle_coords ++ [(20, 0); (22, 0); (20, 2)]%Z)
                 (split_triangle_rows ++ [(4, 5, 6)])
                 [10; 11; 12; 13; 14; 15; 16]%Z.

(** A square of 2 x 2 cells cut in eight triangles around its centre
    (vertex 4), every vertex with three neighbours at least, and one
    floating triangle 9-10-11 apart from it. *)
Definition square_rows : list (nat * nat * nat) :=
  [(0, 1, 4); (0, 4, 3); (1, 2, 4); (2, 5, 4); (3, 4, 6); (4, 7, 6); (4, 5, 8); (4, 8, 7)].
Definition square_with_floating_triangle : jigsaw_msh_t :=
  euclidean_mesh
    [(0, 0); (1, 0); (2, 0); (0, 1); (1, 1); (2, 1); (0, 2); (1, 2); (2, 2);
     (10, 0); (11, 0); (10, 1)]%Z
    (square_rows ++ [(9, 10, 11)])
    [1; 2; 3; 4; 5; 6; 7; 8; 9; 10; 11; 12]%Z.

(** The split triangle with an ear on its long side: the ear's tip
    (vertex 4) has two neighbours.  Its area is 36. *)
Definition with_ear : jigsaw_msh_t :=
  euclidean_mesh (split_triangle_coords ++ [(6, 6)]%Z)
                 (split_triangle_rows ++ [(1, 4, 2)])
                 [10; 11; 12; 13; 14]%Z.

(** A square ring: the outer square 0-3, the inner square 4-7. *)
Definition square_ring : jigsaw_msh_t :=
  euclidean_mesh
    [(0, 0); (6, 0); (6, 6); (0, 6); (2, 2); (4, 2); (4, 4); (2, 4)]%Z
    [(0, 1, 5); (0, 5, 4); (1, 2, 6); (1, 6, 5); (2, 3, 7); (2, 7, 6); (3, 0, 4); (3, 4, 7)]
    [1; 2; 3; 4; 5; 6; 7; 8]%Z.

(** Four points on a line carrying the four faces of a tetrahedron:
    every edge has a triangle on either side. *)
Definition closed_surface : jigsaw_msh_t :=
  euclidean_mesh [(0, 0); (1, 0); (2, 0); (3, 0)]%Z
                 [(0, 1, 2); (0, 3, 1); (1, 3, 2); (0, 2, 3)] [].

(** ** Vocabulary of the properties and further concrete data *)

(** The vertexes kept by [cleanup_isolates] and [sieve]: the positions
    that occur in the triangle table. *)
Definition used_vertices (mesh : jigsaw_msh_t) : list nat :=
  np.where_ (np.isin (np.arange (length (vert2 mesh)))
                     (np.unique (flatten3 (map index (tria3 mesh))))).

(** The scalar-value array has the length of the vertex array. *)
Definition scalar_aligned (m : jigsaw_msh_t) : Prop :=
  length (value m) = length (vert2 m).

(** The occurrences of the vertex [v] in one hole ring (an edge of the
    ring leaves it), and in the hole rings of all the regions.  They
    are counted on the rings themselves, not on the node list that the
    code collects. *)
Definition ring_occurrences (v : nat) (ring : ring_t) : nat :=
  length (filter (fun e => fst e =? v) ring).
Definition hole_occurrences (inner : list (list ring_t)) (v : nat) : nat :=
  list_sum (map (fun rings => list_sum (map (ring_occurrences v) rings)) inner).

(** A pinched node: a vertex with more than one occurrence in the hole
    rings of all the regions. *)
Definition pinched_node (inner : list (list ring_t)) (v : nat) : Prop :=
  1 < hole_occurrences inner v.

(** The triangle [t] has the vertex [v]. *)
Definition references (t : tria3_t) (v : nat) : Prop := In v (row_list (index t)).

(** The triangle has a pinched node among its vertexes. *)
Definition touches_pinched (inner : list (list ring_t)) (t : tria3_t) : bool :=
  existsb (fun v => 1 <? hole_occurrences inner v) (row_list (index t)).

(** The outcome is a result or a Python exception, not the exhaustion
    of a loop bound of the embedding. *)
Definition fuel_free {A : Type} (r : result A) : Prop := r <> Raise OutOfFuel.

(** All the rings of a collection: every region's exterior and holes. *)
Definition rings_of (c : list polygon_t) : list ring_t :=
  flat_map (fun p => exterior p :: interiors p) c.

(** A 4 x 4 grid of unit cells, each cut in two triangles, without the
    cells (1,2) and (2,1): the two holes touch at the vertex 12. *)
Definition grid_vertex (x y : nat) : nat := x + 5 * y.
Definition grid_coords : list (Z * Z) :=
  flat_map (fun y => map (fun x => (Z.of_nat x, Z.of_nat y)) (seq 0 5)) (seq 0 5).
Definition grid_cell (xy : nat * nat) : list (nat * nat * nat) :=
  let '(x, y) := xy in
  [(grid_vertex x y, grid_vertex (x + 1) y, grid_vertex (x + 1) (y + 1));
   (grid_vertex x y, grid_vertex (x + 1) (y + 1), grid_vertex x (y + 1))].
Definition is_hole (xy : nat * nat) : bool :=
  ((fst xy =? 1) && (snd xy =? 2)) || ((fst xy =? 2) && (snd xy =? 1)).
Definition pinched_grid : jigsaw_msh_t :=
  euclidean_mesh grid_coords
    (flat_map grid_cell
       (filter (fun xy => negb (is_hole xy)) (list_prod (seq 0 4) (seq 0 4))))
    (map Z.of_nat (seq 0 25)).

(** The state of [limgrad] after [n] turns of its loop, and the value
    of [_iter]. *)
Definition limgrad_turns {G : Geom} (mesh : jigsaw_msh_t) (dfdx : num) (n : nat)
    : result (list num * list nat * nat) :=
  tri <- mesh_to_tri mesh ;;
  elen <- edge_lengths (map coord (vert2 mesh)) (edges tri) ;;
  mn <- np.min (value mesh) ;;
  limgrad_loop n 1 (append_geom [] (map row_list (triangles tri))) elen dfdx
    (nmul mn sqrt_eps) (value mesh, repeat 0 (length (value mesh))).

(** [L] is the length of the segment between the vertexes [a] and [b]. *)
Definition is_length (xy : list coord_t) (a b : nat) (L : num) : Prop :=
  exists p q,
    nth_error xy a = Some p /\ nth_error xy b = Some q /\
    (0 <= L)%Q /\
    (L * L == (fst p - fst q) * (fst p - fst q) + (snd p - snd q) * (snd p - snd q))%Q.

(** The gradient bound fails between [a] and [b]. *)
Definition exceeds_bound (xy : list coord_t) (f : list num) (dfdx tol : num)
    (a b : nat) : Prop :=
  exists L fa fb,
    is_length xy a b L /\ nth_error f a = Some fa /\ nth_error f b = Some fb /\
    (dfdx * L + tol < Qabs (fa - fb))%Q.

(** The area of the exterior ring of a region of a mesh. *)
Definition exterior_area {G : Geom} (mesh : jigsaw_msh_t) (p : polygon_t) : result num :=
  pts <- coords_of (map coord (vert2 mesh)) (map fst (exterior p)) ;;
  Polygon_area pts [].

(** Four triangles with sides 3, 4 and 5 that meet at single vertexes:
    0-1-2, 0-6-7, 6-5-7 and 5-3-4. *)
Definition chain_coords : list (Z * Z) :=
  [(0, 0); (-3, 0); (0, -4); (6, 4); (3, 8); (3, 4); (3, 0); (0, 4)]%Z.
Definition chain_rows : list (nat * nat * nat) :=
  [(0, 1, 2); (0, 6, 7); (6, 5, 7); (5, 3, 4)].
Definition chain_values : list num :=
  map inject_Z [1; 2; 3; 1000; 1001; 1002; 1003; 1004]%Z.

(** The lists of length [n] over an alphabet. *)
Fixpoint words (alphabet : list num) (n : nat) : list (list num) :=
  match n with
  | O => [[]]
  | S n' => flat_map (fun w => map (fun a => a :: w) alphabet) (words alphabet n')
  end.

(** The field is returned with vertex 3 still at 1000 and vertex 5 at
    11 at most. *)
Definition stuck_at_frontier (r : result (list num)) : bool :=
  match r with
  | Ok f =>
      match nth_error f 3, nth_error f 5 with
      | Some z, Some y => Qeq_bool z 1000%Q && nle y 11%Q
      | _, _ => false
      end
  | Raise _ => false
  end.

(** The two holes of the pinched grid are chained into one ring that
    passes twice through the vertex 12. *)
Definition pinched_grid_inner : list (list ring_t) :=
  [[[(13, 8); (8, 7); (7, 12); (12, 11); (11, 16); (16, 17); (17, 12); (12, 13)]]].

(** The boundary rings and the one region of the square ring. *)
Definition square_ring_rings : list ring_t :=
  [[(4, 7); (7, 6); (6, 5); (5, 4)]; [(3, 0); (0, 1); (1, 2); (2, 3)]].
Definition square_ring_regions : list polygon_t :=
  [mk_polygon [(3, 0); (0, 1); (1, 2); (2, 3)] [[(4, 7); (7, 6); (6, 5); (5, 4)]]].

(** The position a vertex index takes once the unused positions
    [tria3_idxs] are closed, and a triangle row renumbered. *)
Definition new_index (tria3_idxs : list nat) (x : nat) : nat :=
  fold_left (fun v idx => if idx <=? v then v - 1 else v) (rev tria3_idxs) x.
Definition renumber_row (tria3_idxs : list nat) (row : nat * nat * nat)
    : nat * nat * nat :=
  let '(a, b, c) := row in
  (new_index tria3_idxs a, new_index tria3_idxs b, new_index tria3_idxs c).

(** The positions of the vertex array that no triangle references. *)
Definition unused_vertices (mesh : jigsaw_msh_t) : list nat :=
  np.where_ (np.invert (np.isin (np.arange (length (vert2 mesh)))
                                (np.unique (flatten3 (map index (tria3 mesh)))))).

(** A triangle none of whose vertexes is marked in the mask. *)
Definition unmarked (mask : list bool) (t : tria3_t) : bool :=
  negb (existsb (fun v => nth v mask false) (row_list (index t))).

(** The edges of a ring follow one another head to tail. *)
Fixpoint is_chain (r : ring_t) : Prop :=
  match r with
  | a :: ((b :: _) as r') => snd a = fst b /\ is_chain r'
  | _ => True
  end.

(** An edge without its direction. *)
Definition unordered (e : edge_t) : edge_t :=
  (Nat.min (fst e) (snd e), Nat.max (fst e) (snd e)).

(** What the loop of [sort_edges] keeps true of its variables: the two
    columns [e0], [e1] are those of the remaining edges, the open
    chain is not empty and chains, so do the closed rings, and the
    edges of the rings, of the chain and of the remaining list are,
    direction apart, the edges that were passed in. *)
Record chain_inv (input : list edge_t) (st : chain_state) : Prop := mk_chain_inv {
  inv_e0 : st_e0 st = map fst (st_edges st);
  inv_e1 : st_e1 st = map snd (st_edges st);
  inv_ordered : st_ordered_edges st <> [];
  inv_chain : is_chain (st_ordered_edges st);
  inv_rings : Forall (fun r => r <> [] /\ is_chain r) (st_edge_collection st);
  inv_edges :
    Permutation
      (map unordered (concat (st_edge_collection st) ++ st_ordered_edges st ++ st_edges st))
      (map unordered input)
}.

(** Every vertex index of every triangle is a position of the vertex
    array. *)
Definition indices_in_range (mesh : jigsaw_msh_t) : Prop :=
  forall t v, In t (tria3 mesh) -> references t v -> v < length (vert2 mesh).

(** The vertex records and the scalar values at the three corners of a
    triangle. *)
Definition corner_verts (mesh : jigsaw_msh_t) (t : tria3_t) : list (option vert2_t) :=
  map (nth_error (vert2 mesh)) (row_list (index t)).
Definition corner_values (mesh : jigsaw_msh_t) (t : tria3_t) : list (option num) :=
  map (nth_error (value mesh)) (row_list (index t)).

(** Two meshes with the same coordinates and the same triangle rows. *)
Definition same_geometry (m1 m2 : jigsaw_msh_t) : Prop :=
  map coord (vert2 m1) = map coord (vert2 m2) /\
  map index (tria3 m1) = map index (tria3 m2).

(** The area of a ring as [index_ring_collection] computes it:
    [float(Polygon(vertices[e0, :]).area)]. *)
Definition ring_area {G : Geom} (vertices : list coord_t) (r : ring_t) : result num :=
  '(e0, _) <- unzip r ;;
  pts <- coords_of vertices e0 ;;
  Polygon_area pts [].

(** Both rings have an area, and that of [r] is at most that of [big]. *)
Definition no_larger {G : Geom} (vertices : list coord_t) (r big : ring_t) : Prop :=
  exists a b, ring_area vertices r = Ok a /\ ring_area vertices big = Ok b /\ (a <= b)%Q.

(** The exterior of every region is no smaller than the holes of the
    region, than the rings of the regions after it and than the rings
    of [later]. *)
Fixpoint exteriors_dominate {G : Geom} (vertices : list coord_t)
    (regions : list polygon_t) (later : list ring_t) : Prop :=
  match regions with
  | [] => True
  | p :: rest =>
      (forall r, In r (interiors p ++ rings_of rest ++ later) ->
                 no_larger vertices r (exterior p)) /\
      exteriors_dominate vertices rest later
  end.

(** [j in d[i]] for a key [i] of the dictionary. *)
Definition adjacent (d : adjacency) (i j : nat) : Prop :=
  exists s, In (i, s) d /\ In j s.

(** [i] and [j] stand at two different positions of the row. *)
Definition share_row (row : list nat) (i j : nat) : Prop :=
  exists p q, p <> q /\ nth_error row p = Some i /\ nth_error row q = Some j.

(** The two regions of [with_floating_triangle] as polygons. *)
Definition with_floating_triangle_polygons : list shapely_polygon :=
  [mk_shapely [zq (0, 6)%Z; zq (0, 0)%Z; zq (6, 0)%Z] [];
   mk_shapely [zq (20, 2)%Z; zq (20, 0)%Z; zq (22, 0)%Z] []].

(** Two triangles and a quadrilateral; the kind is written with
    capitals and the first triangle has the tag of the quadrilateral. *)
Definition mixed_mesh : jigsaw_msh_t :=
  mk_mesh "Euclidean-Mesh"
    (map (fun c => mk_vert2 (zq c) 0) [(0, 0); (1, 0); (1, 1); (0, 1); (2, 0); (2, 1)]%Z)
    [mk_tria3 (0, 1, 2) 7; mk_tria3 (0, 2, 3) 8] [mk_elem [1; 4; 5; 2] 7] [] [].

(** Every index of every element row is a position of the vertex array. *)
Definition rows_in_range (mesh : jigsaw_msh_t) : Prop :=
  forall row v, In row (element_rows mesh) -> In v row -> v < length (vert2 mesh).

(** The keys and the members of the dictionary are below [n]. *)
Definition bounded (n : nat) (d : adjacency) : Prop :=
  forall k s, In (k, s) d -> k < n /\ forall j, In j s -> j < n.

(** The polygon of a region: the coordinates of the start vertexes of
    the edges of its rings. *)
Definition polygon_of (vertices : list coord_t) (p : polygon_t) (poly : shapely_polygon)
    : Prop :=
  coords_of vertices (map fst (exterior p)) = Ok (shell poly) /\
  Forall2 (fun r h => coords_of vertices (map fst r) = Ok h) (interiors p) (holes poly).

(** The region [i] is selected for removal: its polygon area is at
    most the threshold when a threshold is given, and strictly below
    the polygon area of another region when it is not. *)
Definition selected {G : Geom} (mp : list shapely_polygon) (area : option num) (i : nat)
    : Prop :=
  exists p a,
    nth_error mp i = Some p /\ polygon_area p = Ok a /\
    match area with
    | Some t => (a <= t)%Q
    | None => exists q b, In q mp /\ polygon_area q = Ok b /\ (a < b)%Q
    end.

(** The vertex [v] lies inside the exterior ring of a selected region. *)
Definition inside_selected {G : Geom} (mesh : jigsaw_msh_t) (mp : list shapely_polygon)
    (area : option num) (v : nat) : Prop :=
  exists i p x,
    selected mp area i /\ nth_error mp i = Some p /\
    nth_error (vert2 mesh) v = Some x /\
    Path_contains_point (exterior_coords p) (coord x) = true.

(** [u] and [v] stand at two different positions of one element row. *)
Definition neighbour (mesh : jigsaw_msh_t) (u v : nat) : Prop :=
  exists row, In row (element_rows mesh) /\ share_row row u v.

(** [v] has a neighbour, and two vertexes at most are its neighbours. *)
Definition few_neighbours (mesh : jigsaw_msh_t) (v : nat) : Prop :=
  (exists j, neighbour mesh v j) /\
  exists a b, forall j, neighbour mesh v j -> j = a \/ j = b.

(** The vertexes whose triangles [sieve] is to remove: the vertexes
    inside a selected region, their neighbours, and the vertexes with
    one or two neighbours. *)
Definition marked {G : Geom} (mesh : jigsaw_msh_t) (mp : list shapely_polygon)
    (area : option num) (v : nat) : Prop :=
  inside_selected mesh mp area v \/
  (exists u, inside_selected mesh mp area u /\ neighbour mesh u v) \/
  few_neighbours mesh v.

(** A list of integers in strictly ascending order. *)
Fixpoint ascending (l : list nat) : Prop :=
  match l with
  | a :: ((b :: _) as l') => a < b /\ ascending l'
  | _ => True
  end.

(** Every set of the dictionary is in ascending order and has a member. *)
Definition sets_ok (d : adjacency) : Prop :=
  forall k s, In (k, s) d -> ascending s /\ s <> [].

(** What the loop over the marked vertexes keeps true of the
    dictionary: the entries of [d] stay, and an entry that is added
    has the empty set and a marked key. *)
Definition grown_from (mask0 : list bool) (d dc : adjacency) : Prop :=
  NoDup (map fst dc) /\
  (forall k s, In (k, s) d -> In (k, s) dc) /\
  (forall k s, In (k, s) dc -> In (k, s) d \/ (s = [] /\ nth k mask0 false = true)).

(** * Properties *)

(** ** The primitives on small inputs *)

Example permutations2_of_a_triangle :
  py.permutations2 [7; 8; 9] = [(7, 8); (7, 9); (8, 7); (8, 9); (9, 7); (9, 8)].
Proof. reflexivity. Qed.

Example unique_counts_example :
  np.unique_counts [5; 3; 5; 1; 3; 5] = ([1; 3; 5], [1; 2; 3]).
Proof. reflexivity. Qed.

Example renumber_example : renumber [1; 4] [0; 2; 3; 5; 6] = [0; 1; 2; 3; 4].
Proof. reflexivity. Qed.

Example argsort_example : argsort [3%Q; 1%Q; 2%Q; 1%Q] = [1; 3; 2; 0].
Proof. reflexivity. Qed.

Example sort_edges_two_loops :
  sort_edges [(0, 1); (5, 6); (1, 2); (6, 7); (2, 0); (7, 5)]
  = Ok [[(7, 5); (5, 6); (6, 7)]; [(2, 0); (0, 1); (1, 2)]].
Proof. reflexivity. Qed.

Example sort_edges_single_edge : sort_edges [(0, 1)] = Raise ValueError.
Proof. reflexivity. Qed.

Example square_ring_is_one_region_with_one_hole :
  index_ring_collection (G := exact_geom) square_ring
  = Ok [mk_polygon [(3, 0); (0, 1); (1, 2); (2, 3)] [[(4, 7); (7, 6); (6, 5); (5, 4)]]] /\
  has_pinched_nodes (G := exact_geom) square_ring = Ok false.
Proof. split; vm_compute; reflexivity. Qed.

Example pinched_grid_has_pinched_nodes :
  has_pinched_nodes (G := exact_geom) pinched_grid = Ok true /\
  repeated_nodes (all_nodes pinched_grid_inner) = [12].
Proof. split; vm_compute; reflexivity. Qed.

(** ** The error monad *)

Lemma bind_ok {A B : Type} (c : result A) (k : A -> result B) (r : B) :
  bind c k = Ok r -> exists a, c = Ok a /\ k a = Ok r.
Proof.
  destruct c as [a | e]; simpl; intros H.
  - exists a. split; [reflexivity | exact H].
  - discriminate H.
Qed.

Ltac inv_bind H :=
  let a := fresh "a" in
  let Ha := fresh "E" in
  apply bind_ok in H; destruct H as (a & Ha & H).

Lemma mapM_length {A B : Type} (f : A -> result B) (l : list A) (r : list B) :
  mapM f l = Ok r -> length r = length l.
Proof.
  revert r. induction l as [| x l IH]; simpl; intros r H.
  - injection H as <-. reflexivity.
  - inv_bind H. inv_bind H. injection H as <-. simpl. f_equal. now apply IH.
Qed.

Lemma mapM_ok {A B : Type} (f : A -> result B) (l : list A) :
  Forall (fun x => exists y, f x = Ok y) l -> exists r, mapM f l = Ok r.
Proof.
  induction 1 as [| x l [y Hy] _ [r Hr]]; simpl.
  - now exists [].
  - exists (y :: r). now rewrite Hy, Hr.
Qed.

(** ** numpy primitives *)

Lemma where_from_bound (mask : list bool) (k i : nat) :
  In i (np.where_from k mask) -> k <= i < k + length mask.
Proof.
  revert k. induction mask as [| b mask IH]; simpl; intros k H; [contradiction |].
  destruct b.
  - destruct H as [<- | H]; [lia |]. apply IH in H. lia.
  - apply IH in H. lia.
Qed.

Lemma where_bound (mask : list bool) (i : nat) :
  In i (np.where_ mask) -> i < length mask.
Proof. intros H. apply where_from_bound in H. lia. Qed.

Lemma take_length {A : Type} (a : list A) (idxs : list nat) (r : list A) :
  np.take a idxs = Ok r -> length r = length idxs.
Proof. apply mapM_length. Qed.

Lemma take_ok {A : Type} (a : list A) (idxs : list nat) :
  (forall i, In i idxs -> i < length a) -> exists r, np.take a idxs = Ok r.
Proof.
  intros H. apply mapM_ok. apply Forall_forall. intros i Hi.
  unfold np.getitem. destruct (nth_error a i) as [x |] eqn:E.
  - now exists x.
  - apply nth_error_None in E. apply H in Hi. lia.
Qed.

Lemma isin_length (a b : list nat) : length (np.isin a b) = length a.
Proof. apply length_map. Qed.

Lemma used_vertices_bound (mesh : jigsaw_msh_t) (i : nat) :
  In i (used_vertices mesh) -> i < length (vert2 mesh).
Proof.
  intros H. apply where_bound in H.
  now rewrite isin_length in H; unfold np.arange in H; rewrite length_seq in H.
Qed.

(** ** The scalar field stays aligned with the vertex array *)

Lemma compact_aligned (mesh : jigsaw_msh_t) (vs : list vert2_t) (fs : list num) :
  scalar_aligned mesh ->
  np.take (vert2 mesh) (used_vertices mesh) = Ok vs ->
  (if 0 <? length (value mesh)
   then np.take (value mesh) (used_vertices mesh) else Ok (value mesh)) = Ok fs ->
  length fs = length vs.
Proof.
  unfold scalar_aligned. intros Hal Hv Hf.
  apply take_length in Hv.
  destruct (0 <? length (value mesh)) eqn:E.
  - apply take_length in Hf. congruence.
  - apply Nat.ltb_ge in E. injection Hf as <-.
    assert (Hn : length (vert2 mesh) = 0) by lia.
    rewrite Hv. unfold used_vertices. rewrite Hn. simpl. lia.
Qed.

Lemma cleanup_isolates_aligned (mesh m' : jigsaw_msh_t) :
  scalar_aligned mesh -> cleanup_isolates mesh = Ok m' -> scalar_aligned m'.
Proof.
  intros Hal H. unfold cleanup_isolates in H.
  inv_bind H. inv_bind H. injection H as <-.
  unfold scalar_aligned. simpl. now apply (compact_aligned mesh).
Qed.

Lemma cleanup_isolates_returns (mesh : jigsaw_msh_t) :
  scalar_aligned mesh -> exists m', cleanup_isolates mesh = Ok m'.
Proof.
  intros Hal. unfold cleanup_isolates.
  destruct (take_ok (vert2 mesh) (used_vertices mesh) (used_vertices_bound mesh))
    as [vs Hvs].
  fold (used_vertices mesh). rewrite Hvs. simpl.
  destruct (0 <? length (value mesh)).
  - destruct (take_ok (value mesh) (used_vertices mesh)) as [fs Hfs].
    { intros i Hi. apply used_vertices_bound in Hi. unfold scalar_aligned in Hal. lia. }
    rewrite Hfs. simpl. eauto.
  - simpl. eauto.
Qed.

Lemma put_IDtags_aligned (mesh : jigsaw_msh_t) :
  scalar_aligned mesh -> scalar_aligned (put_IDtags mesh).
Proof.
  unfold scalar_aligned, put_IDtags, enumerate. simpl. intros H.
  rewrite length_map, length_combine, length_seq. lia.
Qed.

Section AlignedRepair.

Context {G : Geom}.

Lemma sieve_aligned (mesh m' : jigsaw_msh_t) (area : option num) :
  scalar_aligned mesh -> sieve mesh area = Ok m' -> scalar_aligned m'.
Proof.
  intros Hal H. unfold sieve in H.
  inv_bind H. inv_bind H. inv_bind H. inv_bind H. inv_bind H. injection H as <-.
  unfold scalar_aligned. simpl. now apply (compact_aligned mesh).
Qed.

Lemma cleanup_pinched_nodes_aligned (mesh m' : jigsaw_msh_t) :
  scalar_aligned mesh -> cleanup_pinched_nodes mesh = Ok m' -> scalar_aligned m'.
Proof.
  intros Hal H. unfold cleanup_pinched_nodes in H.
  inv_bind H. inv_bind H. injection H as <-. exact Hal.
Qed.

Lemma finalize_loop_aligned (fuel : nat) (mesh m' : jigsaw_msh_t) (area : option num) :
  scalar_aligned mesh -> finalize_loop fuel mesh area = Ok m' -> scalar_aligned m'.
Proof.
  revert mesh. induction fuel as [| fuel IH]; simpl; intros mesh Hal H; [discriminate |].
  inv_bind H. destruct a.
  - inv_bind H. inv_bind H.
    eapply IH; [| exact H].
    eapply sieve_aligned; [| eassumption].
    eapply cleanup_pinched_nodes_aligned; eassumption.
  - injection H as <-. exact Hal.
Qed.

Lemma finalize_mesh_aligned (fuel : nat) (mesh m' : jigsaw_msh_t) (area : option num) :
  scalar_aligned mesh -> finalize_mesh fuel mesh area = Ok m' -> scalar_aligned m'.
Proof.
  intros Hal H. unfold finalize_mesh in H.
  inv_bind H. inv_bind H. injection H as <-.
  apply put_IDtags_aligned.
  eapply finalize_loop_aligned; [| eassumption].
  eapply cleanup_isolates_aligned; eassumption.
Qed.

End AlignedRepair.

(** ** Pinch repair *)

Lemma take_where_from {A : Type} (l pre : list A) (mask : list bool) :
  length mask = length l ->
  mapM (np.getitem (pre ++ l)) (np.where_from (length pre) mask)
  = Ok (np.compress l mask).
Proof.
  revert pre mask. induction l as [| x l IH]; intros pre [| b mask] Hlen;
    simpl in Hlen; try discriminate; [reflexivity |].
  injection Hlen as Hlen.
  assert (Hnext : mapM (np.getitem (pre ++ x :: l)) (np.where_from (S (length pre)) mask)
                  = Ok (np.compress l mask)).
  { specialize (IH (pre ++ [x]) mask Hlen).
    rewrite <- app_assoc in IH. simpl in IH.
    rewrite length_app in IH. simpl in IH. rewrite Nat.add_1_r in IH. exact IH. }
  simpl. destruct b; [| exact Hnext].
  simpl. unfold np.getitem at 1.
  rewrite nth_error_app2 by lia. rewrite Nat.sub_diag. simpl.
  now rewrite Hnext.
Qed.

Lemma take_where {A : Type} (l : list A) (mask : list bool) :
  length mask = length l -> np.take l (np.where_ mask) = Ok (np.compress l mask).
Proof. intros H. exact (take_where_from l [] mask H). Qed.

Lemma compress_map_filter {A : Type} (f : A -> bool) (l : list A) :
  np.compress l (map f l) = filter f l.
Proof.
  induction l as [| x l IH]; simpl; [reflexivity |].
  destruct (f x); now rewrite IH.
Qed.

Lemma existsb_id_map {A : Type} (g : A -> bool) (l : list A) :
  existsb (fun b => b) (map g l) = existsb g l.
Proof. induction l as [| x l IH]; simpl; [reflexivity | now rewrite IH]. Qed.

Lemma mem_In (x : nat) (l : list nat) : np.mem x l = true <-> In x l.
Proof.
  unfold np.mem. rewrite existsb_exists. split.
  - intros (y & Hy & E). apply Nat.eqb_eq in E. now subst.
  - intros H. exists x. split; [exact H | apply Nat.eqb_refl].
Qed.

Lemma insert_unique_In (x y : nat) (l : list nat) :
  In y (np.insert_unique x l) <-> y = x \/ In y l.
Proof.
  induction l as [| z l IH]; simpl.
  - intuition.
  - destruct (x <? z) eqn:E1; simpl; [intuition |].
    destruct (x =? z) eqn:E2; simpl.
    + apply Nat.eqb_eq in E2. subst. intuition.
    + rewrite IH. intuition.
Qed.

Lemma unique_In (y : nat) (a : list nat) : In y (np.unique a) <-> In y a.
Proof.
  unfold np.unique. induction a as [| x a IH]; simpl; [reflexivity |].
  rewrite insert_unique_In, IH. intuition.
Qed.

Lemma repeated_nodes_In (nodes : list nat) (v : nat) :
  In v (repeated_nodes nodes) <-> 1 < count_occ Nat.eq_dec nodes v.
Proof.
  unfold repeated_nodes, np.unique_counts, np.count.
  rewrite map_map, compress_map_filter, filter_In, unique_In, Nat.ltb_lt.
  split; [tauto |]. intros H. split; [| exact H].
  apply (count_occ_In Nat.eq_dec). lia.
Qed.

Lemma mem_repeated_nodes (nodes : list nat) (v : nat) :
  np.mem v (repeated_nodes nodes) = (1 <? count_occ Nat.eq_dec nodes v).
Proof.
  apply eq_true_iff_eq. rewrite mem_In, repeated_nodes_In, Nat.ltb_lt. reflexivity.
Qed.

Lemma count_occ_flat_map {A : Type} (f : A -> list nat) (l : list A) (v : nat) :
  count_occ Nat.eq_dec (flat_map f l) v
  = list_sum (map (fun x => count_occ Nat.eq_dec (f x) v) l).
Proof.
  induction l as [| x l IH]; simpl; [reflexivity |].
  now rewrite count_occ_app, IH.
Qed.

Lemma count_occ_starts (ring : ring_t) (v : nat) :
  count_occ Nat.eq_dec (map fst ring) v = ring_occurrences v ring.
Proof.
  unfold ring_occurrences. induction ring as [| e ring IH]; simpl; [reflexivity |].
  destruct (Nat.eq_dec (fst e) v) as [-> | Hne].
  - rewrite Nat.eqb_refl. simpl. now rewrite IH.
  - apply Nat.eqb_neq in Hne. now rewrite Hne.
Qed.

(** The node list that the code collects holds every vertex as often
    as it occurs in the hole rings. *)
Lemma all_nodes_occurrences (inner : list (list ring_t)) (v : nat) :
  count_occ Nat.eq_dec (all_nodes inner) v = hole_occurrences inner v.
Proof.
  unfold all_nodes, hole_occurrences. rewrite count_occ_flat_map.
  f_equal. apply map_ext. intros rings. rewrite count_occ_flat_map.
  f_equal. apply map_ext. intros ring. apply count_occ_starts.
Qed.

(** The vertexes that the code finds repeated are the pinched nodes. *)
Lemma repeated_nodes_pinched (inner : list (list ring_t)) (v : nat) :
  In v (repeated_nodes (all_nodes inner)) <-> pinched_node inner v.
Proof. unfold pinched_node. now rewrite repeated_nodes_In, all_nodes_occurrences. Qed.

Lemma touches_pinched_spec (inner : list (list ring_t)) (t : tria3_t) :
  touches_pinched inner t = false <->
  forall v, references t v -> ~ pinched_node inner v.
Proof.
  unfold touches_pinched, references, pinched_node.
  rewrite <- not_true_iff_false, existsb_exists. split.
  - intros H v Hv Hp. apply H. exists v. split; [exact Hv | now apply Nat.ltb_lt].
  - intros H (v & Hv & Hp). apply Nat.ltb_lt in Hp. exact (H v Hv Hp).
Qed.

Lemma kept_rows (l : list tria3_t) (pinched : list nat) :
  np.invert (any_isin (map index l) pinched)
  = map (fun t => negb (existsb (fun v => np.mem v pinched) (row_list (index t)))) l.
Proof.
  unfold np.invert, any_isin, np.isin. rewrite !map_map.
  apply map_ext. intros t. now rewrite existsb_id_map.
Qed.

Section PinchRepair.

Context {G : Geom}.

Lemma cleanup_pinched_nodes_filter (mesh : jigsaw_msh_t) (inner : list (list ring_t)) :
  inner_ring_collection mesh = Ok inner ->
  cleanup_pinched_nodes mesh
  = Ok (set_tria3 mesh (filter (fun t => negb (touches_pinched inner t)) (tria3 mesh))).
Proof.
  intros Hin. unfold cleanup_pinched_nodes. rewrite Hin. simpl.
  rewrite kept_rows, take_where by now rewrite length_map.
  simpl. rewrite compress_map_filter. do 2 f_equal.
  apply filter_ext. intros t. unfold touches_pinched. f_equal.
  induction (row_list (index t)) as [| v r IH]; simpl; [reflexivity |].
  now rewrite mem_repeated_nodes, all_nodes_occurrences, IH.
Qed.

(** C7.  [cleanup_pinched_nodes] removes exactly the triangles that
    reference a pinched node (a vertex with more than one occurrence
    in the hole rings of all the regions, counted on the rings) and
    keeps every other triangle, in the original relative order: the
    new triangle table is the old one filtered by "references no
    pinched node". *)
Theorem cleanup_pinched_nodes_removes_exactly
    (mesh : jigsaw_msh_t) (inner : list (list ring_t)) :
  inner_ring_collection mesh = Ok inner ->
  exists m',
    cleanup_pinched_nodes mesh = Ok m' /\
    tria3 m' = filter (fun t => negb (touches_pinched inner t)) (tria3 mesh) /\
    (forall t, In t (tria3 m') <->
               In t (tria3 mesh) /\ forall v, references t v -> ~ pinched_node inner v).
Proof.
  intros Hin.
  exists (set_tria3 mesh (filter (fun t => negb (touches_pinched inner t)) (tria3 mesh))).
  split; [exact (cleanup_pinched_nodes_filter mesh inner Hin) |].
  split; [reflexivity |].
  intros t. simpl. rewrite filter_In, negb_true_iff, touches_pinched_spec. reflexivity.
Qed.

(** C10.  [cleanup_pinched_nodes] changes the triangle table only: the
    vertex array, the scalar values and the other element tables are
    untouched, the surviving triangles are rows of the old table with
    their vertex indexes as they were (no renumbering), and so every
    vertex position of the mesh, referenced or not, is still there. *)
Theorem cleanup_pinched_nodes_frame (mesh m' : jigsaw_msh_t) :
  cleanup_pinched_nodes mesh = Ok m' ->
  vert2 m' = vert2 mesh /\ value m' = value mesh /\
  quad4 m' = quad4 mesh /\ hexa8 m' = hexa8 mesh /\ mshID m' = mshID mesh /\
  (exists keep, length keep = length (tria3 mesh) /\
                tria3 m' = np.compress (tria3 mesh) keep) /\
  (forall v, nth_error (vert2 m') v = nth_error (vert2 mesh) v).
Proof.
  intros H. unfold cleanup_pinched_nodes in H.
  inv_bind H. inv_bind H. injection H as <-. simpl.
  repeat split; try reflexivity.
  eexists. split; [| rewrite take_where in E0; [injection E0 as <-; reflexivity |]].
  - unfold np.invert, any_isin. now rewrite !length_map.
  - unfold np.invert, any_isin. now rewrite !length_map.
Qed.

(** C9.  On a mesh that carries a scalar field as long as the vertex
    array, [cleanup_isolates] returns a mesh, and the meshes returned
    by [cleanup_isolates], [sieve], [cleanup_pinched_nodes] and
    [finalize_mesh] carry a scalar field as long as their vertex array. *)
Theorem scalar_field_stays_aligned (mesh : jigsaw_msh_t) :
  value mesh <> [] -> scalar_aligned mesh ->
  (exists m', cleanup_isolates mesh = Ok m' /\ scalar_aligned m') /\
  (forall area m', sieve mesh area = Ok m' -> scalar_aligned m') /\
  (forall m', cleanup_pinched_nodes mesh = Ok m' -> scalar_aligned m') /\
  (forall fuel area m', finalize_mesh fuel mesh area = Ok m' -> scalar_aligned m').
Proof.
  intros _ Hal. repeat split.
  - destruct (cleanup_isolates_returns mesh Hal) as [m' Hm'].
    exists m'. split; [exact Hm' | now apply (cleanup_isolates_aligned mesh)].
  - intros area m'. now apply sieve_aligned.
  - intros m'. now apply cleanup_pinched_nodes_aligned.
  - intros fuel area m'. now apply finalize_mesh_aligned.
Qed.

End PinchRepair.

(** ** The loops never exhaust their bound *)

Lemma fuel_free_ok {A : Type} (a : A) : fuel_free (Ok a).
Proof. discriminate. Qed.

Lemma fuel_free_bind {A B : Type} (c : result A) (k : A -> result B) :
  fuel_free c -> (forall a, c = Ok a -> fuel_free (k a)) -> fuel_free (bind c k).
Proof.
  intros Hc Hk. destruct c as [a | e]; simpl.
  - now apply Hk.
  - intros H. apply Hc. injection H as ->. reflexivity.
Qed.

Lemma fuel_free_of_option {A : Type} (e : error) (o : option A) :
  e <> OutOfFuel -> fuel_free (of_option e o).
Proof. intros He. destruct o; simpl; [discriminate | congruence]. Qed.

Lemma fuel_free_getitem {A : Type} (a : list A) (i : nat) : fuel_free (np.getitem a i).
Proof. apply fuel_free_of_option. discriminate. Qed.

Lemma fuel_free_mapM {A B : Type} (f : A -> result B) (l : list A) :
  (forall x, fuel_free (f x)) -> fuel_free (mapM f l).
Proof.
  intros Hf. induction l as [| x l IH]; simpl; [apply fuel_free_ok |].
  apply fuel_free_bind; [apply Hf | intros y _].
  apply fuel_free_bind; [exact IH | intros ys _]. apply fuel_free_ok.
Qed.

Lemma fuel_free_take {A : Type} (a : list A) (idxs : list nat) : fuel_free (np.take a idxs).
Proof. apply fuel_free_mapM. intros i. apply fuel_free_getitem. Qed.

Lemma fuel_free_pop {A : Type} (l : list A) (i : nat) : fuel_free (py.pop l i).
Proof.
  revert i. induction l as [| x l IH]; intros [| i]; simpl; try discriminate.
  apply fuel_free_bind; [apply IH | intros [y r] _; apply fuel_free_ok].
Qed.

Lemma fuel_free_pop_last {A : Type} (l : list A) : fuel_free (py.pop_last l).
Proof. destruct l; [discriminate | apply fuel_free_pop]. Qed.

Lemma fuel_free_pop_idx {A : Type} (l : list A) (idx : option nat) :
  fuel_free (pop_idx l idx).
Proof. destruct idx; [apply fuel_free_pop | apply fuel_free_pop_last]. Qed.

Lemma fuel_free_index {A : Type} (eqb : A -> A -> bool) (x : A) (l : list A) :
  fuel_free (py.index eqb x l).
Proof.
  unfold py.index. generalize 0.
  induction l as [| y l IH]; intros n; simpl; [discriminate |].
  destruct (eqb y x); [apply fuel_free_ok | apply IH].
Qed.

Lemma fuel_free_max (a : list num) : fuel_free (np.max a).
Proof. destruct a; [discriminate | apply fuel_free_ok]. Qed.

Lemma fuel_free_unzip (es : list edge_t) : fuel_free (unzip es).
Proof. destruct es; [discriminate | apply fuel_free_ok]. Qed.

Lemma fuel_free_fold {A B : Type} (f : result A -> B -> result A) (l : list B)
    (init : result A) :
  fuel_free init -> (forall acc x, fuel_free acc -> fuel_free (f acc x)) ->
  fuel_free (fold_left f l init).
Proof.
  intros Hi Hf. revert init Hi. induction l as [| x l IH]; simpl; intros init Hi.
  - exact Hi.
  - apply IH. now apply Hf.
Qed.

Create HintDb fuel.

#[local] Hint Resolve fuel_free_ok fuel_free_getitem fuel_free_take fuel_free_pop
  fuel_free_pop_last fuel_free_pop_idx fuel_free_index fuel_free_max
  fuel_free_unzip : fuel.

Ltac fuel_step :=
  first
    [ solve [auto with fuel]
    | apply fuel_free_bind; [| intros ? ?]
    | apply fuel_free_of_option; discriminate
    | match goal with
      | |- fuel_free (match ?x with _ => _ end) => destruct x
      | |- fuel_free (let '_ := ?x in _) => destruct x
      end ].
Ltac fuel_tac := repeat fuel_step.

(** *** sort_edges *)

Lemma pop_shrinks {A : Type} (l r : list A) (i : nat) (x : A) :
  py.pop l i = Ok (x, r) -> length l = S (length r).
Proof.
  revert i r x. induction l as [| y l IH]; intros [| i] r x H; simpl in H;
    try discriminate.
  - injection H as _ <-. reflexivity.
  - inv_bind H. destruct a as [z r']. injection H as _ <-.
    simpl. f_equal. eapply IH. exact E.
Qed.

Lemma pop_last_shrinks {A : Type} (l r : list A) (x : A) :
  py.pop_last l = Ok (x, r) -> length l = S (length r).
Proof. destruct l; [discriminate | apply pop_shrinks]. Qed.

Lemma sort_edges_step_shrinks (st st' : chain_state) :
  sort_edges_step st = Ok st' -> length (st_edges st) = S (length (st_edges st')).
Proof.
  unfold sort_edges_step. intros H.
  inv_bind H. inv_bind H. inv_bind H.
  destruct a1 as [[[idx ordered] collection] edges'].
  inv_bind H. destruct a1 as [? e0']. inv_bind H. destruct a1 as [? e1'].
  injection H as <-. simpl.
  repeat match type of E1 with
         | (if ?b then _ else _) = _ => destruct b
         end;
    try (inv_bind E1); try (inv_bind E1);
    repeat match goal with
           | p : (_ * _)%type |- _ => destruct p
           end;
    injection E1 as _ _ _ <-;
    first [eapply pop_shrinks; eassumption | eapply pop_last_shrinks; eassumption].
Qed.

Lemma fuel_free_sort_edges_step (st : chain_state) : fuel_free (sort_edges_step st).
Proof. unfold sort_edges_step. fuel_tac. Qed.

Lemma fuel_free_sort_edges_loop (fuel : nat) (st : chain_state) :
  length (st_edges st) <= fuel -> fuel_free (sort_edges_loop fuel st).
Proof.
  revert st. induction fuel as [| fuel IH]; intros st Hlen.
  - destruct st as [[| e es] ? ? ? ?]; simpl in *; [apply fuel_free_ok | lia].
  - simpl. destruct (st_edges st) eqn:E; [apply fuel_free_ok |].
    apply fuel_free_bind; [apply fuel_free_sort_edges_step | intros st' Hst'].
    apply IH. apply sort_edges_step_shrinks in Hst'. rewrite E in Hst'.
    simpl in *. lia.
Qed.

Lemma fuel_free_sort_edges (es : list edge_t) : fuel_free (sort_edges es).
Proof.
  unfold sort_edges. destruct es as [| e es]; [apply fuel_free_ok |].
  apply fuel_free_bind; [apply fuel_free_pop_last | intros [x rest] _].
  apply fuel_free_bind; [apply fuel_free_unzip | intros [e0 e1] _].
  apply fuel_free_sort_edges_loop. simpl. lia.
Qed.

(** *** The ring classification *)

Lemma rings_of_app (c d : list polygon_t) : rings_of (c ++ d) = rings_of c ++ rings_of d.
Proof. apply flat_map_app. Qed.

Lemma pop_perm {A : Type} (l r : list A) (i : nat) (x : A) :
  py.pop l i = Ok (x, r) -> Permutation l (x :: r).
Proof.
  revert i r x. induction l as [| y l IH]; intros [| i] r x H; simpl in H;
    try discriminate.
  - injection H as <- <-. reflexivity.
  - inv_bind H. destruct a as [z r']. injection H as <- <-.
    apply IH in E. rewrite E. apply perm_swap.
Qed.

Lemma pop_interiors_perm (idxs : list nat) (pool pool' : list ring_t)
    (areas areas' : list num) (ints ints' : list ring_t) :
  pop_interiors idxs pool areas ints = Ok (pool', areas', ints') ->
  Permutation (ints' ++ pool') (ints ++ pool) /\ length pool' <= length pool.
Proof.
  revert pool areas ints.
  induction idxs as [| i idxs IH]; simpl; intros pool areas ints H.
  - injection H as <- _ <-. split; [reflexivity | lia].
  - inv_bind H. destruct a as [r pool1]. inv_bind H. destruct a as [? areas1].
    apply IH in H. destruct H as [Hp Hl].
    pose proof (pop_perm _ _ _ _ E) as Hpop.
    apply pop_shrinks in E. split; [| lia].
    rewrite Hp, <- app_assoc. simpl. apply Permutation_app_head.
    symmetry. exact Hpop.
Qed.

Section Classification.

Context {G : Geom}.

Lemma fuel_free_ring_path (vs : list coord_t) (r : ring_t) : fuel_free (ring_path vs r).
Proof. unfold ring_path, coords_of. fuel_tac. Qed.

Lemma fuel_free_potential (vs path : list coord_t) (pool : list ring_t) :
  fuel_free (potential_interiors vs path pool).
Proof.
  unfold potential_interiors.
  apply fuel_free_bind; [| intros; apply fuel_free_ok].
  apply fuel_free_mapM. intros r. fuel_tac.
Qed.

Lemma fuel_free_has_parent (vs : list coord_t) (pool : list ring_t)
    (potential : list nat) (i p : nat) :
  fuel_free (has_parent vs pool potential i p).
Proof.
  unfold has_parent.
  apply fuel_free_bind; [auto with fuel | intros r _].
  apply fuel_free_bind; [apply fuel_free_mapM; intros; auto with fuel | intros check _].
  apply fuel_free_fold; [apply fuel_free_ok | intros acc x Hacc].
  apply fuel_free_bind; [exact Hacc | intros hp _].
  apply fuel_free_bind; [apply fuel_free_ring_path | intros path' _].
  unfold first_point. fuel_tac.
Qed.

Lemma fuel_free_real (vs : list coord_t) (pool : list ring_t) (potential : list nat) :
  fuel_free (real_interiors vs pool potential).
Proof.
  unfold real_interiors.
  apply fuel_free_fold; [apply fuel_free_ok | intros acc x Hacc].
  apply fuel_free_bind; [exact Hacc | intros real _].
  apply fuel_free_bind; [apply fuel_free_has_parent | intros hp _].
  apply fuel_free_ok.
Qed.

Lemma fuel_free_pop_interiors (idxs : list nat) (pool : list ring_t)
    (areas : list num) (ints : list ring_t) :
  fuel_free (pop_interiors idxs pool areas ints).
Proof.
  revert pool areas ints. induction idxs as [| i idxs IH]; simpl; intros pool areas ints.
  - apply fuel_free_ok.
  - apply fuel_free_bind; [auto with fuel | intros [r pool'] _].
    apply fuel_free_bind; [auto with fuel | intros [a areas'] _]. apply IH.
Qed.

Lemma fuel_free_argmax (areas : list num) : fuel_free (argmax areas).
Proof. unfold argmax. fuel_tac. Qed.

(** The loop of the classification ends with the pool empty or with
    an exception, never by exhaustion of its bound. *)
Lemma fuel_free_classify (fuel : nat) (vs : list coord_t) (pool : list ring_t)
    (areas : list num) (path : list coord_t) (done : list polygon_t) (cur : polygon_t) :
  length pool <= fuel -> fuel_free (classify fuel vs pool areas path done cur).
Proof.
  revert pool areas path done cur.
  induction fuel as [| fuel IH]; intros pool areas path done cur Hlen.
  - destruct pool; simpl in *; [apply fuel_free_ok | lia].
  - simpl. destruct pool as [| r0 pool0] eqn:Epool; [apply fuel_free_ok |].
    apply fuel_free_bind; [apply fuel_free_potential | intros potential _].
    apply fuel_free_bind; [apply fuel_free_real | intros real _].
    apply fuel_free_bind; [apply fuel_free_pop_interiors | intros [[pool1 areas1] ints] Hpop].
    apply pop_interiors_perm in Hpop. destruct Hpop as [_ Hl].
    destruct pool1 as [| r1 pool1'].
    + apply IH. simpl. lia.
    + apply fuel_free_bind; [apply fuel_free_argmax | intros idx _].
      apply fuel_free_bind; [auto with fuel | intros [ext pool2] Hpop2].
      apply fuel_free_bind; [auto with fuel | intros [a areas2] _].
      apply fuel_free_bind; [apply fuel_free_ring_path | intros path2 _].
      apply IH. apply pop_shrinks in Hpop2. simpl in *. lia.
Qed.

Lemma classify_perm (fuel : nat) (vs : list coord_t) (pool : list ring_t)
    (areas : list num) (path : list coord_t) (done : list polygon_t) (cur : polygon_t)
    (c : list polygon_t) :
  classify fuel vs pool areas path done cur = Ok c ->
  Permutation (rings_of c) (rings_of done ++ (exterior cur :: interiors cur) ++ pool).
Proof.
  revert pool areas path done cur.
  induction fuel as [| fuel IH]; intros pool areas path done cur H.
  - destruct pool; simpl in H; [| discriminate].
    injection H as <-. rewrite rings_of_app. simpl. now rewrite !app_nil_r.
  - simpl in H. destruct pool as [| r0 pool0] eqn:Epool.
    + injection H as <-. rewrite rings_of_app. simpl. now rewrite !app_nil_r.
    + inv_bind H. inv_bind H. inv_bind H. destruct a1 as [[pool1 areas1] ints].
      apply pop_interiors_perm in E1. destruct E1 as [Hp _].
      destruct pool1 as [| r1 pool1'].
      * apply IH in H. simpl in H. rewrite H. apply Permutation_app_head.
        rewrite app_nil_r in *. simpl. constructor. exact Hp.
      * inv_bind H. inv_bind H. destruct a2 as [ext pool2].
        inv_bind H. destruct a2 as [? areas2]. inv_bind H.
        apply IH in H. rewrite H, rings_of_app. simpl.
        rewrite <- app_assoc. apply Permutation_app_head.
        rewrite app_nil_r. simpl. constructor.
        apply pop_perm in E2.
        rewrite <- Hp. apply Permutation_app_head. symmetry. exact E2.
Qed.

Lemma classify_rings_perm (vs : list coord_t) (rings : list ring_t) (c : list polygon_t) :
  classify_rings vs rings = Ok c -> Permutation (rings_of c) rings.
Proof.
  unfold classify_rings. intros H.
  inv_bind H. inv_bind H. inv_bind H. destruct a1 as [ext pool].
  inv_bind H. destruct a1 as [? areas']. inv_bind H.
  apply classify_perm in H. simpl in H. rewrite H.
  apply pop_perm in E1. symmetry. exact E1.
Qed.

(** C8.  When [index_ring_collection] returns, the regions partition
    the boundary rings that were extracted: the exteriors and the
    interior lists together are a rearrangement of the ring list, so
    every ring is the exterior of one region or a hole of one region
    and of no other.  The chaining loop of [sort_edges] and the
    classification loop end with their pool empty (or with an
    exception), never by running out of turns. *)
Theorem index_ring_collection_partitions_rings
    (mesh : jigsaw_msh_t) (rings : list ring_t) (c : list polygon_t) :
  boundary_rings mesh = Ok rings ->
  index_ring_collection mesh = Ok c ->
  Permutation (rings_of c) rings /\
  (NoDup rings -> NoDup (rings_of c)) /\
  (forall es, fuel_free (sort_edges es)) /\
  (forall vs pool areas path done cur,
      fuel_free (classify (length pool) vs pool areas path done cur)).
Proof.
  intros Hr H. unfold index_ring_collection in H. rewrite Hr in H. simpl in H.
  apply classify_rings_perm in H.
  split; [exact H |]. split; [| split].
  - intros Hnd. eapply Permutation_NoDup; [symmetry; exact H | exact Hnd].
  - exact fuel_free_sort_edges.
  - intros. now apply fuel_free_classify.
Qed.

End Classification.

(** ** sieve *)

Lemma renumber_map (idxs : list nat) (a : list nat) :
  renumber idxs a = map (new_index idxs) a.
Proof.
  unfold renumber, new_index. revert a.
  induction (rev idxs) as [| idx l IH]; simpl; intros a.
  - now rewrite map_id.
  - rewrite IH. unfold shift_down. now rewrite map_map.
Qed.

Lemma reshape3_flatten3 (f : nat -> nat) (rows : list (nat * nat * nat)) :
  reshape3 (length rows) (map f (flatten3 rows))
  = map (fun row => let '(a, b, c) := row in (f a, f b, f c)) rows.
Proof.
  induction rows as [| [[a b] c] rows IH]; simpl; [reflexivity |].
  now rewrite IH.
Qed.

Lemma compress_map {A B : Type} (f : A -> B) (l : list A) (mask : list bool) :
  np.compress (map f l) mask = map f (np.compress l mask).
Proof.
  revert mask. induction l as [| x l IH]; intros [| b mask]; simpl; try reflexivity.
  destruct b; simpl; now rewrite IH.
Qed.

Lemma take_nth (mask : list bool) (idxs : list nat) (bs : list bool) :
  np.take mask idxs = Ok bs -> bs = map (fun v => nth v mask false) idxs.
Proof.
  revert bs. induction idxs as [| i idxs IH]; simpl; intros bs H.
  - now injection H as <-.
  - inv_bind H. inv_bind H. injection H as <-. f_equal; [| now apply IH].
    unfold np.getitem in E. destruct (nth_error mask i) eqn:En; [| discriminate].
    injection E as <-. symmetry. now apply nth_error_nth.
Qed.

Lemma tria3_mask_of_spec (mask : list bool) (l : list tria3_t) (tm : list bool) :
  tria3_mask_of mask (map index l) = Ok tm ->
  np.invert tm = map (unmarked mask) l.
Proof.
  unfold tria3_mask_of, np.invert, unmarked. revert tm.
  induction l as [| t l IH]; simpl; intros tm H.
  - now injection H as <-.
  - inv_bind H. inv_bind H. injection H as <-.
    inv_bind E. injection E as <-.
    simpl. f_equal; [| now apply IH].
    apply take_nth in E1. subst. now rewrite existsb_id_map.
Qed.

Lemma map_combine_fst {A B C : Type} (f : A * B -> C) (g : C -> A)
    (la : list A) (lb : list B) :
  (forall x, g (f x) = fst x) -> length la = length lb ->
  map g (map f (combine la lb)) = la.
Proof.
  intros Hg. revert lb. induction la as [| a la IH]; intros [| b lb] Hlen;
    simpl in *; try discriminate; [reflexivity |].
  rewrite Hg. simpl. f_equal. apply IH. lia.
Qed.

Lemma map_combine_snd {A B C : Type} (f : A * B -> C) (g : C -> B)
    (la : list A) (lb : list B) :
  (forall x, g (f x) = snd x) -> length la = length lb ->
  map g (map f (combine la lb)) = lb.
Proof.
  intros Hg. revert lb. induction la as [| a la IH]; intros [| b lb] Hlen;
    simpl in *; try discriminate; [reflexivity |].
  rewrite Hg. simpl. f_equal. apply IH. lia.
Qed.

Section SieveFacts.

Context {G : Geom}.

(** Whatever the vertex mask is, the vertex array after [sieve] holds
    the vertexes that the triangle table referenced before. *)
Lemma sieve_vert2 (mesh m' : jigsaw_msh_t) (area : option num) :
  sieve mesh area = Ok m' ->
  np.take (vert2 mesh) (used_vertices mesh) = Ok (vert2 m').
Proof.
  intros H. unfold sieve in H.
  inv_bind H. inv_bind H. inv_bind H. inv_bind H. inv_bind H. injection H as <-.
  exact E2.
Qed.

(** The triangle table after [sieve]: the triangles that reference no
    marked vertex, in their order, with their tags, every index moved
    down by the number of unused positions below it. *)
Lemma sieve_tria3 (mesh m' : jigsaw_msh_t) (area : option num) (mask : list bool) :
  sieve_vert2_mask mesh area = Ok mask ->
  sieve mesh area = Ok m' ->
  map tria3_IDtag (tria3 m') = map tria3_IDtag (filter (unmarked mask) (tria3 mesh)) /\
  map index (tria3 m')
  = map (fun t => renumber_row (unused_vertices mesh) (index t))
        (filter (unmarked mask) (tria3 mesh)).
Proof.
  intros Hmask H. unfold sieve in H. rewrite Hmask in H. cbn [bind] in H.
  inv_bind H. rename a into tm. inv_bind H. rename a into tags.
  inv_bind H. inv_bind H. injection H as <-. cbn [tria3].
  pose proof (mapM_length _ _ _ E) as Hlen. rewrite length_map in Hlen.
  apply tria3_mask_of_spec in E.
  rewrite take_where in E0
    by (unfold np.invert; now rewrite !length_map).
  injection E0 as <-.
  rewrite E, !compress_map, compress_map_filter.
  fold (unused_vertices mesh).
  rewrite renumber_map, length_map.
  rewrite <- (length_map index (filter (unmarked mask) (tria3 mesh))).
  rewrite reshape3_flatten3.
  split.
  - rewrite map_combine_snd; [reflexivity | reflexivity | now rewrite !length_map].
  - rewrite map_combine_fst; [| reflexivity | now rewrite !length_map].
    rewrite map_map. apply map_ext. intros t. unfold renumber_row.
    now destruct (index t) as [[x y] z].
Qed.

(** The loop of [finalize_mesh] is not entered when [needs_sieve] with
    its default threshold and [has_pinched_nodes] are false, whatever
    the caller's threshold. *)
Lemma finalize_loop_skips (fuel : nat) (mesh : jigsaw_msh_t) (sieve_area : option num) :
  repair_needed mesh = Ok false ->
  finalize_loop (S fuel) mesh sieve_area = Ok mesh.
Proof. intros H. simpl. now rewrite H. Qed.

End SieveFacts.

(** C1.  On the square of eight triangles with a floating triangle
    and no threshold, [sieve] marks the vertexes 9, 10 and 11 of the
    floating triangle and removes that triangle, the eight triangles of
    the square stay as they are, and the three marked vertexes and
    their scalar values are still in the mesh it returns. *)
Theorem sieve_keeps_marked_vertices :
  sieve_vert2_mask (G := exact_geom) square_with_floating_triangle None
  = Ok [false; false; false; false; false; false; false; false; false;
        true; true; true] /\
  exists m',
    sieve (G := exact_geom) square_with_floating_triangle None = Ok m' /\
    map index (tria3 m') = square_rows /\
    vert2 m' = vert2 square_with_floating_triangle /\
    value m' = value square_with_floating_triangle /\
    length (vert2 m') = 12.
Proof.
  split; [vm_compute; reflexivity |].
  eexists. split; [vm_compute; reflexivity |].
  repeat split; vm_compute; reflexivity.
Qed.

(** C3.  On the split triangle (one region of area 18, no pinched
    node) with the threshold 100, [needs_sieve] against the threshold
    is true, yet the condition of the loop of [finalize_mesh] is false
    and the mesh is returned with new tags only: the loop tests
    [needs_sieve] without the caller's threshold. *)
Theorem finalize_mesh_ignores_threshold :
  needs_sieve (G := exact_geom) split_triangle (Some 100%Q) = Ok true /\
  needs_sieve (G := exact_geom) split_triangle None = Ok false /\
  has_pinched_nodes (G := exact_geom) split_triangle = Ok false /\
  forall fuel,
    finalize_mesh (G := exact_geom) (S fuel) split_triangle (Some 100%Q)
    = Ok (put_IDtags split_triangle).
Proof.
  do 3 (split; [vm_compute; reflexivity |]).
  intros fuel. unfold finalize_mesh.
  replace (cleanup_isolates split_triangle) with (Ok split_triangle)
    by (vm_compute; reflexivity).
  cbn [bind]. rewrite finalize_loop_skips by (vm_compute; reflexivity).
  reflexivity.
Qed.

(** C6.  When the triangulation has no boundary edge, [sort_edges]
    returns the empty list of rings, and [index_ring_collection] then
    raises [ValueError] at the maximum of the empty list of areas. *)
Theorem index_ring_collection_raises_without_boundary
    (G : Geom) (mesh : jigsaw_msh_t) (tri : triangulation) :
  mesh_to_tri mesh = Ok tri ->
  boundary_edges tri = [] ->
  sort_edges (boundary_edges tri) = Ok [] /\
  boundary_rings mesh = Ok [] /\
  index_ring_collection mesh = Raise ValueError.
Proof.
  intros Ht Hb. unfold index_ring_collection, boundary_rings.
  rewrite Ht. simpl. rewrite Hb. simpl. repeat split.
Qed.

Lemma index_ring_collection_raises_without_boundary_witness :
  mesh_to_tri (G := exact_geom) closed_surface
  = Ok (mk_tri [(0, 1, 2); (0, 3, 1); (1, 3, 2); (0, 2, 3)]
               [(1, 2, 3); (3, 2, 0); (1, 3, 0); (0, 2, 1)]%Z
               [(1, 0); (2, 0); (2, 1); (3, 0); (3, 1); (3, 2)]) /\
  index_ring_collection (G := exact_geom) closed_surface = Raise ValueError.
Proof.
  split; [vm_compute; reflexivity |].
  eapply (index_ring_collection_raises_without_boundary exact_geom closed_surface).
  - vm_compute. reflexivity.
  - vm_compute. reflexivity.
Defined.

(** ** The selection of the regions to remove *)

Lemma ngt_lt (x y : num) : ngt x y = true <-> (y < x)%Q.
Proof.
  unfold ngt. rewrite negb_true_iff, <- not_true_iff_false, Qle_bool_iff.
  split; [apply Qnot_le_lt | apply Qlt_not_le].
Qed.

Lemma nle_le (x y : num) : nle x y = true <-> (x <= y)%Q.
Proof. apply Qle_bool_iff. Qed.

Lemma nmax_ge (x y : num) : (x <= np.nmax x y)%Q /\ (y <= np.nmax x y)%Q.
Proof.
  unfold np.nmax. destruct (ngt y x) eqn:E.
  - apply ngt_lt in E. split; [now apply Qlt_le_weak | apply Qle_refl].
  - split; [apply Qle_refl |].
    unfold ngt in E. apply negb_false_iff in E. now apply Qle_bool_iff.
Qed.

Lemma fold_nmax_spec (a : list num) (x : num) :
  In (fold_left np.nmax a x) (x :: a) /\
  (x <= fold_left np.nmax a x)%Q /\
  (forall b, In b a -> (b <= fold_left np.nmax a x)%Q).
Proof.
  revert x. induction a as [| y a IH]; simpl; intros x.
  - split; [now left |]. split; [apply Qle_refl | contradiction].
  - destruct (IH (np.nmax x y)) as (Hin & Hx & Hall).
    destruct (nmax_ge x y) as [Hx' Hy'].
    split.
    + destruct Hin as [<- | Hin]; [| now right; right].
      unfold np.nmax. destruct (ngt y x); [right; now left | now left].
    + split; [eapply Qle_trans; eassumption |].
      intros b [<- | Hb]; [eapply Qle_trans; eassumption | now apply Hall].
Qed.

Lemma np_max_spec (a : list num) (mx : num) :
  np.max a = Ok mx -> In mx a /\ forall b, In b a -> (b <= mx)%Q.
Proof.
  destruct a as [| x a]; simpl; intros H; [discriminate |].
  injection H as <-. destruct (fold_nmax_spec a x) as (Hin & Hx & Hall).
  split; [exact Hin |]. intros b [<- | Hb]; [exact Hx | now apply Hall].
Qed.

Lemma where_from_In (mask : list bool) (k i : nat) :
  In i (np.where_from k mask) <-> k <= i /\ nth_error mask (i - k) = Some true.
Proof.
  revert k. induction mask as [| b mask IH]; intros k; simpl.
  - split; [contradiction | intros [_ H]]. now destruct (i - k).
  - assert (Hstep : In i (np.where_from (S k) mask) <->
                    S k <= i /\ nth_error mask (i - S k) = Some true) by apply IH.
    destruct (Nat.eq_dec i k) as [-> | Hne].
    + rewrite Nat.sub_diag. simpl. destruct b; simpl; rewrite ?Hstep.
      * split; [intros _; split; [lia | reflexivity] | now left].
      * split; [intros [Hl _]; lia | intros [_ H]; discriminate].
    + assert (Hsub : k <= i -> i - k = S (i - S k)) by lia.
      destruct b; simpl; rewrite Hstep.
      * split.
        -- intros [E | [Hl H]]; [congruence |].
           split; [lia |]. rewrite Hsub by lia. exact H.
        -- intros [Hl H]. right. split; [lia |]. rewrite Hsub in H by lia. exact H.
      * split.
        -- intros [Hl H]. split; [lia |]. rewrite Hsub by lia. exact H.
        -- intros [Hl H]. split; [lia |]. rewrite Hsub in H by lia. exact H.
Qed.

Lemma where_In (mask : list bool) (i : nat) :
  In i (np.where_ mask) <-> nth_error mask i = Some true.
Proof.
  unfold np.where_. rewrite where_from_In, Nat.sub_0_r.
  split; [tauto | intros H; split; [lia | exact H]].
Qed.

Lemma combine_seq_In {A : Type} (l : list A) (k i : nat) (a : A) :
  In (i, a) (combine (seq k (length l)) l) <-> k <= i /\ nth_error l (i - k) = Some a.
Proof.
  revert k. induction l as [| x l IH]; intros k; simpl.
  - split; [contradiction | intros [_ H]]. now destruct (i - k).
  - rewrite IH. destruct (Nat.eq_dec i k) as [-> | Hne].
    + rewrite Nat.sub_diag. simpl. split.
      * intros [E | [Hl _]]; [injection E as <-; split; [lia | reflexivity] | lia].
      * intros [_ E]. injection E as <-. now left.
    + assert (Hsub : k <= i -> i - k = S (i - S k)) by lia. split.
      * intros [E | [Hl H]]; [injection E as E _; congruence |].
        split; [lia |]. rewrite Hsub by lia. exact H.
      * intros [Hl H]. right. split; [lia |]. rewrite Hsub in H by lia. exact H.
Qed.

Lemma enumerate_In {A : Type} (l : list A) (i : nat) (a : A) :
  In (i, a) (enumerate l) <-> nth_error l i = Some a.
Proof.
  unfold enumerate. rewrite combine_seq_In, Nat.sub_0_r.
  split; [tauto | intros H; split; [lia | exact H]].
Qed.

Lemma select_remove_spec (areas : list num) (area : option num) (remove : list nat) :
  select_remove areas area = Ok remove ->
  forall i,
    In i remove <->
    exists a, nth_error areas i = Some a /\
              match area with
              | Some t => (a <= t)%Q
              | None => exists b, In b areas /\ (a < b)%Q
              end.
Proof.
  destruct area as [t |]; simpl; intros H i.
  - injection H as <-. rewrite in_map_iff. split.
    + intros ([j a] & <- & Hin). apply filter_In in Hin. destruct Hin as [Hin Hle].
      exists a. split; [now apply enumerate_In | now apply nle_le].
    + intros (a & Hn & Hle). exists (i, a). split; [reflexivity |].
      apply filter_In. split; [now apply enumerate_In | now apply nle_le].
  - inv_bind H. rename a into mx. injection H as <-.
    apply np_max_spec in E. destruct E as [Hin Hmax].
    rewrite where_In, nth_error_map. split.
    + intros Hn. destruct (nth_error areas i) as [a |]; [| discriminate].
      simpl in Hn. injection Hn as Hn. exists a. split; [reflexivity |].
      exists mx. split; [exact Hin | now apply ngt_lt].
    + intros (a & -> & b & Hb & Hlt). simpl. f_equal. apply ngt_lt.
      eapply Qlt_le_trans; [exact Hlt | now apply Hmax].
Qed.

Lemma mapM_Forall2 {A B : Type} (f : A -> result B) (l : list A) (r : list B) :
  mapM f l = Ok r -> Forall2 (fun a b => f a = Ok b) l r.
Proof.
  revert r. induction l as [| x l IH]; simpl; intros r H.
  - injection H as <-. constructor.
  - inv_bind H. inv_bind H. injection H as <-. constructor; [exact E | now apply IH].
Qed.

Lemma Forall2_nth_right {A B : Type} (R : A -> B -> Prop) (l : list A) (r : list B) :
  Forall2 R l r ->
  forall i b, nth_error r i = Some b <-> exists a, nth_error l i = Some a /\ R a b /\
                                                  nth_error r i = Some b.
Proof.
  intros HF i b. split; [| now intros (a & _ & _ & H)].
  revert i. induction HF as [| x y l r Hxy HF IH]; intros [| i] H; simpl in *;
    try discriminate.
  - injection H as <-. exists x. now repeat split.
  - now apply IH.
Qed.

Lemma Forall2_In_right {A B : Type} (R : A -> B -> Prop) (l : list A) (r : list B) (b : B) :
  Forall2 R l r -> In b r -> exists a, In a l /\ R a b.
Proof.
  induction 1 as [| x y l r Hxy HF IH]; simpl; [contradiction |].
  intros [<- | Hb]; [exists x; now split; [left |] |].
  destruct (IH Hb) as (a & Ha & HR). exists a. split; [now right | exact HR].
Qed.

Lemma Forall2_In_left {A B : Type} (R : A -> B -> Prop) (l : list A) (r : list B) (a : A) :
  Forall2 R l r -> In a l -> exists b, In b r /\ R a b.
Proof.
  induction 1 as [| x y l r Hxy HF IH]; simpl; [contradiction |].
  intros [<- | Ha]; [exists y; now split; [left |] |].
  destruct (IH Ha) as (b & Hb & HR). exists b. split; [now right | exact HR].
Qed.

Lemma Forall2_nth_left {A B : Type} (R : A -> B -> Prop) (l : list A) (r : list B) :
  Forall2 R l r ->
  forall i a, nth_error l i = Some a -> exists b, nth_error r i = Some b /\ R a b.
Proof.
  intros HF. induction HF as [| x y l r Hxy HF IH]; intros [| i] a H; simpl in *;
    try discriminate.
  - injection H as <-. exists y. now split.
  - now apply IH.
Qed.

Section Selection.

Context {G : Geom}.

(** The selection of [sieve]: the regions whose polygon area is at
    most the threshold when a threshold is given, and the regions
    whose polygon area is strictly below that of some other region
    when it is not. *)
Lemma sieve_selection_by_area
    (mesh : jigsaw_msh_t) (area : option num)
    (multipolygon : list shapely_polygon) (remove : list nat) :
  sieve_selection mesh area = Ok (multipolygon, remove) ->
  geom_to_multipolygon mesh = Ok multipolygon /\
  forall i,
    In i remove <->
    exists p a,
      nth_error multipolygon i = Some p /\ polygon_area p = Ok a /\
      match area with
      | Some t => (a <= t)%Q
      | None => exists q b, In q multipolygon /\ polygon_area q = Ok b /\ (a < b)%Q
      end.
Proof.
  unfold sieve_selection. intros H.
  inv_bind H. inv_bind H. inv_bind H. injection H as <- <-.
  split; [exact E |]. intros i.
  apply mapM_Forall2 in E0.
  rewrite (select_remove_spec _ _ _ E1). split.
  - intros (x & Hn & Hx).
    apply (Forall2_nth_right _ _ _ E0) in Hn. destruct Hn as (p & Hp & Hpa & _).
    exists p, x. split; [exact Hp |]. split; [exact Hpa |].
    destruct area as [t |]; [exact Hx |].
    destruct Hx as (b & Hb & Hlt).
    destruct (Forall2_In_right _ _ _ _ E0 Hb) as (q & Hq & Hqb).
    exists q, b. now repeat split.
  - intros (p & x & Hp & Hpa & Hx).
    destruct (Forall2_nth_left _ _ _ E0 _ _ Hp) as (x' & Hn & Hpa').
    assert (x' = x) by congruence. subst x'.
    exists x. split; [exact Hn |].
    destruct area as [t |]; [exact Hx |].
    destruct Hx as (q & b & Hq & Hqb & Hlt).
    destruct (Forall2_In_left _ _ _ _ E0 Hq) as (b' & Hb' & Hqb').
    assert (b' = b) by congruence. subst b'.
    exists b. now split.
Qed.

End Selection.

(** ** limgrad: convergence and the gradient bound *)

Lemma words_complete (alphabet : list num) (w : list num) :
  Forall (fun x => In x alphabet) w -> In w (words alphabet (length w)).
Proof.
  induction 1 as [| x w Hx _ IH]; simpl; [now left |].
  apply in_flat_map. exists w. split; [exact IH |].
  apply in_map_iff. exists x. now split.
Qed.

Lemma chain_stuck_for_every_table (rest : list num) :
  forallb (fun w => stuck_at_frontier
                      (limgrad_core chain_rows (w ++ rest) chain_values 1%Q 100))
          (words [3%Q; 4%Q; 5%Q] 8) = true.
Proof. vm_compute. reflexivity. Qed.

(** Whatever the order of the table of edge lengths (all the edges of
    the chain have length 3, 4 or 5, and only the first eight entries
    are read), [limgrad] returns a field that breaks the gradient
    bound on the edge 5-3, of length 3, by several hundreds. *)
Lemma limgrad_bound_fails_for_every_edge_table (head rest : list num) :
  length head = 8 ->
  Forall (fun x => In x [3%Q; 4%Q; 5%Q]) head ->
  exists f,
    limgrad_core chain_rows (head ++ rest) chain_values 1%Q 100 = Ok f /\
    forall tol, (tol < 900)%Q -> exceeds_bound (map zq chain_coords) f 1%Q tol 5 3.
Proof.
  intros Hlen Hall.
  pose proof (words_complete _ _ Hall) as Hin. rewrite Hlen in Hin.
  pose proof (chain_stuck_for_every_table rest) as Hb.
  rewrite forallb_forall in Hb. specialize (Hb head Hin).
  unfold stuck_at_frontier in Hb.
  destruct (limgrad_core chain_rows (head ++ rest) chain_values 1%Q 100) as [f | e];
    [| discriminate].
  destruct (nth_error f 3) as [z |] eqn:Ez; [| discriminate].
  destruct (nth_error f 5) as [y |] eqn:Ey; [| discriminate].
  apply andb_true_iff in Hb. destruct Hb as [Hz Hy].
  apply Qeq_bool_iff in Hz. apply nle_le in Hy.
  exists f. split; [reflexivity |]. intros tol Htol.
  exists 3%Q, y, z. split.
  - exists (zq (3, 4)%Z), (zq (6, 4)%Z). repeat split; vm_compute; congruence.
  - split; [exact Ey |]. split; [exact Ez |].
    assert (Habs : (z - y <= Qabs (y - z))%Q).
    { rewrite <- Qabs_opp. setoid_replace (- (y - z))%Q with (z - y)%Q by ring.
      apply Qle_Qabs. }
    lra.
Qed.

(** The loop of [limgrad] stops either because its turns are used up,
    and then [_iter] is the last turn, or at a turn whose active set
    is empty. *)
Lemma limgrad_loop_stops (n i : nat) (pn : adjacency) (elen : list num)
    (dfdx ftol : num) (st st' : list num * list nat) (k : nat) :
  limgrad_loop n i pn elen dfdx ftol st = Ok (st', k) ->
  k = i + n - 1 \/ (i <= k < i + n /\ active_set (snd st') k = []).
Proof.
  revert i st. induction n as [| n IH]; simpl; intros i st H.
  - injection H as <- <-. left. lia.
  - destruct (length (active_set (snd st) i) =? 0) eqn:E.
    + injection H as <- <-. right. split; [lia |].
      apply Nat.eqb_eq in E. now apply length_zero_iff_nil.
    + inv_bind H. apply IH in H. destruct H as [-> | [Hk He]].
      * left. lia.
      * right. split; [lia | exact He].
Qed.

(** [limgrad] returns a field only when its loop was left at a turn
    [k < imax] whose active set was empty. *)
Lemma limgrad_returns_only_before_cap (tris : list (nat * nat * nat))
    (elen ffun : list num) (dfdx : num) (imax : nat) (f : list num) :
  limgrad_core tris elen ffun dfdx imax = Ok f ->
  exists mn st k,
    np.min ffun = Ok mn /\
    limgrad_loop imax 1 (append_geom [] (map row_list tris)) elen dfdx
      (nmul mn sqrt_eps) (ffun, repeat 0 (length ffun)) = Ok (st, k) /\
    f = fst st /\ 1 <= k < imax /\ active_set (snd st) k = [].
Proof.
  unfold limgrad_core. intros H.
  inv_bind H. rename a into mn. inv_bind H. destruct a as [st k].
  destruct imax as [| n]; [discriminate |].
  destruct (k <? S n) eqn:Ek; [| discriminate].
  injection H as <-. apply Nat.ltb_lt in Ek.
  exists mn, st, k. split; [exact E |]. split; [exact E0 |]. split; [reflexivity |].
  apply limgrad_loop_stops in E0. destruct E0 as [-> | [Hk He]]; [lia |].
  split; [lia | exact He].
Qed.

(** When the loop is left with [_iter = imax], by the break of turn
    [imax] as well as by exhaustion, [limgrad] raises. *)
Lemma limgrad_raises_at_cap (tris : list (nat * nat * nat))
    (elen ffun : list num) (dfdx mn : num) (imax : nat) (st : list num * list nat) :
  0 < imax ->
  np.min ffun = Ok mn ->
  limgrad_loop imax 1 (append_geom [] (map row_list tris)) elen dfdx
    (nmul mn sqrt_eps) (ffun, repeat 0 (length ffun)) = Ok (st, imax) ->
  limgrad_core tris elen ffun dfdx imax = Raise (NotConverged imax).
Proof.
  intros Hpos Hmn Hloop. unfold limgrad_core. rewrite Hmn. cbn [bind].
  rewrite Hloop. cbn [bind]. destruct imax as [| n]; [lia |].
  now rewrite Nat.ltb_irrefl.
Qed.

(** C5.  On one triangle with the constant field 1 the first turn
    changes nothing, so the active set is empty at the start of turn 2;
    with [imax = 2] [limgrad] raises the non-convergence error all the
    same, and with [imax = 3] it returns the field. *)
Theorem limgrad_raises_when_converged_at_cap :
  (exists st,
      limgrad_turns (G := exact_geom) (one_triangle [1; 1; 1]%Z) 1%Q 1 = Ok (st, 1) /\
      active_set (snd st) 2 = []) /\
  limgrad (G := exact_geom) (one_triangle [1; 1; 1]%Z) 1%Q 2 = Raise (NotConverged 2) /\
  limgrad (G := exact_geom) (one_triangle [1; 1; 1]%Z) 1%Q 3 = Ok [1%Q; 1%Q; 1%Q].
Proof.
  split; [| split; vm_compute; reflexivity].
  eexists. split; vm_compute; reflexivity.
Qed.

(** C2.  On one triangle with sides 4 (0-1), 3 (0-2) and 5 (1-2), the
    field 1, 100, 200 and [dfdx = 1], [limgrad] returns the field
    1, 4, 5: across the edge 0-2, of length 3, the values differ by 4,
    beyond the bound for every tolerance below 1. *)
Theorem limgrad_breaks_gradient_bound :
  limgrad (G := exact_geom) (one_triangle [1; 100; 200]%Z) 1%Q 100
  = Ok [1%Q; 4%Q; 5%Q] /\
  (exists tri, mesh_to_tri (G := exact_geom) (one_triangle [1; 100; 200]%Z) = Ok tri /\
               In (2, 0) (edges tri)) /\
  forall tol, (tol < 1)%Q ->
    exceeds_bound (map coord (vert2 (one_triangle [1; 100; 200]%Z)))
                  [1%Q; 4%Q; 5%Q] 1%Q tol 0 2.
Proof.
  split; [vm_compute; reflexivity |]. split.
  - eexists. split; [vm_compute; reflexivity |]. simpl. tauto.
  - intros tol Htol. exists 3%Q, 1%Q, 5%Q. split.
    + exists (zq (0, 0)%Z), (zq (3, 0)%Z). repeat split; vm_compute; congruence.
    + split; [reflexivity |]. split; [reflexivity |].
      replace (Qabs (1 - 5)) with 4%Q by reflexivity. lra.
Qed.

(** ** sieve and the regions that remain *)

(** C4, counterexample.  With the threshold 20 on the split triangle
    with an ear (one region of area 36), the region of the mesh that
    [sieve] returns has area 18; with no threshold on a single
    triangle, the mesh that [sieve] returns has no triangle and no
    region at all. *)
Lemma sieve_leaves_small_or_no_region :
  (exists m' p a,
      sieve (G := exact_geom) with_ear (Some 20%Q) = Ok m' /\
      index_ring_collection (G := exact_geom) m' = Ok [p] /\
      exterior_area (G := exact_geom) m' p = Ok a /\ (a <= 20)%Q) /\
  (exists m',
      sieve (G := exact_geom) (one_triangle []) None = Ok m' /\
      tria3 m' = [] /\
      forall c, index_ring_collection (G := exact_geom) m' <> Ok c).
Proof.
  split.
  - eexists. eexists. exists 18%Q.
    split; [vm_compute; reflexivity |].
    split; [vm_compute; reflexivity |].
    split; [vm_compute; reflexivity |]. vm_compute. discriminate.
  - eexists. split; [vm_compute; reflexivity |].
    split; [reflexivity |]. intros c. vm_compute. discriminate.
Qed.

(** ** Runs on concrete meshes *)

Lemma cleanup_pinched_nodes_removes_exactly_witness :
  inner_ring_collection (G := exact_geom) pinched_grid = Ok pinched_grid_inner /\
  hole_occurrences pinched_grid_inner 12 = 2 /\
  length (tria3 pinched_grid) = 28 /\
  length (filter (fun t => negb (touches_pinched pinched_grid_inner t))
                 (tria3 pinched_grid)) = 24 /\
  exists m',
    cleanup_pinched_nodes (G := exact_geom) pinched_grid = Ok m' /\
    tria3 m' = filter (fun t => negb (touches_pinched pinched_grid_inner t))
                      (tria3 pinched_grid) /\
    (forall t, In t (tria3 m') <->
               In t (tria3 pinched_grid) /\
               forall v, references t v -> ~ pinched_node pinched_grid_inner v).
Proof.
  assert (H : inner_ring_collection (G := exact_geom) pinched_grid = Ok pinched_grid_inner)
    by (vm_compute; reflexivity).
  split; [exact H |]. split; [reflexivity |]. split; [reflexivity |].
  split; [reflexivity |].
  exact (cleanup_pinched_nodes_removes_exactly (G := exact_geom) pinched_grid _ H).
Defined.

Lemma cleanup_pinched_nodes_frame_witness :
  exists m',
    cleanup_pinched_nodes (G := exact_geom) pinched_grid = Ok m' /\
    length (tria3 m') = 24 /\
    vert2 m' = vert2 pinched_grid /\ value m' = value pinched_grid /\
    quad4 m' = quad4 pinched_grid /\ hexa8 m' = hexa8 pinched_grid /\
    mshID m' = mshID pinched_grid /\
    (exists keep, length keep = length (tria3 pinched_grid) /\
                  tria3 m' = np.compress (tria3 pinched_grid) keep) /\
    (forall v, nth_error (vert2 m') v = nth_error (vert2 pinched_grid) v).
Proof.
  destruct (cleanup_pinched_nodes (G := exact_geom) pinched_grid) as [m' | e] eqn:E.
  - exists m'. split; [reflexivity |]. split.
    + vm_compute in E. injection E as <-. reflexivity.
    + exact (cleanup_pinched_nodes_frame (G := exact_geom) pinched_grid m' E).
  - vm_compute in E. discriminate E.
Defined.

Lemma index_ring_collection_partitions_rings_witness :
  boundary_rings (G := exact_geom) square_ring = Ok square_ring_rings /\
  index_ring_collection (G := exact_geom) square_ring = Ok square_ring_regions /\
  Permutation (rings_of square_ring_regions) square_ring_rings /\
  (NoDup square_ring_rings -> NoDup (rings_of square_ring_regions)) /\
  (forall es, fuel_free (sort_edges es)) /\
  (forall vs pool areas path done cur,
      fuel_free (classify (G := exact_geom) (length pool) vs pool areas path done cur)).
Proof.
  assert (H1 : boundary_rings (G := exact_geom) square_ring = Ok square_ring_rings)
    by (vm_compute; reflexivity).
  assert (H2 : index_ring_collection (G := exact_geom) square_ring = Ok square_ring_regions)
    by (vm_compute; reflexivity).
  split; [exact H1 |]. split; [exact H2 |].
  exact (index_ring_collection_partitions_rings (G := exact_geom) square_ring _ _ H1 H2).
Defined.

Lemma scalar_field_stays_aligned_witness :
  value pinched_grid <> [] /\ scalar_aligned pinched_grid /\
  (exists m', cleanup_isolates pinched_grid = Ok m' /\ scalar_aligned m') /\
  (forall area m', sieve (G := exact_geom) pinched_grid area = Ok m' -> scalar_aligned m') /\
  (forall m', cleanup_pinched_nodes (G := exact_geom) pinched_grid = Ok m' ->
              scalar_aligned m') /\
  (forall fuel area m',
      finalize_mesh (G := exact_geom) fuel pinched_grid area = Ok m' -> scalar_aligned m').
Proof.
  assert (H1 : value pinched_grid <> []) by (vm_compute; discriminate).
  assert (H2 : scalar_aligned pinched_grid) by (vm_compute; reflexivity).
  split; [exact H1 |]. split; [exact H2 |].
  exact (scalar_field_stays_aligned (G := exact_geom) pinched_grid H1 H2).
Defined.

(** The repair of the pinched grid ends after two passes: the four
    triangles at the vertex 12 and two corner triangles are removed,
    and the vertex 12 with them. *)
Example finalize_pinched_grid :
  exists m',
    finalize_mesh (G := exact_geom) 3 pinched_grid None = Ok m' /\
    length (vert2 m') = 24 /\ length (value m') = 24 /\ length (tria3 m') = 22 /\
    has_pinched_nodes (G := exact_geom) m' = Ok false.
Proof.
  eexists. split; [vm_compute; reflexivity |].
  repeat split; vm_compute; reflexivity.
Qed.

(** * Further properties of the operations *)

(** ** sort_edges: the chaining of the boundary edges *)

Lemma pop_nth {A : Type} (l : list A) (i : nat) (e : A) :
  nth_error l i = Some e -> exists rest, py.pop l i = Ok (e, rest).
Proof.
  revert i. induction l as [| x l IH]; intros [| i] H; simpl in *; try discriminate.
  - injection H as <-. now exists l.
  - destruct (IH i H) as [rest Hr]. exists (x :: rest). now rewrite Hr.
Qed.

Lemma pop_map {A B : Type} (f : A -> B) (l rest : list A) (i : nat) (e : A) :
  py.pop l i = Ok (e, rest) -> py.pop (map f l) i = Ok (f e, map f rest).
Proof.
  revert i rest e. induction l as [| x l IH]; intros [| i] rest e H; simpl in *;
    try discriminate.
  - now injection H as <- <-.
  - inv_bind H. destruct a as [y r]. injection H as <- <-.
    now rewrite (IH _ _ _ E).
Qed.

Lemma pop_last_ok {A : Type} (l : list A) :
  l <> [] -> exists e rest, py.pop_last l = Ok (e, rest).
Proof.
  intros Hne. destruct l as [| x l]; [contradiction |].
  unfold py.pop_last.
  destruct (nth_error (x :: l) (length (x :: l) - 1)) as [e |] eqn:E.
  - destruct (pop_nth _ _ _ E) as [rest Hr]. now exists e, rest.
  - apply nth_error_None in E. simpl in E. lia.
Qed.

Lemma pop_last_map {A B : Type} (f : A -> B) (l rest : list A) (e : A) :
  py.pop_last l = Ok (e, rest) -> py.pop_last (map f l) = Ok (f e, map f rest).
Proof.
  destruct l as [| x l]; [discriminate |]. unfold py.pop_last. intros H.
  change (map f (x :: l)) with (f x :: map f l) at 1.
  cbv iota. change (f x :: map f l) with (map f (x :: l)).
  rewrite length_map. now apply pop_map.
Qed.

Lemma pop_last_perm {A : Type} (l rest : list A) (e : A) :
  py.pop_last l = Ok (e, rest) -> Permutation l (e :: rest).
Proof. destruct l; [discriminate | apply pop_perm]. Qed.

Lemma index_from_ok (x : nat) (l : list nat) (k : nat) :
  np.mem x l = true ->
  exists i, py.index_from Nat.eqb k x l = Ok (k + i) /\ nth_error l i = Some x.
Proof.
  revert k. induction l as [| y l IH]; simpl; intros k H; [discriminate |].
  rewrite Nat.eqb_sym. destruct (x =? y) eqn:E.
  - apply Nat.eqb_eq in E. subst. exists 0. now rewrite Nat.add_0_r.
  - simpl in H. destruct (IH (S k) H) as (i & Hi & Hn).
    exists (S i). split; [| exact Hn]. rewrite Hi. f_equal. lia.
Qed.

Lemma index_ok (x : nat) (l : list nat) :
  np.mem x l = true -> exists i, py.index Nat.eqb x l = Ok i /\ nth_error l i = Some x.
Proof. intros H. destruct (index_from_ok x l 0 H) as (i & Hi & Hn). now exists i. Qed.

Lemma is_chain_snoc (r : ring_t) (a e : edge_t) :
  is_chain (r ++ [a]) -> snd a = fst e -> is_chain ((r ++ [a]) ++ [e]).
Proof.
  intros Hc Hae. induction r as [| x r IH]; simpl in *; [tauto |].
  destruct r as [| y r]; simpl in *; [tauto |].
  destruct Hc as [Hxy Hc]. split; [exact Hxy | now apply IH].
Qed.

Lemma is_chain_cons (r : ring_t) (b e : edge_t) :
  is_chain (b :: r) -> snd e = fst b -> is_chain (e :: b :: r).
Proof. intros Hc He. simpl. split; [exact He | exact Hc]. Qed.

Lemma unordered_reversed (e : edge_t) : unordered (reversed_edge e) = unordered e.
Proof.
  unfold unordered, reversed_edge. simpl. now rewrite Nat.min_comm, Nat.max_comm.
Qed.

Lemma last_some {A : Type} (l : list A) (a : A) :
  last (map Some (l ++ [a])) None = Some a.
Proof. rewrite map_app. simpl. apply last_last. Qed.

(** A turn of the loop on a state that satisfies the invariant, with
    edges left, succeeds and gives a state that satisfies it. *)
Lemma sort_edges_step_inv (input : list edge_t) (st : chain_state) :
  chain_inv input st -> st_edges st <> [] ->
  exists st', sort_edges_step st = Ok st' /\ chain_inv input st'.
Proof.
  intros [He0 He1 Hne Hch Hrings Hperm] Hedges.
  destruct st as [es e0 e1 ordered coll]. simpl in *. subst e0 e1.
  destruct (exists_last Hne) as (o' & a & Ho).
  assert (Hhd : exists b o'', ordered = b :: o'')
    by (destruct ordered; [contradiction | eauto]).
  destruct Hhd as (b & o'' & Eord).
  unfold sort_edges_step. cbn [st_ordered_edges st_e0 st_e1 st_edges st_edge_collection].
  unfold edge_t in *.
  replace (last (map Some ordered) None) with (Some a)
    by (rewrite Ho; symmetry; apply last_some).
  replace (hd_error ordered) with (Some b) by now rewrite Eord.
  cbn [option_map of_option bind].
  assert (Hbranch :
    forall (x : nat) (col : nat * nat -> nat),
      np.mem x (map col es) = true ->
      exists i e rest,
        py.index Nat.eqb x (map col es) = Ok i /\ py.pop es i = Ok (e, rest) /\
        col e = x).
  { intros x col Hm. destruct (index_ok _ _ Hm) as (i & Hi & Hn).
    rewrite nth_error_map in Hn.
    destruct (nth_error es i) as [e |] eqn:En; [| discriminate].
    injection Hn as Hn. destruct (pop_nth _ _ _ En) as [rest Hr].
    now exists i, e, rest. }
  assert (Hfin :
    forall (i : nat) (e : nat * nat) (rest ordered' : list (nat * nat)),
      py.pop es i = Ok (e, rest) ->
      ordered' <> [] -> is_chain ordered' ->
      Permutation (map unordered ordered') (unordered e :: map unordered ordered) ->
      exists st',
        ('(_, e0') <- pop_idx (map fst es) (Some i) ;;
         '(_, e1') <- pop_idx (map snd es) (Some i) ;;
         Ok (mk_chain rest e0' e1' ordered' coll)) = Ok st' /\
        chain_inv input st').
  { intros i e rest ordered' Hpop Hne' Hch' Hp.
    simpl. rewrite (pop_map fst _ _ _ _ Hpop), (pop_map snd _ _ _ _ Hpop). simpl.
    eexists. split; [reflexivity |].
    constructor; simpl; try reflexivity; try assumption.
    rewrite <- Hperm, !map_app. apply Permutation_app_head.
    rewrite Hp. simpl. rewrite (Permutation_map unordered (pop_perm _ _ _ _ Hpop)).
    simpl. apply Permutation_middle. }
  destruct (np.mem (snd a) (map fst es)) eqn:M1.
  { destruct (Hbranch _ fst M1) as (i & e & rest & Hi & Hpop & He).
    rewrite Hi. cbn [bind]. rewrite Hpop. cbn [bind].
    apply (Hfin i e rest); [exact Hpop | | |].
    - now destruct ordered.
    - rewrite Ho. apply is_chain_snoc; [rewrite Ho in Hch; exact Hch | now rewrite He].
    - rewrite map_app. simpl. symmetry. apply Permutation_cons_append. }
  destruct (np.mem (fst b) (map snd es)) eqn:M2.
  { destruct (Hbranch _ snd M2) as (i & e & rest & Hi & Hpop & He).
    rewrite Hi. cbn [bind]. rewrite Hpop. cbn [bind].
    apply (Hfin i e rest); [exact Hpop | discriminate | | reflexivity].
    rewrite Eord. apply is_chain_cons; [rewrite Eord in Hch; exact Hch | exact He]. }
  destruct (np.mem (snd a) (map snd es)) eqn:M3.
  { destruct (Hbranch _ snd M3) as (i & e & rest & Hi & Hpop & He).
    rewrite Hi. cbn [bind]. rewrite Hpop. cbn [bind].
    apply (Hfin i e rest); [exact Hpop | | |].
    - now destruct ordered.
    - rewrite Ho. apply is_chain_snoc; [rewrite Ho in Hch; exact Hch | now rewrite <- He].
    - rewrite map_app. simpl. rewrite unordered_reversed.
      symmetry. apply Permutation_cons_append. }
  destruct (np.mem (fst b) (map fst es)) eqn:M4.
  { destruct (Hbranch _ fst M4) as (i & e & rest & Hi & Hpop & He).
    rewrite Hi. cbn [bind]. rewrite Hpop. cbn [bind].
    apply (Hfin i e rest); [exact Hpop | discriminate | |].
    - rewrite Eord. apply is_chain_cons; [rewrite Eord in Hch; exact Hch | now rewrite <- He].
    - simpl. now rewrite unordered_reversed. }
  destruct (pop_last_ok es Hedges) as (e & rest & Hpop).
  rewrite Hpop. cbn [bind]. simpl.
  rewrite (pop_last_map fst _ _ _ Hpop), (pop_last_map snd _ _ _ Hpop). simpl.
  eexists. split; [reflexivity |].
  constructor; simpl; try reflexivity; try discriminate; try exact I.
  - apply Forall_app. split; [exact Hrings |]. constructor; [| constructor].
    split; [now destruct ordered | exact Hch].
  - rewrite <- Hperm, concat_app. simpl. rewrite app_nil_r, <- app_assoc, !map_app.
    do 2 apply Permutation_app_head.
    rewrite (Permutation_map unordered (pop_last_perm _ _ _ Hpop)). reflexivity.
Qed.

Lemma sort_edges_loop_inv (input : list edge_t) (fuel : nat) (st : chain_state) :
  chain_inv input st -> length (st_edges st) <= fuel ->
  exists rings,
    sort_edges_loop fuel st = Ok rings /\
    Forall (fun r => r <> [] /\ is_chain r) rings /\
    Permutation (map unordered (concat rings)) (map unordered input).
Proof.
  revert st. induction fuel as [| fuel IH]; intros st Hinv Hlen.
  - destruct (st_edges st) as [| e es] eqn:E; [| simpl in Hlen; lia].
    simpl. rewrite E. eexists. split; [reflexivity |].
    destruct Hinv as [_ _ Hne Hch Hrings Hperm]. rewrite E in Hperm. split.
    + apply Forall_app. split; [exact Hrings | now repeat constructor].
    + rewrite concat_app. simpl. now rewrite !app_nil_r in *.
  - simpl. destruct (st_edges st) as [| e es] eqn:E.
    + eexists. split; [reflexivity |].
      destruct Hinv as [_ _ Hne Hch Hrings Hperm]. rewrite E in Hperm. split.
      * apply Forall_app. split; [exact Hrings | now repeat constructor].
      * rewrite concat_app. simpl. now rewrite !app_nil_r in *.
    + destruct (sort_edges_step_inv input st Hinv) as (st' & Hst' & Hinv').
      { rewrite E. discriminate. }
      rewrite Hst'. cbn [bind]. apply IH; [exact Hinv' |].
      apply sort_edges_step_shrinks in Hst'. rewrite E in Hst'. simpl in *. lia.
Qed.

Lemma sort_edges_two_or_more (es : list edge_t) :
  2 <= length es ->
  exists rings,
    sort_edges es = Ok rings /\
    Forall (fun r => r <> [] /\ is_chain r) rings /\
    Permutation (map unordered (concat rings)) (map unordered es).
Proof.
  intros Hlen. unfold sort_edges.
  destruct es as [| e0 es0]; [simpl in Hlen; lia |].
  destruct (pop_last_ok (e0 :: es0)) as (e & rest & Hpop); [discriminate |].
  rewrite Hpop. cbn [bind].
  pose proof (pop_last_perm _ _ _ Hpop) as Hperm.
  assert (Hrest : rest <> []).
  { intros ->. apply Permutation_length in Hperm. simpl in *. lia. }
  unfold unzip. destruct rest as [| r0 rest0]; [contradiction |].
  cbn [bind].
  apply sort_edges_loop_inv; [| simpl; lia].
  constructor; simpl; try reflexivity; try discriminate; try exact I.
  - constructor.
  - now rewrite (Permutation_map unordered Hperm).
Qed.

(** X1.  What [sort_edges] returns by the number of edges: no
    edge, no ring; one edge, [ValueError] (the columns of the empty
    rest cannot be unpacked); two edges or more, at least one ring. *)
Theorem sort_edges_outcome (es : list edge_t) :
  match es with
  | [] => sort_edges es = Ok []
  | [_] => sort_edges es = Raise ValueError
  | _ :: _ :: _ => exists rings, sort_edges es = Ok rings /\ rings <> []
  end.
Proof.
  destruct es as [| e1 [| e2 es]]; try reflexivity.
  destruct (sort_edges_two_or_more (e1 :: e2 :: es)) as (rings & Hr & Hf & Hp);
    [simpl; lia |].
  exists rings. split; [exact Hr |]. intros ->.
  apply Permutation_length in Hp. discriminate Hp.
Qed.

(** X2.  Every ring that [sort_edges] returns has an edge, and its edges
    follow one another head to tail. *)
Theorem sort_edges_rings_chain (es : list edge_t) (rings : list ring_t) :
  sort_edges es = Ok rings ->
  Forall (fun r => r <> [] /\ is_chain r) rings.
Proof.
  intros H. destruct es as [| e1 [| e2 es]].
  - injection H as <-. constructor.
  - discriminate H.
  - destruct (sort_edges_two_or_more (e1 :: e2 :: es)) as (rings' & Hr & Hf & _);
      [simpl; lia |].
    congruence.
Qed.

Lemma sort_edges_rings_chain_witness :
  sort_edges [(0, 1); (5, 6); (1, 2); (6, 7); (2, 0); (7, 5)]
  = Ok [[(7, 5); (5, 6); (6, 7)]; [(2, 0); (0, 1); (1, 2)]] /\
  Forall (fun r => r <> [] /\ is_chain r)
         [[(7, 5); (5, 6); (6, 7)]; [(2, 0); (0, 1); (1, 2)]].
Proof.
  split; [reflexivity |].
  apply (sort_edges_rings_chain [(0, 1); (5, 6); (1, 2); (6, 7); (2, 0); (7, 5)]).
  reflexivity.
Defined.

(** X3.  The rings that [sort_edges] returns hold, direction apart, the
    edges that were passed in, each as often as it was passed. *)
Theorem sort_edges_keeps_every_edge (es : list edge_t) (rings : list ring_t) :
  sort_edges es = Ok rings ->
  Permutation (map unordered (concat rings)) (map unordered es) /\
  length (concat rings) = length es.
Proof.
  intros H.
  assert (Hp : Permutation (map unordered (concat rings)) (map unordered es)).
  { destruct es as [| e1 [| e2 es]].
    - injection H as <-. constructor.
    - discriminate H.
    - destruct (sort_edges_two_or_more (e1 :: e2 :: es)) as (rings' & Hr & _ & Hp);
        [simpl; lia |].
      congruence. }
  split; [exact Hp |].
  apply Permutation_length in Hp. now rewrite !length_map in Hp.
Qed.

Lemma sort_edges_keeps_every_edge_witness :
  sort_edges [(0, 1); (5, 6); (2, 1); (6, 7); (2, 0); (7, 5)]
  = Ok [[(7, 5); (5, 6); (6, 7)]; [(2, 0); (0, 1); (1, 2)]] /\
  Permutation
    (map unordered (concat [[(7, 5); (5, 6); (6, 7)]; [(2, 0); (0, 1); (1, 2)]]))
    (map unordered [(0, 1); (5, 6); (2, 1); (6, 7); (2, 0); (7, 5)]) /\
  length (concat [[(7, 5); (5, 6); (6, 7)]; [(2, 0); (0, 1); (1, 2)]])
  = length [(0, 1); (5, 6); (2, 1); (6, 7); (2, 0); (7, 5)].
Proof.
  split; [reflexivity |].
  apply (sort_edges_keeps_every_edge [(0, 1); (5, 6); (2, 1); (6, 7); (2, 0); (7, 5)]).
  reflexivity.
Defined.

(** ** cleanup_isolates and sieve: the compaction of the vertex array *)

Lemma new_index_cons (idx : nat) (V : list nat) (x : nat) :
  new_index (idx :: V) x
  = if idx <=? new_index V x then new_index V x - 1 else new_index V x.
Proof. unfold new_index. simpl. now rewrite fold_left_app. Qed.

Lemma new_index_below (V : list nat) (x : nat) :
  (forall idx, In idx V -> x < idx) -> new_index V x = x.
Proof.
  induction V as [| idx V IH]; intros H; [reflexivity |].
  rewrite new_index_cons, IH by (intros; apply H; now right).
  assert (x < idx) by (apply H; now left).
  destruct (idx <=? x) eqn:E; [apply Nat.leb_le in E; lia | reflexivity].
Qed.

(** The new index of a kept position is its rank among the kept
    positions. *)
Lemma new_index_rank (mask : list bool) (k x : nat) :
  k <= x -> nth_error mask (x - k) = Some true ->
  exists p,
    new_index (np.where_from k (np.invert mask)) x = k + p /\
    nth_error (np.where_from k mask) p = Some x.
Proof.
  revert k. induction mask as [| b mask IH]; intros k Hk Hx.
  - now destruct (x - k).
  - destruct (Nat.eq_dec x k) as [-> | Hne].
    + rewrite Nat.sub_diag in Hx. simpl in Hx. injection Hx as ->.
      exists 0. simpl. split; [| reflexivity].
      rewrite Nat.add_0_r. apply new_index_below.
      intros idx Hidx. apply where_from_bound in Hidx. lia.
    + replace (x - k) with (S (x - S k)) in Hx by lia. simpl in Hx.
      destruct (IH (S k)) as (p & Hp & Hn); [lia | exact Hx |].
      destruct b; simpl.
      * exists (S p). split; [rewrite Hp; lia | exact Hn].
      * exists p. split; [| exact Hn].
        fold (np.invert mask). rewrite new_index_cons, Hp.
        destruct (k <=? S k + p) eqn:E; [lia | apply Nat.leb_gt in E; lia].
Qed.

Lemma where_from_NoDup (mask : list bool) (k : nat) : NoDup (np.where_from k mask).
Proof.
  revert k. induction mask as [| b mask IH]; intros k; simpl; [constructor |].
  destruct b; [| apply IH]. constructor; [| apply IH].
  intros H. apply where_from_bound in H. lia.
Qed.

Lemma take_nth_error {A : Type} (a r : list A) (idxs : list nat) :
  np.take a idxs = Ok r ->
  forall p x, nth_error idxs p = Some x -> nth_error r p = nth_error a x.
Proof.
  revert r. induction idxs as [| i idxs IH]; simpl; intros r H p x Hp.
  - now destruct p.
  - inv_bind H. inv_bind H. injection H as <-.
    destruct p as [| p]; simpl in *.
    + injection Hp as ->. unfold np.getitem in E.
      destruct (nth_error a x); [now injection E as -> | discriminate].
    + now apply (IH a1).
Qed.

Lemma flatten3_In (rows : list (nat * nat * nat)) (v : nat) :
  In v (flatten3 rows) <-> exists row, In row rows /\ In v (row_list row).
Proof. unfold flatten3. apply in_flat_map. Qed.

Lemma used_mask_nth (mesh : jigsaw_msh_t) (v : nat) :
  v < length (vert2 mesh) ->
  nth_error (np.isin (np.arange (length (vert2 mesh)))
                     (np.unique (flatten3 (map index (tria3 mesh))))) v
  = Some (np.mem v (np.unique (flatten3 (map index (tria3 mesh))))).
Proof.
  intros Hv. unfold np.isin, np.arange.
  rewrite nth_error_map, nth_error_seq.
  destruct (v <? length (vert2 mesh)) eqn:E; [reflexivity |].
  apply Nat.ltb_ge in E. lia.
Qed.

Lemma referenced_is_used (mesh : jigsaw_msh_t) (t : tria3_t) (v : nat) :
  In t (tria3 mesh) -> references t v ->
  np.mem v (np.unique (flatten3 (map index (tria3 mesh)))) = true.
Proof.
  intros Ht Hv. apply mem_In, unique_In, flatten3_In.
  exists (index t). split; [now apply in_map | exact Hv].
Qed.

(** A referenced position that is in range is kept, at its rank. *)
Lemma referenced_rank (mesh : jigsaw_msh_t) (t : tria3_t) (v : nat) :
  In t (tria3 mesh) -> references t v -> v < length (vert2 mesh) ->
  nth_error (used_vertices mesh) (new_index (unused_vertices mesh) v) = Some v.
Proof.
  intros Ht Hv Hlt.
  destruct (new_index_rank
              (np.isin (np.arange (length (vert2 mesh)))
                       (np.unique (flatten3 (map index (tria3 mesh))))) 0 v)
    as (p & Hp & Hn); [lia | |].
  - rewrite Nat.sub_0_r, used_mask_nth by exact Hlt.
    f_equal. now apply (referenced_is_used mesh t).
  - unfold unused_vertices, used_vertices, np.where_. now rewrite Hp.
Qed.

Lemma renumbered_rows (rows : list (nat * nat * nat)) (tags : list tria3_t)
    (idxs : list nat) :
  length rows = length tags ->
  map index (map (fun it => mk_tria3 (fst it) (tria3_IDtag (snd it)))
                 (combine (reshape3 (length tags) (renumber idxs (flatten3 rows))) tags))
  = map (renumber_row idxs) rows.
Proof.
  intros Hlen. rewrite renumber_map, <- Hlen, reshape3_flatten3.
  rewrite map_combine_fst; [| reflexivity | now rewrite length_map].
  apply map_ext. now intros [[a b] c].
Qed.

Lemma renumber_row_list (idxs : list nat) (row : nat * nat * nat) :
  row_list (renumber_row idxs row) = map (new_index idxs) (row_list row).
Proof. now destruct row as [[a b] c]. Qed.

Lemma map_combine_snd_with {A B C D : Type} (f : A * B -> C) (g : C -> D) (h : B -> D)
    (la : list A) (lb : list B) :
  (forall x, g (f x) = h (snd x)) -> length la = length lb ->
  map g (map f (combine la lb)) = map h lb.
Proof.
  intros Hg. revert lb. induction la as [| a la IH]; intros [| b lb] Hlen;
    simpl in *; try discriminate; [reflexivity |].
  rewrite Hg. simpl. f_equal. apply IH. lia.
Qed.

(** What [cleanup_isolates] returns, field by field. *)
Lemma cleanup_isolates_fields (mesh m' : jigsaw_msh_t) :
  cleanup_isolates mesh = Ok m' ->
  np.take (vert2 mesh) (used_vertices mesh) = Ok (vert2 m') /\
  (if 0 <? length (value mesh)
   then np.take (value mesh) (used_vertices mesh) else Ok (value mesh)) = Ok (value m') /\
  map index (tria3 m')
  = map (renumber_row (unused_vertices mesh)) (map index (tria3 mesh)) /\
  map tria3_IDtag (tria3 m') = map tria3_IDtag (tria3 mesh) /\
  quad4 m' = quad4 mesh /\ hexa8 m' = hexa8 mesh /\ mshID m' = mshID mesh.
Proof.
  unfold cleanup_isolates. intros H. inv_bind H. inv_bind H. injection H as <-.
  cbn [vert2 value tria3 quad4 hexa8 mshID].
  split; [exact E |]. split; [exact E0 |]. split; [| split; [| now repeat split]].
  - fold (unused_vertices mesh). apply renumbered_rows. now rewrite length_map.
  - apply map_combine_snd_with; [reflexivity |].
    fold (unused_vertices mesh). rewrite renumber_map.
    rewrite <- (length_map index (tria3 mesh)) at 1.
    rewrite reshape3_flatten3. now rewrite !length_map.
Qed.

Lemma value_take_nth_error (mesh : jigsaw_msh_t) (fs : list num) :
  (if 0 <? length (value mesh)
   then np.take (value mesh) (used_vertices mesh) else Ok (value mesh)) = Ok fs ->
  forall p x, nth_error (used_vertices mesh) p = Some x ->
              nth_error fs p = nth_error (value mesh) x.
Proof.
  intros H p x Hp. destruct (0 <? length (value mesh)) eqn:E.
  - now apply (take_nth_error _ _ _ H).
  - injection H as <-. apply Nat.ltb_ge in E.
    assert (Hnil : value mesh = []) by (apply length_zero_iff_nil; lia).
    rewrite Hnil. now destruct p, x.
Qed.

(** Rows renumbered by [new_index] read the same entries in an array
    compacted to the kept positions. *)
Lemma renumbered_rows_read_the_same {A : Type} (mesh : jigsaw_msh_t)
    (a a' : list A) (kept : list tria3_t) :
  indices_in_range mesh ->
  (forall t, In t kept -> In t (tria3 mesh)) ->
  (forall p x, nth_error (used_vertices mesh) p = Some x ->
               nth_error a' p = nth_error a x) ->
  map (fun row => map (nth_error a') (row_list row))
      (map (fun t => renumber_row (unused_vertices mesh) (index t)) kept)
  = map (fun t => map (nth_error a) (row_list (index t))) kept.
Proof.
  intros Hrange Hsub Hread. rewrite map_map. apply map_ext_in. intros t Ht.
  rewrite renumber_row_list, map_map. apply map_ext_in. intros v Hv.
  apply Hread. apply (referenced_rank mesh t); [now apply Hsub | exact Hv |].
  apply (Hrange t v); [now apply Hsub | exact Hv].
Qed.

Lemma renumbered_rows_in_range (mesh : jigsaw_msh_t) (kept : list tria3_t)
    (n' : nat) (row : nat * nat * nat) (v' : nat) :
  indices_in_range mesh ->
  (forall t, In t kept -> In t (tria3 mesh)) ->
  length (used_vertices mesh) = n' ->
  In row (map (fun t => renumber_row (unused_vertices mesh) (index t)) kept) ->
  In v' (row_list row) -> v' < n'.
Proof.
  intros Hrange Hsub Hlen Hrow Hv'.
  apply in_map_iff in Hrow. destruct Hrow as (t & <- & Ht).
  rewrite renumber_row_list in Hv'. apply in_map_iff in Hv'.
  destruct Hv' as (v & <- & Hv).
  rewrite <- Hlen. apply nth_error_Some.
  rewrite (referenced_rank mesh t v); [discriminate | now apply Hsub | exact Hv |].
  apply (Hrange t v); [now apply Hsub | exact Hv].
Qed.

(** The corners of the triangles across [cleanup_isolates]. *)
Lemma cleanup_isolates_corners (mesh m' : jigsaw_msh_t) :
  cleanup_isolates mesh = Ok m' ->
  indices_in_range mesh ->
  map (corner_verts m') (tria3 m') = map (corner_verts mesh) (tria3 mesh) /\
  map (corner_values m') (tria3 m') = map (corner_values mesh) (tria3 mesh) /\
  map tria3_IDtag (tria3 m') = map tria3_IDtag (tria3 mesh) /\
  indices_in_range m'.
Proof.
  intros H Hrange.
  destruct (cleanup_isolates_fields mesh m' H) as (Hv & Hf & Hrows & Htags & _).
  rewrite map_map in Hrows.
  assert (Hsub : forall t, In t (tria3 mesh) -> In t (tria3 mesh)) by auto.
  repeat split.
  - unfold corner_verts.
    rewrite <- (map_map index (fun row => map (nth_error (vert2 m')) (row_list row))).
    rewrite Hrows. apply (renumbered_rows_read_the_same mesh); try assumption.
    exact (take_nth_error _ _ _ Hv).
  - unfold corner_values.
    rewrite <- (map_map index (fun row => map (nth_error (value m')) (row_list row))).
    rewrite Hrows. apply (renumbered_rows_read_the_same mesh); try assumption.
    exact (value_take_nth_error _ _ Hf).
  - exact Htags.
  - intros t' v' Ht' Hv'.
    apply (renumbered_rows_in_range mesh (tria3 mesh) _ (index t') v'); try assumption.
    + symmetry. exact (take_length _ _ _ Hv).
    + rewrite <- Hrows. now apply in_map.
Qed.

(** X4.  When the triangles of a mesh only reference positions of its
    vertex array, [cleanup_isolates] keeps every triangle on its three
    vertex records and scalar values and with its tag, and the
    triangles it returns only reference positions of the new vertex
    array. *)
Theorem cleanup_isolates_keeps_corners (mesh m' : jigsaw_msh_t) :
  cleanup_isolates mesh = Ok m' ->
  indices_in_range mesh ->
  map (corner_verts m') (tria3 m') = map (corner_verts mesh) (tria3 mesh) /\
  map (corner_values m') (tria3 m') = map (corner_values mesh) (tria3 mesh) /\
  map tria3_IDtag (tria3 m') = map tria3_IDtag (tria3 mesh) /\
  indices_in_range m'.
Proof. intros; eapply cleanup_isolates_corners; eassumption. Qed.

Lemma cleanup_isolates_keeps_corners_witness :
  cleanup_isolates
    (euclidean_mesh [(0, 0); (9, 9); (3, 0); (8, 8); (0, 4)]%Z [(0, 2, 4)] [1; 2; 3; 4; 5]%Z)
  = Ok (euclidean_mesh [(0, 0); (3, 0); (0, 4)]%Z [(0, 1, 2)] [1; 3; 5]%Z) /\
  map (corner_verts (euclidean_mesh [(0, 0); (3, 0); (0, 4)]%Z [(0, 1, 2)] [1; 3; 5]%Z))
      [mk_tria3 (0, 1, 2) 0]
  = [[Some (mk_vert2 (zq (0, 0)%Z) 0); Some (mk_vert2 (zq (3, 0)%Z) 0);
      Some (mk_vert2 (zq (0, 4)%Z) 0)]].
Proof.
  assert (H : cleanup_isolates
                (euclidean_mesh [(0, 0); (9, 9); (3, 0); (8, 8); (0, 4)]%Z [(0, 2, 4)]
                                [1; 2; 3; 4; 5]%Z)
              = Ok (euclidean_mesh [(0, 0); (3, 0); (0, 4)]%Z [(0, 1, 2)] [1; 3; 5]%Z))
    by reflexivity.
  split; [exact H |].
  refine (proj1 (cleanup_isolates_keeps_corners _ _ H _)).
  intros t v [<- | []] Hv. unfold references in Hv. simpl in Hv. simpl.
  destruct Hv as [<- | [<- | [<- | []]]]; lia.
Defined.

(** Every position of the vertex array returned by [cleanup_isolates] is referenced. *)
Lemma cleanup_isolates_all_referenced (mesh m' : jigsaw_msh_t) (p : nat) :
  cleanup_isolates mesh = Ok m' ->
  p < length (vert2 m') ->
  exists t', In t' (tria3 m') /\ references t' p.
Proof.
  intros H Hp.
  destruct (cleanup_isolates_fields mesh m' H) as (Hv & _ & Hrows & _).
  pose proof (take_length _ _ _ Hv) as Hlen. rewrite Hlen in Hp.
  destruct (nth_error (used_vertices mesh) p) as [x |] eqn:Ex;
    [| apply nth_error_None in Ex; lia].
  assert (Hx : In x (used_vertices mesh)) by (eapply nth_error_In; eassumption).
  pose proof (used_vertices_bound mesh x Hx) as Hxn.
  unfold used_vertices in Hx. apply where_In in Hx.
  rewrite used_mask_nth in Hx by exact Hxn. injection Hx as Hx.
  apply mem_In, unique_In, flatten3_In in Hx. destruct Hx as (row & Hrow & Hxr).
  apply in_map_iff in Hrow. destruct Hrow as (t & <- & Ht).
  pose proof (referenced_rank mesh t x Ht Hxr Hxn) as Hrank.
  assert (Hpeq : new_index (unused_vertices mesh) x = p).
  { apply (proj1 (NoDup_nth_error (used_vertices mesh)));
      [apply where_from_NoDup | | congruence].
    apply nth_error_Some. rewrite Hrank. discriminate. }
  assert (Hin : In (renumber_row (unused_vertices mesh) (index t)) (map index (tria3 m'))).
  { rewrite Hrows. apply in_map. now apply in_map. }
  apply in_map_iff in Hin. destruct Hin as (t' & Ht' & Hin').
  exists t'. split; [exact Hin' |].
  unfold references. rewrite Ht', renumber_row_list, <- Hpeq. now apply in_map.
Qed.

(** X5.  No vertex of the mesh that [cleanup_isolates] returns is
    isolated: every position of its vertex array is referenced by one
    of its triangles. *)
Theorem cleanup_isolates_leaves_no_isolate (mesh m' : jigsaw_msh_t) (p : nat) :
  cleanup_isolates mesh = Ok m' ->
  p < length (vert2 m') ->
  exists t', In t' (tria3 m') /\ references t' p.
Proof. intros; eapply cleanup_isolates_all_referenced; eassumption. Qed.

Lemma cleanup_isolates_leaves_no_isolate_witness :
  cleanup_isolates
    (euclidean_mesh [(0, 0); (9, 9); (3, 0); (8, 8); (0, 4)]%Z [(0, 2, 4)] [1; 2; 3; 4; 5]%Z)
  = Ok (euclidean_mesh [(0, 0); (3, 0); (0, 4)]%Z [(0, 1, 2)] [1; 3; 5]%Z) /\
  exists t', In t' [mk_tria3 (0, 1, 2) 0] /\ references t' 2.
Proof.
  assert (H : cleanup_isolates
                (euclidean_mesh [(0, 0); (9, 9); (3, 0); (8, 8); (0, 4)]%Z [(0, 2, 4)]
                                [1; 2; 3; 4; 5]%Z)
              = Ok (euclidean_mesh [(0, 0); (3, 0); (0, 4)]%Z [(0, 1, 2)] [1; 3; 5]%Z))
    by reflexivity.
  split; [exact H |].
  apply (cleanup_isolates_leaves_no_isolate _ _ 2 H). simpl. lia.
Defined.

Lemma where_from_all (mask : list bool) (k : nat) :
  (forall i, i < length mask -> nth_error mask i = Some true) ->
  np.where_from k mask = seq k (length mask) /\
  np.where_from k (np.invert mask) = [].
Proof.
  revert k. induction mask as [| b mask IH]; intros k H; [now split |].
  assert (Hb : b = true).
  { specialize (H 0). simpl in H. assert (Some b = Some true) by (apply H; lia).
    congruence. }
  subst b. simpl.
  destruct (IH (S k)) as [H1 H2].
  { intros i Hi. apply (H (S i)). simpl. lia. }
  now rewrite H1, H2.
Qed.

Lemma take_seq_from {A : Type} (a pre : list A) :
  mapM (np.getitem (pre ++ a)) (seq (length pre) (length a)) = Ok a.
Proof.
  revert pre. induction a as [| x a IH]; intros pre; simpl; [reflexivity |].
  unfold np.getitem at 1. rewrite nth_error_app2, Nat.sub_diag by lia. simpl.
  specialize (IH (pre ++ [x])).
  rewrite <- app_assoc, length_app, Nat.add_1_r in IH. simpl in IH.
  now rewrite IH.
Qed.

Lemma take_seq {A : Type} (a : list A) : np.take a (seq 0 (length a)) = Ok a.
Proof. exact (take_seq_from a []). Qed.

Lemma rebuild_rows (l : list tria3_t) :
  map (fun it => mk_tria3 (fst it) (tria3_IDtag (snd it))) (combine (map index l) l) = l.
Proof.
  induction l as [| [row tag] l IH]; simpl; [reflexivity | now rewrite IH].
Qed.

(** A mesh without isolated vertex, whose scalar field is absent or as
    long as the vertex array, is returned as it is. *)
Lemma cleanup_isolates_without_isolates (mesh : jigsaw_msh_t) :
  (forall v, v < length (vert2 mesh) -> exists t, In t (tria3 mesh) /\ references t v) ->
  value mesh = [] \/ scalar_aligned mesh ->
  cleanup_isolates mesh = Ok mesh.
Proof.
  intros Hused Hval.
  destruct (where_from_all
              (np.isin (np.arange (length (vert2 mesh)))
                       (np.unique (flatten3 (map index (tria3 mesh))))) 0)
    as [Hu Hn].
  { intros i Hi. rewrite isin_length in Hi. unfold np.arange in Hi.
    rewrite length_seq in Hi. rewrite used_mask_nth by exact Hi. f_equal.
    destruct (Hused i Hi) as (t & Ht & Hv). now apply (referenced_is_used mesh t). }
  rewrite isin_length in Hu. unfold np.arange in Hu at 2. rewrite length_seq in Hu.
  unfold cleanup_isolates. unfold np.where_. rewrite Hu, Hn.
  rewrite take_seq. cbn [bind].
  assert (Hv : (if 0 <? length (value mesh)
                then np.take (value mesh) (seq 0 (length (vert2 mesh)))
                else Ok (value mesh)) = Ok (value mesh)).
  { destruct Hval as [Hnil | Hal].
    - now rewrite Hnil.
    - unfold scalar_aligned in Hal. rewrite <- Hal, take_seq.
      now destruct (0 <? length (value mesh)). }
  rewrite Hv. cbn [bind]. unfold renumber. simpl.
  rewrite <- (length_map index (tria3 mesh)).
  rewrite <- (map_id (flatten3 (map index (tria3 mesh)))), reshape3_flatten3.
  replace (map (fun row : nat * nat * nat => let '(a, b, c) := row in (a, b, c))
               (map index (tria3 mesh)))
    with (map index (tria3 mesh))
    by (rewrite <- (map_id (map index (tria3 mesh))) at 1;
        apply map_ext; now intros [[a b] c]).
  rewrite rebuild_rows. now destruct mesh.
Qed.

(** X6.  [cleanup_isolates] is idempotent: on a mesh whose scalar
    field is absent or as long as the vertex array, a second run
    returns the mesh the first run returned. *)
Theorem cleanup_isolates_idempotent (mesh m' : jigsaw_msh_t) :
  value mesh = [] \/ scalar_aligned mesh ->
  cleanup_isolates mesh = Ok m' ->
  cleanup_isolates m' = Ok m'.
Proof.
  intros Hval H. apply cleanup_isolates_without_isolates.
  - intros v Hv. now apply (cleanup_isolates_all_referenced mesh m' v H).
  - destruct Hval as [Hnil | Hal].
    + left. destruct (cleanup_isolates_fields mesh m' H) as (_ & Hf & _).
      rewrite Hnil in Hf. simpl in Hf. now injection Hf as <-.
    + right. now apply (cleanup_isolates_aligned mesh).
Qed.

Lemma cleanup_isolates_idempotent_witness :
  scalar_aligned
    (euclidean_mesh [(0, 0); (9, 9); (3, 0); (8, 8); (0, 4)]%Z [(0, 2, 4)] [1; 2; 3; 4; 5]%Z) /\
  cleanup_isolates
    (euclidean_mesh [(0, 0); (9, 9); (3, 0); (8, 8); (0, 4)]%Z [(0, 2, 4)] [1; 2; 3; 4; 5]%Z)
  = Ok (euclidean_mesh [(0, 0); (3, 0); (0, 4)]%Z [(0, 1, 2)] [1; 3; 5]%Z) /\
  cleanup_isolates (euclidean_mesh [(0, 0); (3, 0); (0, 4)]%Z [(0, 1, 2)] [1; 3; 5]%Z)
  = Ok (euclidean_mesh [(0, 0); (3, 0); (0, 4)]%Z [(0, 1, 2)] [1; 3; 5]%Z).
Proof.
  assert (Hal : scalar_aligned
                  (euclidean_mesh [(0, 0); (9, 9); (3, 0); (8, 8); (0, 4)]%Z [(0, 2, 4)]
                                  [1; 2; 3; 4; 5]%Z)) by reflexivity.
  assert (H : cleanup_isolates
                (euclidean_mesh [(0, 0); (9, 9); (3, 0); (8, 8); (0, 4)]%Z [(0, 2, 4)]
                                [1; 2; 3; 4; 5]%Z)
              = Ok (euclidean_mesh [(0, 0); (3, 0); (0, 4)]%Z [(0, 1, 2)] [1; 3; 5]%Z))
    by reflexivity.
  split; [exact Hal |]. split; [exact H |].
  exact (cleanup_isolates_idempotent _ _ (or_intror Hal) H).
Defined.

(** ** sieve: no dangling reference *)

Section SieveCorners.

Context {G : Geom}.

Lemma sieve_value (mesh m' : jigsaw_msh_t) (area : option num) :
  sieve mesh area = Ok m' ->
  (if 0 <? length (value mesh)
   then np.take (value mesh) (used_vertices mesh) else Ok (value mesh)) = Ok (value m').
Proof.
  intros H. unfold sieve in H.
  inv_bind H. inv_bind H. inv_bind H. inv_bind H. inv_bind H. injection H as <-.
  exact E3.
Qed.

Lemma sieve_mask_exists (mesh m' : jigsaw_msh_t) (area : option num) :
  sieve mesh area = Ok m' -> exists mask, sieve_vert2_mask mesh area = Ok mask.
Proof. intros H. unfold sieve in H. inv_bind H. eauto. Qed.

(** The corners of the triangles across [sieve]. *)
Lemma sieve_corners (mesh m' : jigsaw_msh_t) (area : option num) :
  sieve mesh area = Ok m' ->
  indices_in_range mesh ->
  exists mask,
    sieve_vert2_mask mesh area = Ok mask /\
    map (corner_verts m') (tria3 m')
    = map (corner_verts mesh) (filter (unmarked mask) (tria3 mesh)) /\
    map (corner_values m') (tria3 m')
    = map (corner_values mesh) (filter (unmarked mask) (tria3 mesh)) /\
    indices_in_range m'.
Proof.
  intros H Hrange.
  destruct (sieve_mask_exists mesh m' area H) as [mask Hmask].
  destruct (sieve_tria3 mesh m' area mask Hmask H) as [_ Hrows].
  pose proof (sieve_vert2 mesh m' area H) as Hv.
  pose proof (sieve_value mesh m' area H) as Hf.
  assert (Hsub : forall t, In t (filter (unmarked mask) (tria3 mesh)) -> In t (tria3 mesh)).
  { intros t Ht. now apply filter_In in Ht. }
  exists mask. split; [exact Hmask |]. repeat split.
  - unfold corner_verts.
    rewrite <- (map_map index (fun row => map (nth_error (vert2 m')) (row_list row))).
    rewrite Hrows. apply (renumbered_rows_read_the_same mesh); try assumption.
    exact (take_nth_error _ _ _ Hv).
  - unfold corner_values.
    rewrite <- (map_map index (fun row => map (nth_error (value m')) (row_list row))).
    rewrite Hrows. apply (renumbered_rows_read_the_same mesh); try assumption.
    exact (value_take_nth_error _ _ Hf).
  - intros t' v' Ht' Hv'.
    apply (renumbered_rows_in_range mesh (filter (unmarked mask) (tria3 mesh)) _
                                    (index t') v'); try assumption.
    + symmetry. exact (take_length _ _ _ Hv).
    + rewrite <- Hrows. now apply in_map.
Qed.

(** X7.  When the triangles of a mesh only reference positions of its
    vertex array, the triangles of the mesh that [sieve] returns are
    the triangles without a marked vertex, in their order, each on the
    vertex records and scalar values it had, and they only reference
    positions of the new vertex array. *)
Theorem sieve_keeps_corners (mesh m' : jigsaw_msh_t) (area : option num) :
  sieve mesh area = Ok m' ->
  indices_in_range mesh ->
  exists mask,
    sieve_vert2_mask mesh area = Ok mask /\
    map (corner_verts m') (tria3 m')
    = map (corner_verts mesh) (filter (unmarked mask) (tria3 mesh)) /\
    map (corner_values m') (tria3 m')
    = map (corner_values mesh) (filter (unmarked mask) (tria3 mesh)) /\
    indices_in_range m'.
Proof. intros; eapply sieve_corners; eassumption. Qed.

End SieveCorners.

Lemma square_with_floating_triangle_in_range :
  indices_in_range square_with_floating_triangle.
Proof.
  intros t v Ht Hv. unfold references in Hv.
  repeat (destruct Ht as [<- | Ht];
          [simpl in Hv; simpl; repeat (destruct Hv as [<- | Hv]; [lia |]); contradiction |]).
  contradiction.
Qed.

Lemma sieve_keeps_corners_witness :
  exists m',
    sieve (G := exact_geom) square_with_floating_triangle None = Ok m' /\
    indices_in_range square_with_floating_triangle /\
    exists mask,
      sieve_vert2_mask (G := exact_geom) square_with_floating_triangle None = Ok mask /\
      map (corner_verts m') (tria3 m')
      = map (corner_verts square_with_floating_triangle)
            (filter (unmarked mask) (tria3 square_with_floating_triangle)) /\
      map (corner_values m') (tria3 m')
      = map (corner_values square_with_floating_triangle)
            (filter (unmarked mask) (tria3 square_with_floating_triangle)) /\
      indices_in_range m'.
Proof.
  destruct (sieve (G := exact_geom) square_with_floating_triangle None) as [m' | e] eqn:E.
  - exists m'. split; [reflexivity |].
    split; [exact square_with_floating_triangle_in_range |].
    exact (sieve_keeps_corners (G := exact_geom) _ _ _ E
             square_with_floating_triangle_in_range).
  - vm_compute in E. discriminate E.
Defined.

(** ** put_IDtags *)

Lemma enumerate_fst {A : Type} (l : list A) : map fst (enumerate l) = seq 0 (length l).
Proof.
  unfold enumerate. generalize 0. induction l as [| x l IH]; intros k; simpl;
    [reflexivity | now rewrite IH].
Qed.

Lemma enumerate_snd {A : Type} (l : list A) : map snd (enumerate l) = l.
Proof.
  unfold enumerate. generalize 0. induction l as [| x l IH]; intros k; simpl;
    [reflexivity | now rewrite IH].
Qed.

Lemma tags_of_enumerate {A : Type} (l : list A) :
  map (fun it : nat * A => Z.of_nat (fst it + 1)) (enumerate l)
  = map Z.of_nat (seq 1 (length l)).
Proof.
  rewrite <- (map_map fst (fun i => Z.of_nat (i + 1))), enumerate_fst.
  rewrite <- seq_shift, map_map. apply map_ext. intros i. f_equal. lia.
Qed.

(** Tagging again a table that was tagged by position changes nothing. *)
Lemma retag_twice_from {A B : Type} (proj : A -> B) (mk : B -> Z -> A) (l : list A)
    (k : nat) :
  (forall b z, proj (mk b z) = b) ->
  let tag := fun it : nat * A => mk (proj (snd it)) (Z.of_nat (fst it + 1)) in
  map tag (combine (seq k (length (map tag (combine (seq k (length l)) l))))
                   (map tag (combine (seq k (length l)) l)))
  = map tag (combine (seq k (length l)) l).
Proof.
  intros Hproj tag. revert k.
  induction l as [| x l IH]; intros k; simpl; [reflexivity |].
  f_equal; [| apply IH].
  unfold tag. simpl. now rewrite Hproj.
Qed.

Lemma retag_twice {A B : Type} (proj : A -> B) (mk : B -> Z -> A) (l : list A) :
  (forall b z, proj (mk b z) = b) ->
  let tag := fun it : nat * A => mk (proj (snd it)) (Z.of_nat (fst it + 1)) in
  map tag (enumerate (map tag (enumerate l))) = map tag (enumerate l).
Proof. intros Hproj. exact (retag_twice_from proj mk l 0 Hproj). Qed.

(** The tables of [put_IDtags], column by column. *)
Lemma put_IDtags_facts (mesh : jigsaw_msh_t) :
  map vert2_IDtag (vert2 (put_IDtags mesh)) = map Z.of_nat (seq 1 (length (vert2 mesh))) /\
  map tria3_IDtag (tria3 (put_IDtags mesh)) = map Z.of_nat (seq 1 (length (tria3 mesh))) /\
  map elem_IDtag (quad4 (put_IDtags mesh)) = map Z.of_nat (seq 1 (length (quad4 mesh))) /\
  map elem_IDtag (hexa8 (put_IDtags mesh)) = map Z.of_nat (seq 1 (length (hexa8 mesh))) /\
  map coord (vert2 (put_IDtags mesh)) = map coord (vert2 mesh) /\
  map index (tria3 (put_IDtags mesh)) = map index (tria3 mesh) /\
  map elem_index (quad4 (put_IDtags mesh)) = map elem_index (quad4 mesh) /\
  map elem_index (hexa8 (put_IDtags mesh)) = map elem_index (hexa8 mesh) /\
  value (put_IDtags mesh) = value mesh /\
  mshID (put_IDtags mesh) = mshID mesh /\
  put_IDtags (put_IDtags mesh) = put_IDtags mesh.
Proof.
  unfold put_IDtags. cbn [vert2 tria3 quad4 hexa8 value mshID].
  rewrite !map_map. cbn [vert2_IDtag tria3_IDtag elem_IDtag coord index elem_index].
  rewrite !tags_of_enumerate.
  rewrite <- !(map_map snd), !enumerate_snd.
  repeat (split; [reflexivity |]).
  f_equal.
  - apply (retag_twice coord mk_vert2). reflexivity.
  - apply (retag_twice index mk_tria3). reflexivity.
  - apply (retag_twice elem_index mk_elem). reflexivity.
  - apply (retag_twice elem_index mk_elem). reflexivity.
Qed.

(** X8.  [put_IDtags] tags the vertexes and every element table
    1, 2, ... in order, leaves coordinates, indexes, scalar values and
    the mesh kind as they are, and applied twice gives what it gives
    once. *)
Theorem put_IDtags_tags_by_position (mesh : jigsaw_msh_t) :
  map vert2_IDtag (vert2 (put_IDtags mesh)) = map Z.of_nat (seq 1 (length (vert2 mesh))) /\
  map tria3_IDtag (tria3 (put_IDtags mesh)) = map Z.of_nat (seq 1 (length (tria3 mesh))) /\
  map elem_IDtag (quad4 (put_IDtags mesh)) = map Z.of_nat (seq 1 (length (quad4 mesh))) /\
  map elem_IDtag (hexa8 (put_IDtags mesh)) = map Z.of_nat (seq 1 (length (hexa8 mesh))) /\
  map coord (vert2 (put_IDtags mesh)) = map coord (vert2 mesh) /\
  map index (tria3 (put_IDtags mesh)) = map index (tria3 mesh) /\
  map elem_index (quad4 (put_IDtags mesh)) = map elem_index (quad4 mesh) /\
  map elem_index (hexa8 (put_IDtags mesh)) = map elem_index (hexa8 mesh) /\
  value (put_IDtags mesh) = value mesh /\
  mshID (put_IDtags mesh) = mshID mesh /\
  put_IDtags (put_IDtags mesh) = put_IDtags mesh.
Proof. intros; eapply put_IDtags_facts; eassumption. Qed.

(** ** The rings and the checks read coordinates and triangle rows only *)

Section ReadSet.

Context {G : Geom}.

Lemma mesh_to_tri_same (m1 m2 : jigsaw_msh_t) :
  same_geometry m1 m2 -> mesh_to_tri m1 = mesh_to_tri m2.
Proof.
  intros [Hc Hi]. unfold mesh_to_tri.
  rewrite <- !(map_map coord fst), <- !(map_map coord snd).
  now rewrite Hc, Hi.
Qed.

Lemma index_ring_collection_same (m1 m2 : jigsaw_msh_t) :
  same_geometry m1 m2 -> index_ring_collection m1 = index_ring_collection m2.
Proof.
  intros Hg. unfold index_ring_collection, boundary_rings.
  rewrite (mesh_to_tri_same m1 m2 Hg). destruct Hg as [Hc _]. now rewrite Hc.
Qed.

(** Meshes with the same geometry pass the same checks. *)
Lemma checks_same (m1 m2 : jigsaw_msh_t) (area : option num) :
  same_geometry m1 m2 ->
  index_ring_collection m1 = index_ring_collection m2 /\
  has_pinched_nodes m1 = has_pinched_nodes m2 /\
  needs_sieve m1 area = needs_sieve m2 area.
Proof.
  intros Hg. pose proof (index_ring_collection_same m1 m2 Hg) as Hirc.
  split; [exact Hirc |]. split.
  - unfold has_pinched_nodes, inner_ring_collection. now rewrite Hirc.
  - unfold needs_sieve, geom_to_multipolygon. rewrite Hirc.
    destruct Hg as [Hc _]. now rewrite Hc.
Qed.

(** X9.  The ring extraction and the two checks of the repair loop
    only read the coordinates and the triangle rows: meshes that agree
    on them (whatever their tags, scalar values and other tables) get
    the same regions, the same [has_pinched_nodes] and the same
    [needs_sieve]. *)
Theorem checks_read_geometry_only (m1 m2 : jigsaw_msh_t) (area : option num) :
  same_geometry m1 m2 ->
  index_ring_collection m1 = index_ring_collection m2 /\
  has_pinched_nodes m1 = has_pinched_nodes m2 /\
  needs_sieve m1 area = needs_sieve m2 area.
Proof. intros; eapply checks_same; eassumption. Qed.

Lemma put_IDtags_same_geometry (mesh : jigsaw_msh_t) :
  same_geometry (put_IDtags mesh) mesh.
Proof.
  destruct (put_IDtags_facts mesh) as (_ & _ & _ & _ & Hc & Hi & _).
  now split.
Qed.

Lemma finalize_loop_post (fuel : nat) (mesh m' : jigsaw_msh_t) (area : option num) :
  finalize_loop fuel mesh area = Ok m' -> repair_needed m' = Ok false.
Proof.
  revert mesh. induction fuel as [| fuel IH]; simpl; intros mesh H; [discriminate |].
  inv_bind H. destruct a.
  - inv_bind H. inv_bind H. now apply (IH a0).
  - now injection H as <-.
Qed.

(** X10.  When [finalize_mesh] returns, the mesh it returns passes
    both checks of its loop: [needs_sieve] with the default threshold
    and [has_pinched_nodes] are false on it. *)
Theorem finalize_mesh_result_is_clean
    (fuel : nat) (mesh m' : jigsaw_msh_t) (area : option num) :
  finalize_mesh fuel mesh area = Ok m' ->
  needs_sieve m' None = Ok false /\ has_pinched_nodes m' = Ok false.
Proof.
  intros H. unfold finalize_mesh in H. inv_bind H. inv_bind H. injection H as <-.
  apply finalize_loop_post in E0.
  destruct (checks_same (put_IDtags a0) a0 None
              (put_IDtags_same_geometry a0)) as (_ & Hp & Hn).
  rewrite Hp, Hn. unfold repair_needed in E0.
  destruct (needs_sieve a0 None) as [[|] | e]; simpl in E0; try discriminate.
  now split.
Qed.

(** X11.  On a mesh without pinched nodes [cleanup_pinched_nodes]
    changes nothing. *)
Theorem cleanup_pinched_nodes_without_pinch (mesh : jigsaw_msh_t) :
  has_pinched_nodes mesh = Ok false ->
  cleanup_pinched_nodes mesh = Ok mesh.
Proof.
  intros H. unfold has_pinched_nodes in H. inv_bind H. rename a into inner.
  injection H as H. apply Nat.ltb_ge in H.
  assert (Hnil : repeated_nodes (all_nodes inner) = [])
    by (apply length_zero_iff_nil; lia).
  rewrite (cleanup_pinched_nodes_filter mesh inner E). f_equal.
  replace (filter (fun t => negb (touches_pinched inner t)) (tria3 mesh))
    with (tria3 mesh); [now destruct mesh |].
  symmetry. apply forallb_filter_id. apply forallb_forall. intros t _.
  apply negb_true_iff, touches_pinched_spec. intros v _ Hp.
  apply repeated_nodes_pinched in Hp. now rewrite Hnil in Hp.
Qed.

Lemma take_In {A : Type} (a r : list A) (idxs : list nat) (x : A) :
  np.take a idxs = Ok r -> In x r -> In x a.
Proof.
  revert r. induction idxs as [| i idxs IH]; simpl; intros r H Hx.
  - injection H as <-. contradiction.
  - inv_bind H. inv_bind H. injection H as <-. destruct Hx as [<- | Hx].
    + unfold np.getitem in E. destruct (nth_error a i) eqn:En; [| discriminate].
      injection E as <-. eapply nth_error_In. eassumption.
    + now apply (IH a1).
Qed.

Lemma cleanup_pinched_nodes_keeps_rows (m m1 : jigsaw_msh_t) :
  cleanup_pinched_nodes m = Ok m1 ->
  vert2 m1 = vert2 m /\ forall t, In t (tria3 m1) -> In t (tria3 m).
Proof.
  intros H. unfold cleanup_pinched_nodes in H. inv_bind H. inv_bind H.
  injection H as <-. simpl. split; [reflexivity |].
  intros t Ht. eapply take_In; eassumption.
Qed.

(** X12.  When the triangles of a mesh only reference positions of its
    vertex array, so do the triangles of the mesh that [finalize_mesh]
    returns. *)
Theorem finalize_mesh_in_range
    (fuel : nat) (mesh m' : jigsaw_msh_t) (area : option num) :
  indices_in_range mesh ->
  finalize_mesh fuel mesh area = Ok m' ->
  indices_in_range m'.
Proof.
  intros Hrange H. unfold finalize_mesh in H. inv_bind H. inv_bind H. injection H as <-.
  assert (Hloop : forall f m m1, indices_in_range m -> finalize_loop f m area = Ok m1 ->
                                 indices_in_range m1).
  { induction f as [| f IH]; simpl; intros m m1 Hm Hf; [discriminate |].
    inv_bind Hf. destruct a1.
    - inv_bind Hf. inv_bind Hf. apply (IH a2 m1); [| exact Hf].
      destruct (sieve_corners a1 a2 area E3) as (_ & _ & _ & _ & Hr); [| exact Hr].
      destruct (cleanup_pinched_nodes_keeps_rows m a1 E2) as [Hv Hk].
      intros t v Ht Hv'. rewrite Hv. apply (Hm t v); [now apply Hk | exact Hv'].
    - now injection Hf as <-. }
  assert (H0 : indices_in_range a).
  { now destruct (cleanup_isolates_corners mesh a E Hrange) as (_ & _ & _ & Hr). }
  pose proof (Hloop fuel a a0 H0 E0) as H1.
  destruct (put_IDtags_facts a0) as (_ & _ & _ & _ & Hc & Hi & _).
  intros t v Ht Hv.
  assert (Hlen : length (vert2 (put_IDtags a0)) = length (vert2 a0)).
  { rewrite <- (length_map coord), Hc. apply length_map. }
  rewrite Hlen.
  assert (Hrow : In (index t) (map index (tria3 a0))) by (rewrite <- Hi; now apply in_map).
  apply in_map_iff in Hrow. destruct Hrow as (t0 & Ht0 & Hin0).
  apply (H1 t0 v Hin0). unfold references in *. now rewrite Ht0.
Qed.

End ReadSet.

Lemma indices_in_range_by_rows (mesh : jigsaw_msh_t) :
  forallb (fun t => forallb (fun v => v <? length (vert2 mesh)) (row_list (index t)))
          (tria3 mesh) = true ->
  indices_in_range mesh.
Proof.
  intros H t v Ht Hv. rewrite forallb_forall in H. specialize (H t Ht).
  rewrite forallb_forall in H. now apply Nat.ltb_lt, H.
Qed.

Lemma checks_read_geometry_only_witness :
  same_geometry (put_IDtags (set_value square_ring [])) square_ring /\
  index_ring_collection (G := exact_geom) (put_IDtags (set_value square_ring []))
  = index_ring_collection (G := exact_geom) square_ring /\
  has_pinched_nodes (G := exact_geom) (put_IDtags (set_value square_ring []))
  = has_pinched_nodes (G := exact_geom) square_ring /\
  needs_sieve (G := exact_geom) (put_IDtags (set_value square_ring [])) (Some 5%Q)
  = needs_sieve (G := exact_geom) square_ring (Some 5%Q).
Proof.
  assert (H : same_geometry (put_IDtags (set_value square_ring [])) square_ring)
    by (split; reflexivity).
  split; [exact H |].
  exact (checks_read_geometry_only (G := exact_geom) _ _ (Some 5%Q) H).
Defined.

Lemma finalize_mesh_result_is_clean_witness :
  exists m',
    finalize_mesh (G := exact_geom) 3 pinched_grid None = Ok m' /\
    needs_sieve (G := exact_geom) m' None = Ok false /\
    has_pinched_nodes (G := exact_geom) m' = Ok false.
Proof.
  destruct (finalize_mesh (G := exact_geom) 3 pinched_grid None) as [m' | e] eqn:E.
  - exists m'. split; [reflexivity |].
    exact (finalize_mesh_result_is_clean (G := exact_geom) 3 pinched_grid m' None E).
  - vm_compute in E. discriminate E.
Defined.

Lemma cleanup_pinched_nodes_without_pinch_witness :
  has_pinched_nodes (G := exact_geom) square_ring = Ok false /\
  cleanup_pinched_nodes (G := exact_geom) square_ring = Ok square_ring.
Proof.
  assert (H : has_pinched_nodes (G := exact_geom) square_ring = Ok false)
    by (vm_compute; reflexivity).
  split; [exact H |].
  exact (cleanup_pinched_nodes_without_pinch (G := exact_geom) square_ring H).
Defined.

Lemma finalize_mesh_in_range_witness :
  indices_in_range pinched_grid /\
  exists m',
    finalize_mesh (G := exact_geom) 3 pinched_grid None = Ok m' /\
    indices_in_range m'.
Proof.
  assert (H : indices_in_range pinched_grid)
    by (apply indices_in_range_by_rows; vm_compute; reflexivity).
  split; [exact H |].
  destruct (finalize_mesh (G := exact_geom) 3 pinched_grid None) as [m' | e] eqn:E.
  - exists m'. split; [reflexivity |].
    exact (finalize_mesh_in_range (G := exact_geom) 3 pinched_grid m' None H E).
  - vm_compute in E. discriminate E.
Defined.

(** ** index_ring_collection: the regions are opened by area *)

Lemma pop_nth_error {A : Type} (l r : list A) (i : nat) (x : A) :
  py.pop l i = Ok (x, r) -> nth_error l i = Some x.
Proof.
  revert i r. induction l as [| y l IH]; intros [| i] r H; simpl in H; try discriminate.
  - now injection H as <- _.
  - inv_bind H. destruct a as [z r']. injection H as <- _. simpl. eapply IH. exact E.
Qed.

Lemma pop_Forall2 {A B : Type} (R : A -> B -> Prop) (l l' : list A) (m m' : list B)
    (i : nat) (x : A) (y : B) :
  Forall2 R l m -> py.pop l i = Ok (x, l') -> py.pop m i = Ok (y, m') ->
  R x y /\ Forall2 R l' m'.
Proof.
  intros HF. revert i l' m'.
  induction HF as [| a b l m Hab HF IH]; intros [| i] l' m' Hl Hm; simpl in *;
    try discriminate.
  - injection Hl as <- <-. injection Hm as <- <-. now split.
  - inv_bind Hl. destruct a0 as [x0 r0]. injection Hl as <- <-.
    inv_bind Hm. destruct a0 as [y0 s0]. injection Hm as <- <-.
    destruct (IH _ _ _ E E0) as [Hxy HF']. split; [exact Hxy | now constructor].
Qed.

Lemma pop_interiors_sync (R : ring_t -> num -> Prop) (idxs : list nat)
    (pool pool' : list ring_t) (areas areas' : list num) (ints ints' : list ring_t) :
  Forall2 R pool areas ->
  pop_interiors idxs pool areas ints = Ok (pool', areas', ints') ->
  Forall2 R pool' areas'.
Proof.
  revert pool areas ints.
  induction idxs as [| i idxs IH]; simpl; intros pool areas ints HF H.
  - now injection H as <- <- _.
  - inv_bind H. destruct a as [r pool1]. inv_bind H. destruct a as [x areas1].
    destruct (pop_Forall2 R _ _ _ _ _ _ _ HF E E0) as [_ HF'].
    eapply IH; eassumption.
Qed.

Lemma index_from_Qeq (mx : num) (l : list num) (k idx : nat) :
  py.index_from Qeq_bool k mx l = Ok idx ->
  exists a, k <= idx /\ nth_error l (idx - k) = Some a /\ (a == mx)%Q.
Proof.
  revert k. induction l as [| y l IH]; simpl; intros k H; [discriminate |].
  destruct (Qeq_bool y mx) eqn:E.
  - injection H as <-. exists y. rewrite Nat.sub_diag. split; [lia |].
    split; [reflexivity | now apply Qeq_bool_iff].
  - destruct (IH _ H) as (a & Hk & Hn & Ha). exists a. split; [lia |].
    split; [| exact Ha]. replace (idx - k) with (S (idx - S k)) by lia. exact Hn.
Qed.

Lemma argmax_spec (areas : list num) (idx : nat) :
  argmax areas = Ok idx ->
  exists a, nth_error areas idx = Some a /\ forall b, In b areas -> (b <= a)%Q.
Proof.
  unfold argmax, py.index. intros H. inv_bind H. rename a into mx.
  apply np_max_spec in E. destruct E as [_ Hmax].
  apply index_from_Qeq in H. destruct H as (a & _ & Hn & Ha).
  rewrite Nat.sub_0_r in Hn. exists a. split; [exact Hn |].
  intros b Hb. rewrite Ha. now apply Hmax.
Qed.

Section ExteriorsByArea.

Context {G : Geom}.

Lemma ring_areas_sync (vs : list coord_t) (rings : list ring_t) (areas : list num) :
  ring_areas vs rings = Ok areas ->
  Forall2 (fun r a => ring_area vs r = Ok a) rings areas.
Proof. intros H. exact (mapM_Forall2 _ _ _ H). Qed.

Lemma exteriors_dominate_later (vs : list coord_t) (regions : list polygon_t)
    (later later' : list ring_t) :
  (forall r, In r later' -> In r later) ->
  exteriors_dominate vs regions later -> exteriors_dominate vs regions later'.
Proof.
  intros Hsub. induction regions as [| p rest IH]; simpl; [trivial |].
  intros [Hp Hrest]. split; [| now apply IH].
  intros r Hr. apply Hp. rewrite !in_app_iff in *. intuition.
Qed.

Lemma exteriors_dominate_app (vs : list coord_t) (c d : list polygon_t)
    (later : list ring_t) :
  exteriors_dominate vs (c ++ d) later <->
  exteriors_dominate vs c (rings_of d ++ later) /\ exteriors_dominate vs d later.
Proof.
  induction c as [| p c IH]; simpl; [tauto |].
  rewrite IH, rings_of_app, <- !app_assoc. tauto.
Qed.

(** The largest ring is taken out: the rings that remain are no larger,
    and they stay in step with their areas. *)
Lemma argmax_pop_dominates (vs : list coord_t) (rings pool : list ring_t)
    (areas areas' : list num) (idx : nat) (ext : ring_t) (a : num) :
  Forall2 (fun r a => ring_area vs r = Ok a) rings areas ->
  argmax areas = Ok idx ->
  py.pop rings idx = Ok (ext, pool) ->
  py.pop areas idx = Ok (a, areas') ->
  Forall2 (fun r a => ring_area vs r = Ok a) pool areas' /\
  forall r, In r pool -> no_larger vs r ext.
Proof.
  intros HF Hidx Hr Ha.
  destruct (pop_Forall2 _ _ _ _ _ _ _ _ HF Hr Ha) as [Hext HF'].
  split; [exact HF' |]. intros r Hin.
  destruct (Forall2_In_left _ _ _ _ HF' Hin) as (b & Hb & Hrb).
  exists b, a. split; [exact Hrb |]. split; [exact Hext |].
  destruct (argmax_spec _ _ Hidx) as (a' & Hn & Hmax).
  apply pop_nth_error in Ha as Hn'. rewrite Hn in Hn'. injection Hn' as ->.
  apply Hmax. apply pop_perm in Ha.
  eapply Permutation_in; [symmetry; exact Ha | now right].
Qed.

Lemma classify_nonempty (fuel : nat) (vs : list coord_t) (pool : list ring_t)
    (areas : list num) (path : list coord_t) (done : list polygon_t) (cur : polygon_t)
    (c : list polygon_t) :
  classify fuel vs pool areas path done cur = Ok c -> c <> [].
Proof.
  revert pool areas path done cur.
  induction fuel as [| fuel IH]; intros pool areas path done cur H.
  - destruct pool; simpl in H; [| discriminate].
    injection H as <-. now destruct done.
  - simpl in H. destruct pool as [| r0 pool0].
    + injection H as <-. now destruct done.
    + inv_bind H. inv_bind H. inv_bind H. destruct a1 as [[pool1 areas1] ints].
      destruct pool1 as [| r1 pool1'].
      * now apply IH in H.
      * inv_bind H. inv_bind H. destruct a2 as [ext pool2].
        inv_bind H. destruct a2 as [? areas2]. inv_bind H.
        now apply IH in H.
Qed.

Lemma classify_dominates (fuel : nat) (vs : list coord_t) (pool : list ring_t)
    (areas : list num) (path : list coord_t) (done : list polygon_t) (cur : polygon_t)
    (c : list polygon_t) :
  classify fuel vs pool areas path done cur = Ok c ->
  Forall2 (fun r a => ring_area vs r = Ok a) pool areas ->
  exteriors_dominate vs (done ++ [cur]) pool ->
  exteriors_dominate vs c [].
Proof.
  revert pool areas path done cur.
  induction fuel as [| fuel IH]; intros pool areas path done cur H HF Hinv.
  - destruct pool; simpl in H; [| discriminate]. now injection H as <-.
  - simpl in H. destruct pool as [| r0 pool0] eqn:Epool.
    + now injection H as <-.
    + rewrite <- Epool in *. clear Epool.
      inv_bind H. inv_bind H. inv_bind H. destruct a1 as [[pool1 areas1] ints].
      pose proof (pop_interiors_sync _ _ _ _ _ _ _ _ HF E1) as HF1.
      apply pop_interiors_perm in E1. destruct E1 as [Hp _].
      assert (Hsame : forall r, In r (ints ++ pool1) -> In r (interiors cur ++ pool)).
      { intros r Hr. eapply Permutation_in; [exact Hp | exact Hr]. }
      apply exteriors_dominate_app in Hinv. destruct Hinv as [Hdone [Hcur _]].
      simpl in Hdone. rewrite app_nil_r in Hdone.
      assert (Hcur1 : forall r, In r (ints ++ pool1) -> no_larger vs r (exterior cur)).
      { intros r Hr. apply Hcur. simpl. now apply Hsame. }
      assert (Hdone1 : exteriors_dominate vs done ((exterior cur :: ints) ++ pool1)).
      { eapply exteriors_dominate_later; [| exact Hdone].
        simpl. intros r [<- | Hr]; [now left | right]. now apply Hsame. }
      destruct pool1 as [| r1 pool1'] eqn:Epool1.
      * apply (IH _ _ _ _ _ H HF1).
        apply exteriors_dominate_app. simpl. rewrite !app_nil_r in *.
        split; [exact Hdone1 |]. split; [exact Hcur1 | exact I].
      * rewrite <- Epool1 in *. clear Epool1.
        inv_bind H. rename a1 into idx. inv_bind H. destruct a1 as [ext pool2].
        inv_bind H. destruct a1 as [ar areas2]. inv_bind H.
        destruct (argmax_pop_dominates vs _ _ _ _ _ _ _ HF1 E1 E2 E3) as [HF2 Hnew].
        assert (Hpool1 : forall r, In r pool1 <-> ext = r \/ In r pool2).
        { intros r. apply pop_perm in E2. split; intros Hr.
          - exact (Permutation_in r E2 Hr).
          - exact (Permutation_in r (Permutation_sym E2) Hr). }
        apply (IH _ _ _ _ _ H HF2).
        rewrite <- app_assoc. apply exteriors_dominate_app.
        split; [| simpl; split; [| split; [| exact I]]].
        -- eapply exteriors_dominate_later; [| exact Hdone1].
           intros r. simpl. rewrite !in_app_iff. simpl. rewrite Hpool1.
           simpl. tauto.
        -- intros r Hr. apply Hcur1. revert Hr.
           rewrite !in_app_iff, Hpool1. simpl. tauto.
        -- intros r Hr. simpl in Hr. now apply Hnew.
Qed.

Lemma classify_rings_dominates (vs : list coord_t) (rings : list ring_t)
    (c : list polygon_t) :
  classify_rings vs rings = Ok c -> c <> [] /\ exteriors_dominate vs c [].
Proof.
  unfold classify_rings. intros H.
  inv_bind H. rename a into areas. inv_bind H. rename a into idx.
  inv_bind H. destruct a as [ext pool]. inv_bind H. destruct a as [a areas'].
  inv_bind H. rename a0 into path.
  apply ring_areas_sync in E.
  destruct (argmax_pop_dominates vs _ _ _ _ _ _ _ E E0 E1 E2) as [HF Hnew].
  split; [now apply classify_nonempty in H |].
  apply (classify_dominates _ _ _ _ _ _ _ _ H HF).
  simpl. split; [| exact I]. intros r Hr. simpl in Hr. now apply Hnew.
Qed.

Lemma index_ring_collection_nonempty (mesh : jigsaw_msh_t) (c : list polygon_t) :
  index_ring_collection mesh = Ok c -> c <> [].
Proof.
  unfold index_ring_collection. intros H. inv_bind H.
  now apply classify_rings_dominates in H.
Qed.

(** X13.  [index_ring_collection] never returns an empty dictionary,
    and it opens its regions by area: the exterior ring of every region
    is no smaller (by the area of the ring) than the holes of the
    region and than every ring of the regions after it; the exterior
    of the first region is the largest ring of all. *)
Theorem index_ring_collection_exteriors_by_area
    (mesh : jigsaw_msh_t) (regions : list polygon_t) :
  index_ring_collection mesh = Ok regions ->
  regions <> [] /\ exteriors_dominate (map coord (vert2 mesh)) regions [].
Proof.
  unfold index_ring_collection. intros H. inv_bind H.
  now apply classify_rings_dominates in H.
Qed.

(** X14.  Once the polygons of the regions and their areas are
    computed, [needs_sieve] returns: it answers [True] exactly when a
    region has an area at most the threshold, and without a threshold
    exactly when a region is strictly smaller than another one. *)
Theorem needs_sieve_answer
    (mesh : jigsaw_msh_t) (area : option num) (mp : list shapely_polygon)
    (areas : list num) :
  geom_to_multipolygon mesh = Ok mp ->
  mapM polygon_area mp = Ok areas ->
  exists b,
    needs_sieve mesh area = Ok b /\
    (b = true <->
     exists a, In a areas /\
               match area with
               | Some t => (a <= t)%Q
               | None => exists a', In a' areas /\ (a < a')%Q
               end).
Proof.
  intros Hmp Hareas.
  assert (Hne : areas <> []).
  { unfold geom_to_multipolygon in Hmp. inv_bind Hmp. rename a into c.
    apply index_ring_collection_nonempty in E.
    apply mapM_length in Hmp. apply mapM_length in Hareas.
    destruct areas; [| discriminate]. destruct c; [congruence |].
    simpl in *. lia. }
  assert (Hsel : exists remove, select_remove areas area = Ok remove).
  { destruct area as [t |]; simpl; [eauto |].
    destruct areas as [| x areas]; [congruence |]. simpl. eauto. }
  destruct Hsel as [remove Hsel].
  exists (0 <? length remove). split.
  - unfold needs_sieve. rewrite Hmp. cbn [bind]. rewrite Hareas. cbn [bind].
    now rewrite Hsel.
  - pose proof (select_remove_spec _ _ _ Hsel) as Hspec.
    rewrite Nat.ltb_lt. split.
    + intros Hlen. destruct remove as [| i remove]; [simpl in Hlen; lia |].
      destruct (proj1 (Hspec i) (or_introl eq_refl)) as (a & Hn & Ha).
      exists a. split; [eapply nth_error_In; exact Hn | exact Ha].
    + intros (a & Hin & Ha). apply In_nth_error in Hin. destruct Hin as [i Hn].
      assert (Hi : In i remove) by (apply Hspec; eauto).
      destruct remove; [contradiction | simpl; lia].
Qed.

End ExteriorsByArea.

(** ** has_pinched_nodes *)

Section PinchCheck.

Context {G : Geom}.

(** X15.  [has_pinched_nodes] answers [True] exactly when some vertex
    has more than one occurrence in the hole rings of all the regions,
    counted on the rings. *)
Theorem has_pinched_nodes_answer (mesh : jigsaw_msh_t) (inner : list (list ring_t)) :
  inner_ring_collection mesh = Ok inner ->
  exists b,
    has_pinched_nodes mesh = Ok b /\
    (b = true <-> exists v, pinched_node inner v).
Proof.
  intros H. exists (0 <? length (repeated_nodes (all_nodes inner))). split.
  - unfold has_pinched_nodes. now rewrite H.
  - rewrite Nat.ltb_lt. split.
    + intros Hlen. destruct (repeated_nodes (all_nodes inner)) as [| v l] eqn:E;
        [simpl in Hlen; lia |].
      exists v. apply repeated_nodes_pinched. rewrite E. now left.
    + intros [v Hv]. apply repeated_nodes_pinched in Hv.
      destruct (repeated_nodes (all_nodes inner)); [contradiction | simpl; lia].
Qed.

End PinchCheck.

Lemma index_ring_collection_exteriors_by_area_witness :
  index_ring_collection (G := exact_geom) with_floating_triangle
  = Ok [mk_polygon [(2, 0); (0, 1); (1, 2)] []; mk_polygon [(6, 4); (4, 5); (5, 6)] []] /\
  [mk_polygon [(2, 0); (0, 1); (1, 2)] []; mk_polygon [(6, 4); (4, 5); (5, 6)] []] <> [] /\
  exteriors_dominate (G := exact_geom) (map coord (vert2 with_floating_triangle))
    [mk_polygon [(2, 0); (0, 1); (1, 2)] []; mk_polygon [(6, 4); (4, 5); (5, 6)] []] [].
Proof.
  assert (H : index_ring_collection (G := exact_geom) with_floating_triangle
              = Ok [mk_polygon [(2, 0); (0, 1); (1, 2)] [];
                    mk_polygon [(6, 4); (4, 5); (5, 6)] []])
    by (vm_compute; reflexivity).
  split; [exact H |].
  exact (index_ring_collection_exteriors_by_area (G := exact_geom) _ _ H).
Defined.

Lemma needs_sieve_answer_witness :
  geom_to_multipolygon (G := exact_geom) with_floating_triangle
  = Ok with_floating_triangle_polygons /\
  mapM (polygon_area (G := exact_geom)) with_floating_triangle_polygons = Ok [18%Q; 2%Q] /\
  exists b,
    needs_sieve (G := exact_geom) with_floating_triangle None = Ok b /\
    (b = true <->
     exists a, In a [18%Q; 2%Q] /\ exists a', In a' [18%Q; 2%Q] /\ (a < a')%Q).
Proof.
  assert (H1 : geom_to_multipolygon (G := exact_geom) with_floating_triangle
               = Ok with_floating_triangle_polygons) by (vm_compute; reflexivity).
  assert (H2 : mapM (polygon_area (G := exact_geom)) with_floating_triangle_polygons
               = Ok [18%Q; 2%Q]) by (vm_compute; reflexivity).
  split; [exact H1 |]. split; [exact H2 |].
  exact (needs_sieve_answer (G := exact_geom) with_floating_triangle None _ _ H1 H2).
Defined.

Lemma has_pinched_nodes_answer_witness :
  inner_ring_collection (G := exact_geom) pinched_grid = Ok pinched_grid_inner /\
  hole_occurrences pinched_grid_inner 12 = 2 /\
  has_pinched_nodes (G := exact_geom) pinched_grid = Ok true /\
  exists b,
    has_pinched_nodes (G := exact_geom) pinched_grid = Ok b /\
    (b = true <-> exists v, pinched_node pinched_grid_inner v).
Proof.
  assert (H : inner_ring_collection (G := exact_geom) pinched_grid = Ok pinched_grid_inner)
    by (vm_compute; reflexivity).
  split; [exact H |]. split; [reflexivity |]. split; [vm_compute; reflexivity |].
  exact (has_pinched_nodes_answer (G := exact_geom) pinched_grid _ H).
Defined.

(** ** vertices_around_vertex *)

Lemma others_from_In {A : Type} (i k : nat) (l : list A) (y : A) :
  In y (py.others_from i k l) <-> exists q, k + q <> i /\ nth_error l q = Some y.
Proof.
  revert k. induction l as [| x l IH]; intros k; simpl.
  - split; [contradiction | intros (q & _ & H)]. now destruct q.
  - destruct (i =? k) eqn:E.
    + apply Nat.eqb_eq in E. subst k. rewrite IH. split.
      * intros (q & Hq & Hn). exists (S q). split; [lia | exact Hn].
      * intros ([| q] & Hq & Hn); [lia |]. exists q. split; [lia | exact Hn].
    + apply Nat.eqb_neq in E. simpl. rewrite IH. split.
      * intros [<- | (q & Hq & Hn)].
        -- exists 0. split; [lia | reflexivity].
        -- exists (S q). split; [lia | exact Hn].
      * intros ([| q] & Hq & Hn).
        -- left. simpl in Hn. now injection Hn.
        -- right. exists q. split; [lia | exact Hn].
Qed.

Lemma permutations2_In (l : list nat) (i j : nat) :
  In (i, j) (py.permutations2 l) <-> share_row l i j.
Proof.
  unfold py.permutations2, share_row. rewrite in_flat_map. split.
  - intros ([p x] & Hpx & Hin). apply (enumerate_In l) in Hpx.
    apply in_map_iff in Hin. destruct Hin as (y & Hy & Hin). simpl in *.
    injection Hy as -> ->. apply others_from_In in Hin. destruct Hin as (q & Hq & Hn).
    exists p, q. split; [simpl in Hq; lia |]. now split.
  - intros (p & q & Hpq & Hp & Hq). exists (p, i). split.
    + now apply (enumerate_In l).
    + apply in_map_iff. exists j. split; [reflexivity |].
      apply others_from_In. exists q. split; [simpl; lia | exact Hq].
Qed.

Lemma dd_add_adjacent (d : adjacency) (i j a b : nat) :
  adjacent (dd_add d i j) a b <-> adjacent d a b \/ (a = i /\ b = j).
Proof.
  unfold adjacent. induction d as [| [k s] d IH]; simpl.
  - split.
    + intros (s & [Hs | []] & Hb). injection Hs as <- <-.
      destruct Hb as [<- | []]. now right.
    + intros [(s & [] & _) | [-> ->]]. exists [j]. split; now left.
  - destruct (k =? i) eqn:E.
    + apply Nat.eqb_eq in E. subst k. split.
      * intros (s' & [Hs | Hs] & Hb).
        -- injection Hs as <- <-. apply insert_unique_In in Hb.
           destruct Hb as [-> | Hb]; [now right |].
           left. exists s. split; [now left | exact Hb].
        -- left. exists s'. split; [now right | exact Hb].
      * intros [(s' & [Hs | Hs] & Hb) | [-> ->]].
        -- injection Hs as <- <-. exists (np.insert_unique j s).
           split; [now left |]. apply insert_unique_In. now right.
        -- exists s'. split; [now right | exact Hb].
        -- exists (np.insert_unique j s). split; [now left |].
           apply insert_unique_In. now left.
    + split.
      * intros (s' & [Hs | Hs] & Hb).
        -- left. exists s'. split; [now left | exact Hb].
        -- destruct (proj1 IH (ex_intro _ s' (conj Hs Hb))) as [(s2 & H2 & Hb2) | Heq].
           ++ left. exists s2. split; [now right | exact Hb2].
           ++ now right.
      * intros [(s' & [Hs | Hs] & Hb) | Heq].
        -- exists s'. split; [now left | exact Hb].
        -- destruct (proj2 IH (or_introl (ex_intro _ s' (conj Hs Hb)))) as (s2 & H2 & Hb2).
           exists s2. split; [now right | exact Hb2].
        -- destruct (proj2 IH (or_intror Heq)) as (s2 & H2 & Hb2).
           exists s2. split; [now right | exact Hb2].
Qed.

Lemma dd_add_keys (d : adjacency) (i j : nat) :
  NoDup (map fst d) ->
  NoDup (map fst (dd_add d i j)) /\
  forall k, In k (map fst (dd_add d i j)) <-> In k (map fst d) \/ k = i.
Proof.
  induction d as [| [k s] d IH]; simpl; intros Hnd.
  - split; [constructor; [intros [] | constructor] | intros k; intuition congruence].
  - inversion Hnd as [| ? ? Hk Hd]. subst. destruct (k =? i) eqn:E; simpl.
    + apply Nat.eqb_eq in E. subst k. split; [exact Hnd |]. intros k. intuition congruence.
    + apply Nat.eqb_neq in E. destruct (IH Hd) as [Hnd' Hkeys]. split.
      * constructor; [| exact Hnd']. rewrite Hkeys. intuition congruence.
      * intros k'. rewrite Hkeys. tauto.
Qed.

Lemma append_simplex_adjacent (simplex : list nat) (d : adjacency) (a b : nat) :
  adjacent (append_simplex d simplex) a b <-> adjacent d a b \/ share_row simplex a b.
Proof.
  rewrite <- permutations2_In. unfold append_simplex.
  generalize (py.permutations2 simplex) as ps. intros ps. revert d.
  induction ps as [| [i j] ps IH]; intros d; simpl; [tauto |].
  rewrite IH, dd_add_adjacent. split.
  - intros [[H | [-> ->]] | H]; auto.
  - intros [H | [H | H]]; auto. injection H as -> ->. auto.
Qed.

Lemma append_simplex_keys (simplex : list nat) (d : adjacency) :
  NoDup (map fst d) -> NoDup (map fst (append_simplex d simplex)).
Proof.
  unfold append_simplex. generalize (py.permutations2 simplex) as ps. intros ps. revert d.
  induction ps as [| [i j] ps IH]; intros d Hnd; simpl; [exact Hnd |].
  apply IH. now apply dd_add_keys.
Qed.

Lemma append_geom_adjacent (geom : list (list nat)) (d : adjacency) (a b : nat) :
  adjacent (append_geom d geom) a b <->
  adjacent d a b \/ exists row, In row geom /\ share_row row a b.
Proof.
  unfold append_geom. revert d.
  induction geom as [| row geom IH]; intros d; simpl.
  - split; [auto | intros [H | (row & [] & _)]; exact H].
  - rewrite IH, append_simplex_adjacent. split.
    + intros [[H | H] | (row' & Hin & H)]; eauto 6.
    + intros [H | (row' & [<- | Hin] & H)]; eauto 6.
Qed.

Lemma append_geom_keys (geom : list (list nat)) (d : adjacency) :
  NoDup (map fst d) -> NoDup (map fst (append_geom d geom)).
Proof.
  unfold append_geom. revert d.
  induction geom as [| row geom IH]; intros d Hnd; simpl; [exact Hnd |].
  apply IH. now apply append_simplex_keys.
Qed.

Lemma share_row_sym (row : list nat) (i j : nat) : share_row row i j -> share_row row j i.
Proof. intros (p & q & Hpq & Hp & Hq). exists q, p. repeat split; auto. Qed.

(** X16.  The dictionary of [vertices_around_vertex] has one entry
    per key; [j] is in the set of [i] exactly when [i] and [j] stand at
    two different positions of one row of [tria3], [quad4] or [hexa8];
    so the relation is symmetric. *)
Theorem vertices_around_vertex_neighbours (mesh : jigsaw_msh_t) (d : adjacency) :
  vertices_around_vertex mesh = Ok d ->
  NoDup (map fst d) /\
  (forall i j, adjacent d i j <->
               exists row, In row (element_rows mesh) /\ share_row row i j) /\
  (forall i j, adjacent d i j -> adjacent d j i).
Proof.
  unfold vertices_around_vertex. destruct (String.eqb _ _); [| discriminate].
  intros H. injection H as <-.
  assert (Hadj : forall i j,
             adjacent (append_geom
                         (append_geom
                            (append_geom [] (map (fun t => row_list (index t)) (tria3 mesh)))
                            (map elem_index (quad4 mesh)))
                         (map elem_index (hexa8 mesh))) i j <->
             exists row, In row (element_rows mesh) /\ share_row row i j).
  { intros i j. rewrite !append_geom_adjacent. unfold element_rows. split.
    - intros [[[(s & [] & _) | (row & Hin & H)] | (row & Hin & H)] | (row & Hin & H)];
        exists row; (split; [| exact H]); rewrite !in_app_iff; auto.
    - intros (row & Hin & H). rewrite !in_app_iff in Hin.
      destruct Hin as [Hin | [Hin | Hin]]; eauto 8. }
  split; [| split].
  - repeat apply append_geom_keys. constructor.
  - exact Hadj.
  - intros i j Hij. apply Hadj in Hij. apply Hadj.
    destruct Hij as (row & Hin & H). exists row. split; [exact Hin | now apply share_row_sym].
Qed.

Lemma vertices_around_vertex_neighbours_witness :
  vertices_around_vertex split_triangle
  = Ok [(0, [1; 2; 3]); (1, [0; 2; 3]); (3, [0; 1; 2]); (2, [0; 1; 3])] /\
  NoDup (map fst [(0, [1; 2; 3]); (1, [0; 2; 3]); (3, [0; 1; 2]); (2, [0; 1; 3])]) /\
  (forall i j,
      adjacent [(0, [1; 2; 3]); (1, [0; 2; 3]); (3, [0; 1; 2]); (2, [0; 1; 3])] i j <->
      exists row, In row (element_rows split_triangle) /\ share_row row i j) /\
  (forall i j,
      adjacent [(0, [1; 2; 3]); (1, [0; 2; 3]); (3, [0; 1; 2]); (2, [0; 1; 3])] i j ->
      adjacent [(0, [1; 2; 3]); (1, [0; 2; 3]); (3, [0; 1; 2]); (2, [0; 1; 3])] j i).
Proof.
  assert (H : vertices_around_vertex split_triangle
              = Ok [(0, [1; 2; 3]); (1, [0; 2; 3]); (3, [0; 1; 2]); (2, [0; 1; 3])])
    by reflexivity.
  split; [exact H |].
  exact (vertices_around_vertex_neighbours split_triangle _ H).
Defined.

(** ** limgrad: the field is only lowered *)

Lemma fold_result_inv {S X : Type} (P : S -> Prop) (step : S -> X -> result S)
    (l : list X) (r : result S) (s' : S) :
  (forall s x s1, P s -> step s x = Ok s1 -> P s1) ->
  fold_left (fun acc x => s <- acc ;; step s x) l r = Ok s' ->
  exists s, r = Ok s /\ (P s -> P s').
Proof.
  intros Hstep. revert r. induction l as [| x l IH]; simpl; intros r H.
  - exists s'. now split.
  - destruct (IH _ H) as (s1 & Hb & HP). inv_bind Hb.
    exists a. split; [exact E |]. intros Ha. apply HP. eapply Hstep; eassumption.
Qed.

Lemma setitem_lowers (ffun ffun' ffun0 : list num) (i : nat) (v x : num) :
  np.setitem ffun i v = Ok ffun' ->
  np.getitem ffun i = Ok x ->
  (v <= x)%Q ->
  Forall2 Qle ffun ffun0 -> Forall2 Qle ffun' ffun0.
Proof.
  intros Hset Hget Hv HF. revert i ffun' Hset Hget.
  induction HF as [| a b l m Hab HF IH]; intros [| i] ffun' Hset Hget; simpl in *;
    try discriminate.
  - injection Hset as <-. injection Hget as ->.
    constructor; [| exact HF]. eapply Qle_trans; eassumption.
  - inv_bind Hset. injection Hset as <-. constructor; [exact Hab |].
    eapply IH; eassumption.
Qed.

Lemma fold_nmin_In (a : list num) (x : num) : In (fold_left np.nmin a x) (x :: a).
Proof.
  revert x. induction a as [| y a IH]; intros x; simpl; [now left |].
  destruct (IH (np.nmin x y)) as [H | H]; [| now right; right].
  rewrite <- H. unfold np.nmin. destruct (nlt y x); [right; now left | now left].
Qed.

Lemma np_min_In (a : list num) (mn : num) : np.min a = Ok mn -> In mn a.
Proof.
  destruct a as [| x a]; simpl; intros H; [discriminate |].
  injection H as <-. apply fold_nmin_In.
Qed.

Lemma relax_lowers (elen : list num) (dfdx ftol : num) (it act : nat)
    (st st' : list num * list nat) (adj : nat) (ffun0 : list num) :
  (0 <= ftol)%Q ->
  Forall2 Qle (fst st) ffun0 ->
  relax elen dfdx ftol it act st adj = Ok st' ->
  Forall2 Qle (fst st') ffun0.
Proof.
  intros Htol HF H. destruct st as [ffun aset]. unfold relax in H.
  inv_bind H. rename a into f_adj. inv_bind H. rename a into f_act.
  destruct (ngt f_adj f_act).
  - inv_bind H. rename a into el.
    destruct (ngt f_adj (nadd (nadd f_act (nmul el dfdx)) ftol)) eqn:Eg.
    + inv_bind H. inv_bind H. injection H as <-. simpl in *.
      apply (setitem_lowers _ _ _ _ _ _ E2 E); [| exact HF].
      apply ngt_lt in Eg. unfold nadd in Eg at 1. rewrite Qred_correct in Eg. lra.
    + now injection H as <-.
  - inv_bind H. rename a into el.
    destruct (ngt f_act (nadd (nadd f_adj (nmul el dfdx)) ftol)) eqn:Eg.
    + inv_bind H. inv_bind H. injection H as <-. simpl in *.
      apply (setitem_lowers _ _ _ _ _ _ E2 E0); [| exact HF].
      apply ngt_lt in Eg. unfold nadd in Eg at 1. rewrite Qred_correct in Eg. lra.
    + now injection H as <-.
Qed.

Lemma sweep_lowers (pn : adjacency) (elen : list num) (dfdx ftol : num) (it : nat)
    (st st' : list num * list nat) (ffun0 : list num) :
  (0 <= ftol)%Q ->
  Forall2 Qle (fst st) ffun0 ->
  sweep pn elen dfdx ftol it st = Ok st' ->
  Forall2 Qle (fst st') ffun0.
Proof.
  intros Htol HF H. unfold sweep in H. inv_bind H.
  apply (fold_result_inv (fun s => Forall2 Qle (fst s) ffun0)
           (fun s active_idx =>
              fold_left (fun acc' adj_edge =>
                           s' <- acc' ;; relax elen dfdx ftol it active_idx s' adj_edge)
                        (point_neighbors_of pn active_idx) (Ok s))) in H.
  - destruct H as (s & Hs & HP). injection Hs as <-. now apply HP.
  - intros s act s1 Hs Hfold.
    apply (fold_result_inv (fun s => Forall2 Qle (fst s) ffun0)
             (fun s' adj_edge => relax elen dfdx ftol it act s' adj_edge)) in Hfold.
    + destruct Hfold as (s0 & Hs0 & HP). injection Hs0 as <-. now apply HP.
    + intros s2 adj s3 Hs2 Hr. eapply relax_lowers; eassumption.
Qed.

Lemma limgrad_loop_lowers (n i : nat) (pn : adjacency) (elen : list num)
    (dfdx ftol : num) (st st' : list num * list nat) (k : nat) (ffun0 : list num) :
  (0 <= ftol)%Q ->
  Forall2 Qle (fst st) ffun0 ->
  limgrad_loop n i pn elen dfdx ftol st = Ok (st', k) ->
  Forall2 Qle (fst st') ffun0.
Proof.
  intros Htol. revert i st. induction n as [| n IH]; simpl; intros i st HF H.
  - now injection H as <- _.
  - destruct (length (active_set (snd st) i) =? 0).
    + now injection H as <- _.
    + inv_bind H. apply (IH (S i) a); [| exact H].
      eapply sweep_lowers; eassumption.
Qed.

Lemma Forall2_Qle_refl (l : list num) : Forall2 Qle l l.
Proof. induction l; constructor; [apply Qle_refl | assumption]. Qed.

Lemma limgrad_core_lowers (tris : list (nat * nat * nat)) (elen ffun : list num)
    (dfdx : num) (imax : nat) (f : list num) :
  Forall (fun v => 0 <= v)%Q ffun ->
  limgrad_core tris elen ffun dfdx imax = Ok f ->
  Forall2 Qle f ffun.
Proof.
  intros Hpos H. unfold limgrad_core in H.
  inv_bind H. rename a into mn. inv_bind H. destruct a as [st k].
  destruct imax as [| n]; [discriminate |].
  destruct (k <? S n); [| discriminate]. injection H as <-.
  apply (limgrad_loop_lowers _ _ _ _ _ _ _ _ _ ffun) in E0; [exact E0 | |].
  - apply np_min_In in E. rewrite Forall_forall in Hpos. specialize (Hpos _ E).
    unfold nmul. rewrite Qred_correct. apply Qmult_le_0_compat; [exact Hpos |].
    unfold sqrt_eps. discriminate.
  - apply Forall2_Qle_refl.
Qed.

Section LimgradReturns.

Context {G : Geom}.

(** X17.  On a field without negative values [limgrad] only lowers:
    the field it returns has the length of the field of the mesh and
    is, vertex by vertex, at most that field. *)
Theorem limgrad_only_lowers
    (mesh : jigsaw_msh_t) (dfdx : num) (imax : nat) (f : list num) :
  Forall (fun v => 0 <= v)%Q (value mesh) ->
  limgrad mesh dfdx imax = Ok f ->
  Forall2 Qle f (value mesh).
Proof.
  intros Hpos H. unfold limgrad in H. inv_bind H. inv_bind H.
  eapply limgrad_core_lowers; eassumption.
Qed.

(** X18.  [limgrad] returns a field only when it is given two turns
    at least: with [imax] 0 or 1 it raises on every mesh. *)
Theorem limgrad_needs_two_turns
    (mesh : jigsaw_msh_t) (dfdx : num) (imax : nat) (f : list num) :
  limgrad mesh dfdx imax = Ok f -> 2 <= imax.
Proof.
  unfold limgrad. intros H. inv_bind H. inv_bind H.
  apply limgrad_returns_only_before_cap in H.
  destruct H as (mn & st & k & _ & _ & _ & Hk & _). lia.
Qed.

End LimgradReturns.

Lemma limgrad_only_lowers_witness :
  Forall (fun v => 0 <= v)%Q (value (one_triangle [1; 100; 200]%Z)) /\
  limgrad (G := exact_geom) (one_triangle [1; 100; 200]%Z) 1%Q 100 = Ok [1%Q; 4%Q; 5%Q] /\
  Forall2 Qle [1%Q; 4%Q; 5%Q] (value (one_triangle [1; 100; 200]%Z)).
Proof.
  assert (H0 : Forall (fun v => 0 <= v)%Q (value (one_triangle [1; 100; 200]%Z)))
    by (repeat constructor; discriminate).
  assert (H : limgrad (G := exact_geom) (one_triangle [1; 100; 200]%Z) 1%Q 100
              = Ok [1%Q; 4%Q; 5%Q]) by (vm_compute; reflexivity).
  split; [exact H0 |]. split; [exact H |].
  exact (limgrad_only_lowers (G := exact_geom) _ _ _ _ H0 H).
Defined.

Lemma limgrad_needs_two_turns_witness :
  limgrad (G := exact_geom) (one_triangle [1; 1; 1]%Z) 1%Q 3 = Ok [1%Q; 1%Q; 1%Q] /\ 2 <= 3.
Proof.
  assert (H : limgrad (G := exact_geom) (one_triangle [1; 1; 1]%Z) 1%Q 3
              = Ok [1%Q; 1%Q; 1%Q]) by (vm_compute; reflexivity).
  split; [exact H |].
  exact (limgrad_needs_two_turns (G := exact_geom) _ _ _ _ H).
Defined.

(** ** elements *)

Lemma nodup_length_le (l : list Z) : length (nodup Z.eq_dec l) <= length l.
Proof.
  induction l as [| x l IH]; simpl; [lia |].
  destruct (in_dec Z.eq_dec x l); simpl; lia.
Qed.

Lemma nodup_length_NoDup (l : list Z) :
  length (nodup Z.eq_dec l) = length l <-> NoDup l.
Proof.
  induction l as [| x l IH]; simpl.
  - split; [constructor | reflexivity].
  - pose proof (nodup_length_le l) as Hle.
    destruct (in_dec Z.eq_dec x l) as [Hin | Hnin]; simpl.
    + split; [lia |]. intros H. inversion H. contradiction.
    + split.
      * intros H. constructor; [exact Hnin | apply IH; lia].
      * intros H. inversion H. f_equal. now apply IH.
Qed.

Lemma dict_set_fresh {V : Type} (d : list (Z * V)) (k : Z) (v : V) :
  ~ In k (map fst d) -> dict_set d k v = d ++ [(k, v)].
Proof.
  induction d as [| [k' v'] d IH]; simpl; intros H; [reflexivity |].
  destruct (Z.eqb k' k) eqn:E.
  - apply Z.eqb_eq in E. tauto.
  - f_equal. apply IH. tauto.
Qed.

Lemma firstn_succ {A : Type} (l : list A) (k : nat) (x : A) :
  nth_error l k = Some x -> firstn (S k) l = firstn k l ++ [x].
Proof.
  revert k. induction l as [| y l IH]; intros [| k] H; simpl in *; try discriminate.
  - now injection H as ->.
  - f_equal. now apply IH.
Qed.

(** Setting distinct keys one after the other lists the entries. *)
Lemma dict_of_distinct_keys {V : Type} (ks : list Z) (rows : list V) (k : nat)
    (acc : list (Z * V)) :
  NoDup ks ->
  k + length rows = length ks ->
  map fst acc = firstn k ks ->
  fold_left
    (fun acc ii =>
       d <- acc ;; key <- np.getitem ks (fst ii) ;; Ok (dict_set d key (snd ii)))
    (combine (seq k (length rows)) rows) (Ok acc)
  = Ok (acc ++ combine (skipn k ks) rows).
Proof.
  intros Hnd. revert k acc. induction rows as [| row rows IH]; simpl; intros k acc Hlen Hacc.
  - destruct (skipn k ks); simpl; now rewrite app_nil_r.
  - assert (Hk : k < length ks) by lia.
    destruct (nth_error ks k) as [key |] eqn:Ekey;
      [| apply nth_error_None in Ekey; lia].
    replace (np.getitem ks k) with (Ok key) by (unfold np.getitem; now rewrite Ekey).
    cbn [bind].
    assert (Hsplit : skipn k ks = key :: skipn (S k) ks).
    { clear -Ekey. revert k Ekey. induction ks as [| x ks IH]; intros [| k] E;
        simpl in *; try discriminate.
      - now injection E as ->.
      - now apply IH. }
    assert (Hfresh : ~ In key (map fst acc)).
    { rewrite Hacc. intros Hin.
      rewrite <- (firstn_skipn k ks), Hsplit in Hnd.
      apply NoDup_remove_2 in Hnd. apply Hnd. apply in_or_app. now left. }
    rewrite (dict_set_fresh acc key row Hfresh).
    rewrite (IH (S k) (acc ++ [(key, row)])).
    + rewrite Hsplit. simpl. now rewrite <- app_assoc.
    + lia.
    + rewrite map_app, Hacc. simpl. symmetry. now apply firstn_succ.
Qed.

Lemma NoDup_numbers (k n : nat) : NoDup (map Z.of_nat (seq k n)).
Proof.
  revert k. induction n as [| n IH]; intros k; simpl; constructor; [| apply IH].
  rewrite in_map_iff. intros (x & Hx & Hin). apply in_seq in Hin. lia.
Qed.

Lemma element_tags_rows_length (mesh : jigsaw_msh_t) :
  length (element_tags mesh) = length (element_rows mesh).
Proof. unfold element_tags, element_rows. now rewrite !length_app, !length_map. Qed.

Lemma combine_keys {A B : Type} (la : list A) (lb : list B) :
  length la = length lb -> map fst (combine la lb) = la /\ map snd (combine la lb) = lb.
Proof.
  revert lb. induction la as [| a la IH]; intros [| b lb] H; simpl in *; try discriminate.
  - now split.
  - destruct (IH lb) as [H1 H2]; [lia |]. now rewrite H1, H2.
Qed.

(** The dictionary of [elements] from its keys and its rows. *)
Lemma elements_entries (mesh : jigsaw_msh_t) :
  lower (mshID mesh) = "euclidean-mesh"%string ->
  elements mesh
  = Ok (combine (if negb (length (nodup Z.eq_dec (element_tags mesh))
                          =? length (element_tags mesh))
                 then map Z.of_nat (seq 1 (length (element_tags mesh)))
                 else element_tags mesh)
                (element_rows mesh)).
Proof.
  intros Hid. unfold elements, must_be_euclidean_mesh.
  rewrite Hid, String.eqb_refl. cbn [negb]. unfold enumerate.
  set (ks := if negb _ then _ else _).
  assert (Hks : NoDup ks /\ length ks = length (element_rows mesh)).
  { subst ks. destruct (length (nodup Z.eq_dec (element_tags mesh))
                        =? length (element_tags mesh)) eqn:E; cbn [negb].
    - apply Nat.eqb_eq in E. split; [now apply nodup_length_NoDup |].
      apply element_tags_rows_length.
    - split; [apply NoDup_numbers |].
      rewrite length_map, length_seq. apply element_tags_rows_length. }
  destruct Hks as [Hnd Hlen].
  rewrite (dict_of_distinct_keys ks (element_rows mesh) 0 [] Hnd); [reflexivity | | reflexivity].
  simpl. now rewrite Hlen.
Qed.

(** X19.  On a mesh whose kind is [euclidean-mesh] up to the case of
    its letters, [elements] returns a dictionary with one entry per
    element, in the order [tria3], [quad4], [hexa8], under pairwise
    different keys: the tags of the elements when these are pairwise
    different, and 1, 2, ... otherwise. *)
Theorem elements_one_entry_per_element (mesh : jigsaw_msh_t) :
  lower (mshID mesh) = "euclidean-mesh"%string ->
  exists d,
    elements mesh = Ok d /\
    map snd d = element_rows mesh /\
    NoDup (map fst d) /\
    (NoDup (element_tags mesh) -> map fst d = element_tags mesh) /\
    (~ NoDup (element_tags mesh) ->
     map fst d = map Z.of_nat (seq 1 (length (element_rows mesh)))).
Proof.
  intros Hid. eexists. split; [now apply elements_entries |].
  pose proof (element_tags_rows_length mesh) as Hlen.
  pose proof (nodup_length_NoDup (element_tags mesh)) as Hnd.
  destruct (length (nodup Z.eq_dec (element_tags mesh)) =? length (element_tags mesh)) eqn:E;
    cbn [negb].
  - apply Nat.eqb_eq in E. apply Hnd in E as Hd.
    destruct (combine_keys (element_tags mesh) (element_rows mesh) Hlen) as [-> ->].
    repeat split; auto. intros Hn. contradiction.
  - apply Nat.eqb_neq in E.
    destruct (combine_keys (map Z.of_nat (seq 1 (length (element_tags mesh))))
                           (element_rows mesh)) as [-> ->];
      [rewrite length_map, length_seq; lia |].
    repeat split; auto.
    + apply NoDup_numbers.
    + intros Hd. apply Hnd in Hd. contradiction.
    + intros _. now rewrite Hlen.
Qed.

Lemma numbered_tables (nt nq nh : nat) :
  NoDup (map Z.of_nat (seq 1 nt) ++ map Z.of_nat (seq 1 nq) ++ map Z.of_nat (seq 1 nh)) ->
  map Z.of_nat (seq 1 nt) ++ map Z.of_nat (seq 1 nq) ++ map Z.of_nat (seq 1 nh)
  = map Z.of_nat (seq 1 (nt + nq + nh)).
Proof.
  intros H. destruct nt as [| nt].
  - simpl in *. destruct nq as [| nq]; [reflexivity |].
    destruct nh as [| nh]; [now rewrite app_nil_r, Nat.add_0_r |].
    exfalso. simpl in H. inversion H as [| ? ? Hin _]. apply Hin.
    apply in_or_app. right. now left.
  - destruct nq as [| nq].
    + destruct nh as [| nh]; [simpl; now rewrite app_nil_r, !Nat.add_0_r |].
      exfalso. simpl in H. inversion H as [| ? ? Hin _]. apply Hin.
      apply in_or_app. right. now left.
    + exfalso. simpl in H. inversion H as [| ? ? Hin _]. apply Hin.
      apply in_or_app. right. now left.
Qed.

(** X20.  After [put_IDtags] the keys of [elements] are 1, 2, ... in
    the order of the elements, whatever tables the mesh has. *)
Theorem elements_after_put_IDtags (mesh : jigsaw_msh_t) :
  lower (mshID mesh) = "euclidean-mesh"%string ->
  elements (put_IDtags mesh)
  = Ok (combine (map Z.of_nat (seq 1 (length (element_rows mesh)))) (element_rows mesh)).
Proof.
  intros Hid.
  destruct (put_IDtags_facts mesh)
    as (_ & Ht & Hq & Hh & _ & Hit & Hiq & Hih & _ & Hk & _).
  assert (Hrows : element_rows (put_IDtags mesh) = element_rows mesh).
  { unfold element_rows.
    rewrite <- !(map_map index row_list), Hit, Hiq, Hih. reflexivity. }
  assert (Htags : element_tags (put_IDtags mesh)
                  = map Z.of_nat (seq 1 (length (tria3 mesh))) ++
                    map Z.of_nat (seq 1 (length (quad4 mesh))) ++
                    map Z.of_nat (seq 1 (length (hexa8 mesh)))).
  { unfold element_tags. now rewrite Ht, Hq, Hh. }
  assert (Hlen : length (element_rows mesh)
                 = length (tria3 mesh) + length (quad4 mesh) + length (hexa8 mesh)).
  { unfold element_rows. rewrite !length_app, !length_map. lia. }
  rewrite elements_entries by now rewrite Hk.
  rewrite Hrows. f_equal. f_equal.
  destruct (length (nodup Z.eq_dec (element_tags (put_IDtags mesh)))
            =? length (element_tags (put_IDtags mesh))) eqn:E; cbn [negb].
  - apply Nat.eqb_eq, nodup_length_NoDup in E. rewrite Htags in *.
    rewrite Hlen. now apply numbered_tables.
  - now rewrite element_tags_rows_length, Hrows.
Qed.

Lemma elements_one_entry_per_element_witness :
  lower (mshID mixed_mesh) = "euclidean-mesh"%string /\
  elements mixed_mesh = Ok [(1%Z, [0; 1; 2]); (2%Z, [0; 2; 3]); (3%Z, [1; 4; 5; 2])] /\
  exists d,
    elements mixed_mesh = Ok d /\
    map snd d = element_rows mixed_mesh /\
    NoDup (map fst d) /\
    (NoDup (element_tags mixed_mesh) -> map fst d = element_tags mixed_mesh) /\
    (~ NoDup (element_tags mixed_mesh) ->
     map fst d = map Z.of_nat (seq 1 (length (element_rows mixed_mesh)))).
Proof.
  assert (H : lower (mshID mixed_mesh) = "euclidean-mesh"%string) by reflexivity.
  split; [exact H |]. split; [reflexivity |].
  exact (elements_one_entry_per_element mixed_mesh H).
Defined.

Lemma elements_after_put_IDtags_witness :
  lower (mshID mixed_mesh) = "euclidean-mesh"%string /\
  elements (put_IDtags mixed_mesh)
  = Ok [(1%Z, [0; 1; 2]); (2%Z, [0; 2; 3]); (3%Z, [1; 4; 5; 2])].
Proof.
  assert (H : lower (mshID mixed_mesh) = "euclidean-mesh"%string) by reflexivity.
  split; [exact H |].
  exact (elements_after_put_IDtags mixed_mesh H).
Defined.

(** ** geom_to_multipolygon and sieve return *)

Lemma fold_result_total {S X : Type} (P : S -> Prop) (step : S -> X -> result S)
    (l : list X) (s : S) :
  (forall s x, P s -> In x l -> exists s1, step s x = Ok s1 /\ P s1) ->
  P s ->
  exists s', fold_left (fun acc x => s <- acc ;; step s x) l (Ok s) = Ok s' /\ P s'.
Proof.
  revert s. induction l as [| x l IH]; simpl; intros s Hstep Hs.
  - now exists s.
  - destruct (Hstep s x Hs (or_introl eq_refl)) as (s1 & H1 & HP1).
    rewrite H1. apply IH; [| exact HP1].
    intros s2 y Hs2 Hy. apply Hstep; [exact Hs2 | now right].
Qed.

Section Returns.

Context {G : Geom}.

Lemma ring_areas_coords (vs : list coord_t) (rings : list ring_t) (areas : list num)
    (r : ring_t) :
  ring_areas vs rings = Ok areas -> In r rings ->
  exists pts, coords_of vs (map fst r) = Ok pts.
Proof.
  intros H Hr. apply mapM_Forall2 in H.
  destruct (Forall2_In_left _ _ _ _ H Hr) as (a & _ & Ha).
  inv_bind Ha. destruct a0 as [e0 e1]. inv_bind Ha.
  unfold unzip in E. destruct r; [discriminate |]. injection E as <- _. eauto.
Qed.

Lemma classify_rings_areas (vs : list coord_t) (rings : list ring_t) (c : list polygon_t) :
  classify_rings vs rings = Ok c -> exists areas, ring_areas vs rings = Ok areas.
Proof. unfold classify_rings. intros H. inv_bind H. eauto. Qed.

Lemma geom_to_multipolygon_total (mesh : jigsaw_msh_t) (c : list polygon_t) :
  index_ring_collection mesh = Ok c ->
  exists mp,
    geom_to_multipolygon mesh = Ok mp /\
    Forall2 (polygon_of (map coord (vert2 mesh))) c mp.
Proof.
  intros H. unfold geom_to_multipolygon. rewrite H. cbn [bind].
  unfold index_ring_collection in H. inv_bind H. rename a into rings.
  destruct (classify_rings_areas _ _ _ H) as [areas Hareas].
  apply classify_rings_perm in H.
  assert (Hall : forall r, In r (rings_of c) ->
                           exists pts, coords_of (map coord (vert2 mesh)) (map fst r) = Ok pts).
  { intros r Hr. apply (ring_areas_coords _ rings areas); [exact Hareas |].
    eapply Permutation_in; eassumption. }
  clear H Hareas E. induction c as [| p c IH]; simpl.
  - exists []. split; [reflexivity | constructor].
  - destruct (Hall (exterior p)) as [ext Hext]; [simpl; now left |].
    rewrite Hext. cbn [bind].
    assert (Hints : exists ints,
               mapM (fun interior => coords_of (map coord (vert2 mesh)) (map fst interior))
                    (interiors p) = Ok ints).
    { apply mapM_ok. apply Forall_forall. intros r Hr. apply Hall. simpl.
      right. apply in_or_app. now left. }
    destruct Hints as [ints Hints]. rewrite Hints. cbn [bind].
    destruct IH as (mp & Hmp & HF).
    { intros r Hr. apply Hall. simpl. right. apply in_or_app. now right. }
    rewrite Hmp. cbn [bind]. eexists. split; [reflexivity |].
    constructor; [| exact HF]. split; [exact Hext |]. simpl.
    exact (mapM_Forall2 _ _ _ Hints).
Qed.

(** X21.  [geom_to_multipolygon] returns whenever
    [index_ring_collection] does: it holds one polygon per region, in
    order, the shell and the holes being the coordinates of the start
    vertexes of the edges of the exterior and of the interior rings;
    no lookup of a coordinate fails. *)
Theorem geom_to_multipolygon_returns (mesh : jigsaw_msh_t) (c : list polygon_t) :
  index_ring_collection mesh = Ok c ->
  exists mp,
    geom_to_multipolygon mesh = Ok mp /\
    Forall2 (polygon_of (map coord (vert2 mesh))) c mp.
Proof. intros; eapply geom_to_multipolygon_total; eassumption. Qed.

Lemma lor_length (a b : list bool) :
  length a = length b -> length (np.lor a b) = length a.
Proof.
  revert b. induction a as [| x a IH]; intros [| y b] H; simpl in *; try discriminate;
    [reflexivity |].
  f_equal. apply IH. lia.
Qed.

Lemma mask_inside_total (mp : list shapely_polygon) (coords : list coord_t)
    (remove : list nat) :
  (forall i, In i remove -> i < length mp) ->
  exists mask, mask_inside mp coords remove = Ok mask /\ length mask = length coords.
Proof.
  intros Hrem. unfold mask_inside.
  apply (fold_result_total (fun m => length m = length coords)
           (fun mask idx => p <- np.getitem mp idx ;;
                            Ok (np.lor mask (map (Path_contains_point (exterior_coords p))
                                                 coords)))).
  - intros m idx Hm Hidx. apply Hrem in Hidx.
    unfold np.getitem. destruct (nth_error mp idx) as [p |] eqn:E;
      [| apply nth_error_None in E; lia].
    simpl. eexists. split; [reflexivity |].
    rewrite lor_length; [exact Hm | now rewrite length_map].
  - unfold np.full_false. apply repeat_length.
Qed.

Lemma set_true_total (mask : list bool) (i : nat) :
  i < length mask ->
  exists m, np.set_true mask i = Ok m /\ length m = length mask.
Proof.
  revert i. induction mask as [| b mask IH]; intros [| i] H; simpl in *; try lia.
  - eexists. split; reflexivity.
  - destruct (IH i) as (m & Hm & Hl); [lia |]. rewrite Hm. simpl.
    eexists. split; [reflexivity |]. simpl. now rewrite Hl.
Qed.

Lemma set_true_all_total (idxs : list nat) (mask : list bool) :
  (forall i, In i idxs -> i < length mask) ->
  exists m, np.set_true_all mask idxs = Ok m /\ length m = length mask.
Proof.
  revert mask. induction idxs as [| i idxs IH]; simpl; intros mask H.
  - now exists mask.
  - destruct (set_true_total mask i) as (m1 & H1 & L1); [now apply H; left |].
    rewrite H1. simpl. destruct (IH m1) as (m & Hm & Hl).
    + intros j Hj. rewrite L1. apply H. now right.
    + exists m. split; [exact Hm | congruence].
Qed.

Lemma dd_add_bounded (n : nat) (d : adjacency) (i j : nat) :
  bounded n d -> i < n -> j < n -> bounded n (dd_add d i j).
Proof.
  unfold bounded. intros Hd Hi Hj.
  induction d as [| [k s] d IH]; simpl.
  - intros k s [H | []]. injection H as <- <-. split; [exact Hi |].
    intros j' [<- | []]. exact Hj.
  - destruct (k =? i) eqn:E.
    + intros k' s' [H | H].
      * injection H as <- <-. destruct (Hd k s (or_introl eq_refl)) as [Hk Hs].
        split; [exact Hk |]. intros j' Hj'. apply insert_unique_In in Hj'.
        destruct Hj' as [-> | Hj']; [exact Hj | now apply Hs].
      * apply Hd. now right.
    + intros k' s' [H | H].
      * apply Hd. now left.
      * apply IH; [| exact H]. intros k2 s2 H2. apply Hd. now right.
Qed.

Lemma dd_get_bounded (n : nat) (d d' : adjacency) (i : nat) (s : list nat) :
  bounded n d -> i < n -> dd_get d i = (s, d') ->
  bounded n d' /\ forall j, In j s -> j < n.
Proof.
  unfold bounded. intros Hd Hi. revert s d'.
  induction d as [| [k s0] d IH]; simpl; intros s d' H.
  - injection H as <- <-. split; [| intros j []].
    intros k s [H | []]. injection H as <- <-. split; [exact Hi | intros j []].
  - destruct (k =? i) eqn:E.
    + injection H as <- <-. split; [exact Hd |].
      apply (Hd k s0). now left.
    + destruct (dd_get d i) as [r d''] eqn:Eg. injection H as <- <-.
      destruct (IH (fun k2 s2 H2 => Hd k2 s2 (or_intror H2)) r d'' eq_refl) as [Hb Hr].
      split; [| exact Hr].
      intros k' s' [H | H]; [apply Hd; now left | now apply Hb].
Qed.

Lemma share_row_In (row : list nat) (i j : nat) :
  share_row row i j -> In i row /\ In j row.
Proof.
  intros (p & q & _ & Hp & Hq). split; eapply nth_error_In; eassumption.
Qed.

Lemma append_simplex_bounded (n : nat) (simplex : list nat) (d : adjacency) :
  bounded n d -> (forall v, In v simplex -> v < n) -> bounded n (append_simplex d simplex).
Proof.
  intros Hd Hrow. unfold append_simplex.
  assert (Hps : forall ij, In ij (py.permutations2 simplex) -> fst ij < n /\ snd ij < n).
  { intros [i j] Hij. apply permutations2_In, share_row_In in Hij.
    simpl. split; apply Hrow; tauto. }
  revert d Hd. induction (py.permutations2 simplex) as [| ij ps IH]; intros d Hd; simpl;
    [exact Hd |].
  apply IH.
  - intros x Hx. apply Hps. now right.
  - apply dd_add_bounded; [exact Hd | |]; apply Hps; now left.
Qed.

Lemma append_geom_bounded (n : nat) (geom : list (list nat)) (d : adjacency) :
  bounded n d -> (forall row v, In row geom -> In v row -> v < n) ->
  bounded n (append_geom d geom).
Proof.
  unfold append_geom. revert d. induction geom as [| row geom IH]; intros d Hd Hg; simpl;
    [exact Hd |].
  apply IH.
  - apply append_simplex_bounded; [exact Hd |]. intros v Hv. apply (Hg row); [now left | exact Hv].
  - intros r v Hr Hv. apply (Hg r); [now right | exact Hv].
Qed.

Lemma vertices_around_vertex_total (mesh : jigsaw_msh_t) :
  mshID mesh = "euclidean-mesh"%string ->
  rows_in_range mesh ->
  exists d, vertices_around_vertex mesh = Ok d /\ bounded (length (vert2 mesh)) d.
Proof.
  intros Hid Hrows. unfold vertices_around_vertex. rewrite Hid, String.eqb_refl.
  eexists. split; [reflexivity |].
  unfold rows_in_range, element_rows in Hrows.
  repeat apply append_geom_bounded.
  - intros k s [].
  - intros row v Hr Hv. apply (Hrows row v); [| exact Hv]. apply in_or_app. now left.
  - intros row v Hr Hv. apply (Hrows row v); [| exact Hv].
    apply in_or_app. right. apply in_or_app. now left.
  - intros row v Hr Hv. apply (Hrows row v); [| exact Hv].
    apply in_or_app. right. apply in_or_app. now right.
Qed.

Lemma mask_neighbors_total (mask : list bool) (d : adjacency) :
  bounded (length mask) d ->
  exists m d', mask_neighbors mask d = Ok (m, d') /\
               length m = length mask /\ bounded (length mask) d'.
Proof.
  intros Hd. unfold mask_neighbors.
  destruct (fold_result_total
              (fun st : list bool * adjacency =>
                 length (fst st) = length mask /\ bounded (length mask) (snd st))
              (fun (st : list bool * adjacency) _idx =>
                 let '(m, d) := st in
                 let '(s, d') := dd_get d _idx in
                 m' <- np.set_true_all m s ;; Ok (m', d'))
              (np.where_ mask) (mask, d)) as ([m d'] & Hfold & Hl & Hb).
  - intros [m d0] idx [Hm Hd0] Hidx. simpl in Hm, Hd0.
    apply where_bound in Hidx.
    destruct (dd_get d0 idx) as [s d1] eqn:Eg.
    destruct (dd_get_bounded _ _ _ _ _ Hd0 Hidx Eg) as [Hd1 Hs].
    destruct (set_true_all_total s m) as (m1 & Hm1 & Hl1).
    + intros j Hj. rewrite Hm. now apply Hs.
    + rewrite Hm1. simpl. eexists. split; [reflexivity |]. simpl.
      split; [congruence | exact Hd1].
  - simpl. now split.
  - exists m, d'. split; [| now split].
    rewrite <- Hfold. apply f_equal2; [| reflexivity].
    reflexivity.
Qed.

Lemma mask_dangling_total (mask : list bool) (d : adjacency) :
  bounded (length mask) d ->
  exists m, mask_dangling mask d = Ok m /\ length m = length mask.
Proof.
  intros Hd. unfold mask_dangling.
  apply (fold_result_total (fun m => length m = length mask)
           (fun m (kv : nat * list nat) =>
              if length (snd kv) <=? 2 then np.set_true m (fst kv) else Ok m)).
  - intros m [k s] Hm Hin. simpl. destruct (length s <=? 2).
    + destruct (set_true_total m k) as (m1 & H1 & L1).
      * rewrite Hm. now destruct (Hd k s Hin).
      * exists m1. split; [exact H1 | congruence].
    + now exists m.
  - reflexivity.
Qed.

Lemma tria3_mask_of_total (mask : list bool) (rows : list (nat * nat * nat)) :
  (forall row v, In row rows -> In v (row_list row) -> v < length mask) ->
  exists tm, tria3_mask_of mask rows = Ok tm /\ length tm = length rows.
Proof.
  intros H. unfold tria3_mask_of.
  destruct (mapM_ok (fun row => bs <- np.take mask (row_list row) ;;
                                Ok (existsb (fun b => b) bs)) rows) as [tm Htm].
  - apply Forall_forall. intros row Hrow.
    destruct (take_ok mask (row_list row)) as [bs Hbs]; [intros v Hv; now apply (H row) |].
    rewrite Hbs. simpl. eauto.
  - exists tm. split; [exact Htm | now apply mapM_length in Htm].
Qed.

Lemma sieve_selection_bound (mesh : jigsaw_msh_t) (area : option num)
    (mp : list shapely_polygon) (remove : list nat) (i : nat) :
  sieve_selection mesh area = Ok (mp, remove) -> In i remove -> i < length mp.
Proof.
  unfold sieve_selection. intros H Hi.
  inv_bind H. inv_bind H. inv_bind H. injection H as <- <-.
  apply mapM_length in E0.
  apply (select_remove_spec _ _ _ E1) in Hi. destruct Hi as (x & Hx & _).
  rewrite <- E0. apply nth_error_Some. congruence.
Qed.

Lemma sieve_total (mesh : jigsaw_msh_t) (area : option num)
    (mp : list shapely_polygon) (remove : list nat) :
  sieve_selection mesh area = Ok (mp, remove) ->
  mshID mesh = "euclidean-mesh"%string ->
  rows_in_range mesh ->
  value mesh = [] \/ scalar_aligned mesh ->
  exists m', sieve mesh area = Ok m'.
Proof.
  intros Hsel Hid Hrows Hval.
  destruct (mask_inside_total mp (map coord (vert2 mesh)) remove) as (mask0 & H0 & L0).
  { intros i. apply (sieve_selection_bound mesh area mp remove i Hsel). }
  rewrite length_map in L0.
  destruct (vertices_around_vertex_total mesh Hid Hrows) as (d & Hd & Hb).
  rewrite <- L0 in Hb.
  destruct (mask_neighbors_total mask0 d Hb) as (mask1 & d1 & H1 & L1 & Hb1).
  rewrite <- L1 in Hb1.
  destruct (mask_dangling_total mask1 d1 Hb1) as (mask & H2 & L2).
  assert (Hmask : sieve_vert2_mask mesh area = Ok mask).
  { unfold sieve_vert2_mask. rewrite Hsel. cbn [bind]. rewrite H0. cbn [bind].
    rewrite Hd. cbn [bind]. rewrite H1. cbn [bind]. exact H2. }
  destruct (tria3_mask_of_total mask (map index (tria3 mesh))) as (tm & Htm & Ltm).
  { intros row v Hrow Hv. rewrite L2, L1, L0.
    apply (Hrows (row_list row) v); [| exact Hv].
    unfold element_rows. apply in_or_app. left.
    apply in_map_iff in Hrow. destruct Hrow as (t & <- & Ht).
    apply in_map_iff. now exists t. }
  rewrite length_map in Ltm.
  unfold sieve. rewrite Hmask. cbn [bind]. rewrite Htm. cbn [bind].
  rewrite take_where by (unfold np.invert; now rewrite !length_map).
  cbn [bind]. fold (used_vertices mesh).
  destruct (take_ok (vert2 mesh) (used_vertices mesh) (used_vertices_bound mesh))
    as [vs Hvs].
  rewrite Hvs. cbn [bind].
  destruct (0 <? length (value mesh)) eqn:Ev.
  - destruct Hval as [Hnil | Hal]; [rewrite Hnil in Ev; discriminate |].
    destruct (take_ok (value mesh) (used_vertices mesh)) as [fs Hfs].
    { intros i Hi. rewrite Hal. now apply used_vertices_bound. }
    rewrite Hfs. cbn [bind]. eauto.
  - cbn [bind]. eauto.
Qed.

(** X22.  [sieve] returns once its regions are selected, on a mesh of
    kind [euclidean-mesh] whose element rows only hold positions of
    the vertex array and whose scalar field is absent or as long as
    the vertex array: no index of its masks and tables is out of
    range. *)
Theorem sieve_returns (mesh : jigsaw_msh_t) (area : option num)
    (mp : list shapely_polygon) (remove : list nat) :
  sieve_selection mesh area = Ok (mp, remove) ->
  mshID mesh = "euclidean-mesh"%string ->
  rows_in_range mesh ->
  value mesh = [] \/ scalar_aligned mesh ->
  exists m', sieve mesh area = Ok m'.
Proof. intros; eapply sieve_total; eassumption. Qed.

End Returns.

Lemma geom_to_multipolygon_returns_witness :
  index_ring_collection (G := exact_geom) with_floating_triangle
  = Ok [mk_polygon [(2, 0); (0, 1); (1, 2)] []; mk_polygon [(6, 4); (4, 5); (5, 6)] []] /\
  exists mp,
    geom_to_multipolygon (G := exact_geom) with_floating_triangle = Ok mp /\
    Forall2 (polygon_of (map coord (vert2 with_floating_triangle)))
            [mk_polygon [(2, 0); (0, 1); (1, 2)] []; mk_polygon [(6, 4); (4, 5); (5, 6)] []]
            mp.
Proof.
  assert (H : index_ring_collection (G := exact_geom) with_floating_triangle
              = Ok [mk_polygon [(2, 0); (0, 1); (1, 2)] [];
                    mk_polygon [(6, 4); (4, 5); (5, 6)] []])
    by (vm_compute; reflexivity).
  split; [exact H |].
  exact (geom_to_multipolygon_returns (G := exact_geom) _ _ H).
Defined.

Lemma rows_in_range_by_rows (mesh : jigsaw_msh_t) :
  forallb (forallb (fun v => v <? length (vert2 mesh))) (element_rows mesh) = true ->
  rows_in_range mesh.
Proof.
  intros H row v Hrow Hv. rewrite forallb_forall in H. specialize (H row Hrow).
  rewrite forallb_forall in H. now apply Nat.ltb_lt, H.
Qed.

Lemma sieve_returns_witness :
  sieve_selection (G := exact_geom) with_floating_triangle None
  = Ok (with_floating_triangle_polygons, [1]) /\
  mshID with_floating_triangle = "euclidean-mesh"%string /\
  rows_in_range with_floating_triangle /\
  scalar_aligned with_floating_triangle /\
  exists m', sieve (G := exact_geom) with_floating_triangle None = Ok m'.
Proof.
  assert (H : sieve_selection (G := exact_geom) with_floating_triangle None
              = Ok (with_floating_triangle_polygons, [1])) by (vm_compute; reflexivity).
  assert (Hrows : rows_in_range with_floating_triangle)
    by (apply rows_in_range_by_rows; reflexivity).
  assert (Hal : scalar_aligned with_floating_triangle) by reflexivity.
  split; [exact H |]. split; [reflexivity |]. split; [exact Hrows |]. split; [exact Hal |].
  exact (sieve_returns (G := exact_geom) with_floating_triangle None _ _ H eq_refl Hrows
           (or_intror Hal)).
Defined.

(** ** outer_ring_collection, inner_ring_collection *)

Lemma rings_of_split (c : list polygon_t) :
  Permutation (rings_of c) (map exterior c ++ concat (map interiors c)).
Proof.
  induction c as [| p c IH]; simpl; [constructor |].
  constructor. rewrite IH.
  rewrite Permutation_app_swap_app. now rewrite app_assoc.
Qed.

Section RingCollections.

Context {G : Geom}.

(** X23.  [outer_ring_collection] and [inner_ring_collection] have one
    entry per region, one region at least, and the exteriors of the
    one with the interior rings of the other are a rearrangement of the
    boundary rings. *)
Theorem ring_collections_split_the_rings
    (mesh : jigsaw_msh_t) (rings outer : list ring_t) (inner : list (list ring_t)) :
  boundary_rings mesh = Ok rings ->
  outer_ring_collection mesh = Ok outer ->
  inner_ring_collection mesh = Ok inner ->
  length outer = length inner /\
  outer <> [] /\
  Permutation (outer ++ concat inner) rings.
Proof.
  intros Hr Ho Hi. unfold outer_ring_collection in Ho. unfold inner_ring_collection in Hi.
  inv_bind Ho. inv_bind Hi. injection Ho as <-. injection Hi as <-.
  assert (a0 = a) by congruence. subst a0.
  split; [now rewrite !length_map |]. split.
  - apply index_ring_collection_nonempty in E. now destruct a.
  - rewrite <- rings_of_split.
    unfold index_ring_collection in E. rewrite Hr in E. cbn [bind] in E.
    now apply classify_rings_perm in E.
Qed.

End RingCollections.

Lemma ring_collections_split_the_rings_witness :
  boundary_rings (G := exact_geom) square_ring = Ok square_ring_rings /\
  outer_ring_collection (G := exact_geom) square_ring
  = Ok (map exterior square_ring_regions) /\
  inner_ring_collection (G := exact_geom) square_ring
  = Ok (map interiors square_ring_regions) /\
  length (map exterior square_ring_regions) = length (map interiors square_ring_regions) /\
  map exterior square_ring_regions <> [] /\
  Permutation (map exterior square_ring_regions ++ concat (map interiors square_ring_regions))
              square_ring_rings.
Proof.
  assert (Hr : boundary_rings (G := exact_geom) square_ring = Ok square_ring_rings)
    by (vm_compute; reflexivity).
  assert (Ho : outer_ring_collection (G := exact_geom) square_ring
               = Ok (map exterior square_ring_regions)) by (vm_compute; reflexivity).
  assert (Hi : inner_ring_collection (G := exact_geom) square_ring
               = Ok (map interiors square_ring_regions)) by (vm_compute; reflexivity).
  split; [exact Hr |]. split; [exact Ho |]. split; [exact Hi |].
  exact (ring_collections_split_the_rings (G := exact_geom) square_ring _ _ _ Hr Ho Hi).
Defined.

(** ** sieve: the triangles that remain *)

Lemma fold_result_ind {S X : Type} (step : S -> X -> result S) (Q : list X -> S -> Prop)
    (l : list X) (s0 s' : S) :
  Q [] s0 ->
  (forall pre x s s1, Q pre s -> In x l -> step s x = Ok s1 -> Q (pre ++ [x]) s1) ->
  fold_left (fun acc x => s <- acc ;; step s x) l (Ok s0) = Ok s' ->
  Q l s'.
Proof.
  intros H0 Hstep.
  assert (Hgen : forall suf pre s,
             (forall x, In x suf -> In x l) -> Q pre s ->
             fold_left (fun acc x => s <- acc ;; step s x) suf (Ok s) = Ok s' ->
             Q (pre ++ suf) s').
  { induction suf as [| x suf IH]; intros pre s Hin Hq H; simpl in H.
    - injection H as <-. now rewrite app_nil_r.
    - destruct (step s x) as [s1 | e] eqn:E.
      + replace (pre ++ x :: suf) with ((pre ++ [x]) ++ suf)
          by (now rewrite <- app_assoc).
        apply (IH _ s1); [intros y Hy; apply Hin; now right | | exact H].
        apply (Hstep pre x s s1); [exact Hq | apply Hin; now left | exact E].
      + exfalso. clear -H. induction suf as [| y suf IH]; simpl in H; [discriminate |].
        now apply IH. }
  intros H. exact (Hgen l [] s0 (fun x Hx => Hx) H0 H).
Qed.

Lemma nth_true (m : list bool) (v : nat) :
  nth_error m v = Some true <-> nth v m false = true.
Proof.
  split.
  - intros H. now apply nth_error_nth.
  - intros H. destruct (nth_error m v) as [b |] eqn:E.
    + apply (nth_error_nth _ _ false) in E. congruence.
    + apply nth_error_None in E. rewrite nth_overflow in H by lia. discriminate.
Qed.

Lemma lor_nth (a b : list bool) (v : nat) :
  length a = length b ->
  nth v (np.lor a b) false = nth v a false || nth v b false.
Proof.
  revert b v. induction a as [| x a IH]; intros [| y b] v H; simpl in *; try discriminate.
  - now destruct v.
  - destruct v as [| v]; [reflexivity |]. apply IH. lia.
Qed.

Lemma set_true_spec (m m' : list bool) (i : nat) :
  np.set_true m i = Ok m' ->
  length m' = length m /\ forall v, nth v m' false = true <-> v = i \/ nth v m false = true.
Proof.
  revert i m'. induction m as [| b m IH]; intros [| i] m' H; simpl in H; try discriminate.
  - injection H as <-. split; [reflexivity |]. intros [| v]; simpl; intuition lia.
  - inv_bind H. injection H as <-. destruct (IH _ _ E) as [Hl Hn].
    split; [simpl; now rewrite Hl |].
    intros [| v]; simpl; [intuition lia |]. rewrite Hn. intuition lia.
Qed.

Lemma set_true_all_spec (idxs : list nat) (m m' : list bool) :
  np.set_true_all m idxs = Ok m' ->
  length m' = length m /\
  forall v, nth v m' false = true <-> In v idxs \/ nth v m false = true.
Proof.
  revert m. induction idxs as [| i idxs IH]; simpl; intros m H.
  - injection H as <-. split; [reflexivity | tauto].
  - inv_bind H. destruct (set_true_spec _ _ _ E) as [Hl Hn].
    destruct (IH _ H) as [Hl' Hn']. split; [congruence |].
    intros v. rewrite Hn', Hn. intuition.
Qed.

Lemma ascending_head (x : nat) (l : list nat) :
  ascending (x :: l) -> forall y, In y l -> x < y.
Proof.
  revert x. induction l as [| z l IH]; intros x H y Hy; [contradiction |].
  destruct H as [Hxz Hl]. destruct Hy as [<- | Hy]; [exact Hxz |].
  specialize (IH z Hl y Hy). lia.
Qed.

Lemma ascending_tail (x : nat) (l : list nat) : ascending (x :: l) -> ascending l.
Proof. destruct l; simpl; tauto. Qed.

Lemma ascending_NoDup (l : list nat) : ascending l -> NoDup l.
Proof.
  induction l as [| x l IH]; intros H; constructor.
  - intros Hin. pose proof (ascending_head x l H x Hin). lia.
  - apply IH. now apply ascending_tail in H.
Qed.

Lemma ascending_cons (x : nat) (l : list nat) :
  ascending l -> (forall y, In y l -> x < y) -> ascending (x :: l).
Proof.
  intros Hl Hx. destruct l as [| z l]; simpl; [exact I |].
  split; [apply Hx; now left | exact Hl].
Qed.

Lemma insert_unique_ascending (x : nat) (l : list nat) :
  ascending l -> ascending (np.insert_unique x l).
Proof.
  induction l as [| y l IH]; intros H; [exact I |].
  cbn [np.insert_unique].
  destruct (x <? y) eqn:E1.
  - apply Nat.ltb_lt in E1. apply ascending_cons; [exact H |].
    intros z [<- | Hz]; [exact E1 |]. pose proof (ascending_head y l H z Hz). lia.
  - destruct (x =? y) eqn:E2; [exact H |].
    apply Nat.ltb_ge in E1. apply Nat.eqb_neq in E2.
    apply ascending_cons; [apply IH; now apply ascending_tail in H |].
    intros z Hz. apply insert_unique_In in Hz. destruct Hz as [-> | Hz]; [lia |].
    exact (ascending_head y l H z Hz).
Qed.

Lemma dd_add_sets_ok (d : adjacency) (i j : nat) :
  sets_ok d -> sets_ok (dd_add d i j).
Proof.
  unfold sets_ok. induction d as [| [k s] d IH]; simpl; intros Hd.
  - intros k s [H | []]. injection H as <- <-. split; [exact I | discriminate].
  - destruct (k =? i).
    + intros k' s' [H | H]; [| apply (Hd k' s'); now right].
      injection H as <- <-. destruct (Hd k s (or_introl eq_refl)) as [Ha _].
      split; [now apply insert_unique_ascending |].
      intros Hnil. assert (Hin : In j (np.insert_unique j s))
        by (apply insert_unique_In; now left).
      now rewrite Hnil in Hin.
    + intros k' s' [H | H]; [apply (Hd k' s'); now left |].
      apply (IH (fun k2 s2 H2 => Hd k2 s2 (or_intror H2)) k' s' H).
Qed.

Lemma append_geom_sets_ok (geom : list (list nat)) (d : adjacency) :
  sets_ok d -> sets_ok (append_geom d geom).
Proof.
  unfold append_geom. revert d. induction geom as [| row geom IH]; intros d Hd; simpl;
    [exact Hd |].
  apply IH. unfold append_simplex.
  generalize (py.permutations2 row) as ps. intros ps. revert d Hd.
  induction ps as [| ij ps IHp]; intros d Hd; simpl; [exact Hd |].
  apply IHp. now apply dd_add_sets_ok.
Qed.

(** The dictionary of [vertices_around_vertex]: one entry per key, the
    set of a key holds its neighbours, once each. *)
Lemma vertices_around_vertex_dict (mesh : jigsaw_msh_t) (d : adjacency) :
  vertices_around_vertex mesh = Ok d ->
  NoDup (map fst d) /\ sets_ok d /\
  forall u v, adjacent d u v <-> neighbour mesh u v.
Proof.
  unfold vertices_around_vertex. destruct (String.eqb _ _); [| discriminate].
  intros H. injection H as <-. split; [| split].
  - repeat apply append_geom_keys. constructor.
  - repeat apply append_geom_sets_ok. intros k s [].
  - intros u v. rewrite !append_geom_adjacent. unfold neighbour, element_rows. split.
    + intros [[[(s & [] & _) | (row & Hin & H)] | (row & Hin & H)] | (row & Hin & H)];
        exists row; (split; [| exact H]); rewrite !in_app_iff; auto.
    + intros (row & Hin & H). rewrite !in_app_iff in Hin.
      destruct Hin as [Hin | [Hin | Hin]]; eauto 8.
Qed.

Lemma adjacent_unique (d : adjacency) (k : nat) (s : list nat) :
  NoDup (map fst d) -> In (k, s) d -> forall j, adjacent d k j <-> In j s.
Proof.
  intros Hnd Hin j. split.
  - intros (s' & Hs' & Hj). replace s with s'; [exact Hj |].
    clear -Hnd Hin Hs'. induction d as [| [k0 s0] d IH]; [contradiction |].
    simpl in Hnd. inversion Hnd as [| ? ? Hk Hd]. subst.
    destruct Hin as [H1 | H1], Hs' as [H2 | H2].
    + congruence.
    + injection H1 as -> ->. exfalso. apply Hk. apply in_map_iff. now exists (k, s').
    + injection H2 as -> ->. exfalso. apply Hk. apply in_map_iff. now exists (k, s).
    + now apply IH.
  - intros Hj. now exists s.
Qed.

(** [d[i]] on a [defaultdict(set)]: the set of the key, and the
    dictionary with the key [i] added when it was missing. *)
Lemma dd_get_spec (d d' : adjacency) (i : nat) (s : list nat) :
  NoDup (map fst d) ->
  dd_get d i = (s, d') ->
  (forall j, In j s <-> adjacent d i j) /\
  NoDup (map fst d') /\
  (forall k s', In (k, s') d' <->
                In (k, s') d \/ (k = i /\ s' = [] /\ ~ In i (map fst d))).
Proof.
  revert s d'. induction d as [| [k0 s0] d IH]; simpl; intros s d' Hnd H.
  - injection H as <- <-. split; [| split].
    + intros j. split; [contradiction | intros (s & [] & _)].
    + simpl. constructor; [intros [] | constructor].
    + intros k s'. simpl. split.
      * intros [H | []]. injection H as <- <-. right. tauto.
      * intros [[] | (-> & -> & _)]. now left.
  - inversion Hnd as [| ? ? Hk Hd]. subst. destruct (k0 =? i) eqn:E.
    + apply Nat.eqb_eq in E. subst k0. injection H as <- <-. split; [| split].
      * intros j. symmetry. apply (adjacent_unique ((i, s0) :: d)); [exact Hnd | now left].
      * exact Hnd.
      * intros k s'. split; [tauto |]. intros [H | (_ & _ & H)]; [exact H |].
        exfalso. apply H. now left.
    + apply Nat.eqb_neq in E. destruct (dd_get d i) as [r d''] eqn:Eg.
      injection H as <- <-. destruct (IH r d'' Hd eq_refl) as (Hs & Hnd' & Hent).
      split; [| split].
      * intros j. rewrite Hs. unfold adjacent. split.
        -- intros (s' & Hs' & Hj). exists s'. split; [now right | exact Hj].
        -- intros (s' & [Hs' | Hs'] & Hj); [congruence |]. now exists s'.
      * simpl. constructor; [| exact Hnd'].
        intros Hin. apply in_map_iff in Hin. destruct Hin as ([k s'] & Hk' & Hin).
        simpl in Hk'. subst k. apply Hent in Hin.
        destruct Hin as [Hin | (-> & _)]; [| congruence].
        apply Hk. apply in_map_iff. now exists (k0, s').
      * intros k s'. simpl. rewrite Hent. split.
        -- intros [H | [H | (-> & -> & Hn)]]; auto.
           right. repeat split; auto. intros [H | H]; [congruence | contradiction].
        -- intros [[H | H] | (-> & -> & Hn)]; auto.
           right. right. repeat split; auto.
Qed.

Section Marking.

Context {G : Geom}.

Lemma mask_inside_spec (mp : list shapely_polygon) (coords : list coord_t)
    (remove : list nat) (mask : list bool) :
  mask_inside mp coords remove = Ok mask ->
  length mask = length coords /\
  forall v,
    nth v mask false = true <->
    exists i p c, In i remove /\ nth_error mp i = Some p /\
                  nth_error coords v = Some c /\
                  Path_contains_point (exterior_coords p) c = true.
Proof.
  unfold mask_inside. intros H.
  apply (fold_result_ind
           (fun mask idx => p <- np.getitem mp idx ;;
                            Ok (np.lor mask (map (Path_contains_point (exterior_coords p))
                                                 coords)))
           (fun pre m =>
              length m = length coords /\
              forall v,
                nth v m false = true <->
                exists i p c, In i pre /\ nth_error mp i = Some p /\
                              nth_error coords v = Some c /\
                              Path_contains_point (exterior_coords p) c = true)) in H.
  - exact H.
  - unfold np.full_false. split; [apply repeat_length |].
    intros v. split.
    + intros Hv. exfalso. revert Hv. generalize (length coords) as n. intros n. revert v.
      induction n as [| n IH]; intros [| v]; simpl; try discriminate. apply IH.
    + intros (i & p & c & [] & _).
  - intros pre idx m m1 [Hl Hm] _ Hstep. inv_bind Hstep. rename a into p.
    injection Hstep as <-.
    unfold np.getitem in E. destruct (nth_error mp idx) as [p' |] eqn:Ep; [| discriminate].
    injection E as ->.
    assert (Hlen : length m = length (map (Path_contains_point (exterior_coords p)) coords))
      by now rewrite length_map.
    split; [now rewrite lor_length |].
    intros v. rewrite lor_nth by exact Hlen. rewrite orb_true_iff, Hm. split.
    + intros [(i & q & c & Hi & Hq & Hc & Hin) | Hv].
      * exists i, q, c. split; [apply in_or_app; now left | tauto].
      * apply nth_true in Hv. rewrite nth_error_map in Hv.
        destruct (nth_error coords v) as [c |] eqn:Ec; [| discriminate].
        simpl in Hv. injection Hv as Hv.
        exists idx, p, c. split; [apply in_or_app; right; now left | tauto].
    + intros (i & q & c & Hi & Hq & Hc & Hin). apply in_app_or in Hi.
      destruct Hi as [Hi | [<- | []]].
      * left. exists i, q, c. tauto.
      * right. assert (q = p) by congruence. subst q.
        apply nth_true. rewrite nth_error_map, Hc. simpl. now rewrite Hin.
Qed.

Lemma grown_from_adjacent (mask0 : list bool) (d dc : adjacency) (u v : nat) :
  grown_from mask0 d dc -> (adjacent dc u v <-> adjacent d u v).
Proof.
  intros (_ & Hsub & Hsup). unfold adjacent. split.
  - intros (s & Hs & Hv). destruct (Hsup _ _ Hs) as [Hd | [-> _]]; [| contradiction].
    now exists s.
  - intros (s & Hs & Hv). exists s. split; [now apply Hsub | exact Hv].
Qed.

Lemma mask_neighbors_spec (mask0 mask1 : list bool) (d d' : adjacency) :
  NoDup (map fst d) ->
  mask_neighbors mask0 d = Ok (mask1, d') ->
  length mask1 = length mask0 /\
  grown_from mask0 d d' /\
  forall v,
    nth v mask1 false = true <->
    nth v mask0 false = true \/
    exists u, nth u mask0 false = true /\ adjacent d u v.
Proof.
  intros Hnd H. unfold mask_neighbors in H.
  apply (fold_result_ind
           (fun (st : list bool * adjacency) _idx =>
              let '(m, d) := st in
              let '(s, d') := dd_get d _idx in
              m' <- np.set_true_all m s ;; Ok (m', d'))
           (fun pre (st : list bool * adjacency) =>
              length (fst st) = length mask0 /\
              grown_from mask0 d (snd st) /\
              forall v,
                nth v (fst st) false = true <->
                nth v mask0 false = true \/
                exists u, In u pre /\ adjacent d u v)) in H.
  - simpl in H. destruct H as (Hl & Hg & Hm). split; [exact Hl |]. split; [exact Hg |].
    intros v. rewrite Hm. split.
    + intros [Hv | (u & Hu & Ha)]; [now left |]. right. exists u. split; [| exact Ha].
      apply where_In in Hu. now apply nth_true.
    + intros [Hv | (u & Hu & Ha)]; [now left |]. right. exists u. split; [| exact Ha].
      apply where_In. now apply nth_true.
  - simpl. split; [reflexivity |]. split.
    + split; [exact Hnd |]. split; [tauto | intros k s Hs; now left].
    + intros v. split; [now left |]. intros [Hv | (u & [] & _)]. exact Hv.
  - intros pre idx [m dc] [m1 d1] (Hl & Hg & Hm) Hidx Hstep. simpl in Hl, Hg, Hm.
    destruct (dd_get dc idx) as [s d2] eqn:Eg.
    inv_bind Hstep. injection Hstep as <- <-.
    destruct Hg as (Hndc & Hsub & Hsup).
    destruct (dd_get_spec _ _ _ _ Hndc Eg) as (Hs & Hnd2 & Hent).
    destruct (set_true_all_spec _ _ _ E) as [Hl1 Hn1].
    apply where_In, nth_true in Hidx.
    simpl. split; [congruence |]. split.
    + split; [exact Hnd2 |]. split.
      * intros k s' Hk. apply Hent. left. now apply Hsub.
      * intros k s' Hk. apply Hent in Hk. destruct Hk as [Hk | (-> & -> & _)].
        -- now apply Hsup.
        -- right. now split.
    + intros v. rewrite Hn1, Hm, Hs.
      rewrite (grown_from_adjacent mask0 d dc idx v (conj Hndc (conj Hsub Hsup))).
      split.
      * intros [Ha | [Hv | (u & Hu & Ha)]]; [right | now left | right].
        -- exists idx. split; [apply in_or_app; right; now left | exact Ha].
        -- exists u. split; [apply in_or_app; now left | exact Ha].
      * intros [Hv | (u & Hu & Ha)]; [right; now left |].
        apply in_app_or in Hu. destruct Hu as [Hu | [<- | []]].
        -- right. right. now exists u.
        -- now left.
Qed.

Lemma mask_dangling_spec (mask1 mask : list bool) (d : adjacency) :
  mask_dangling mask1 d = Ok mask ->
  length mask = length mask1 /\
  forall v,
    nth v mask false = true <->
    nth v mask1 false = true \/ exists s, In (v, s) d /\ length s <= 2.
Proof.
  unfold mask_dangling. intros H.
  apply (fold_result_ind
           (fun m (kv : nat * list nat) =>
              if length (snd kv) <=? 2 then np.set_true m (fst kv) else Ok m)
           (fun pre m =>
              length m = length mask1 /\
              forall v,
                nth v m false = true <->
                nth v mask1 false = true \/ exists s, In (v, s) pre /\ length s <= 2)) in H.
  - exact H.
  - split; [reflexivity |]. intros v. split; [now left |].
    intros [Hv | (s & [] & _)]. exact Hv.
  - intros pre [k s] m m1 [Hl Hm] _ Hstep. simpl in Hstep.
    destruct (length s <=? 2) eqn:E.
    + apply Nat.leb_le in E. destruct (set_true_spec _ _ _ Hstep) as [Hl1 Hn1].
      split; [congruence |]. intros v. rewrite Hn1, Hm. split.
      * intros [-> | [Hv | (s' & Hs' & Hle)]]; [right | now left | right].
        -- exists s. split; [apply in_or_app; right; now left | exact E].
        -- exists s'. split; [apply in_or_app; now left | exact Hle].
      * intros [Hv | (s' & Hs' & Hle)]; [right; now left |].
        apply in_app_or in Hs'. destruct Hs' as [Hs' | [Hs' | []]].
        -- right. right. now exists s'.
        -- injection Hs' as <- <-. now left.
    + apply Nat.leb_gt in E. injection Hstep as <-.
      split; [exact Hl |]. intros v. rewrite Hm. split.
      * intros [Hv | (s' & Hs' & Hle)]; [now left | right].
        exists s'. split; [apply in_or_app; now left | exact Hle].
      * intros [Hv | (s' & Hs' & Hle)]; [now left |].
        apply in_app_or in Hs'. destruct Hs' as [Hs' | [Hs' | []]].
        -- right. now exists s'.
        -- injection Hs' as <- <-. lia.
Qed.

(** A key of the dictionary with two members at most. *)
Lemma few_neighbours_entry (mesh : jigsaw_msh_t) (d : adjacency) (v : nat) :
  NoDup (map fst d) -> sets_ok d ->
  (forall u w, adjacent d u w <-> neighbour mesh u w) ->
  (exists s, In (v, s) d /\ length s <= 2) <-> few_neighbours mesh v.
Proof.
  intros Hnd Hok Hadj. unfold few_neighbours. split.
  - intros (s & Hs & Hle). destruct (Hok v s Hs) as [_ Hne].
    pose proof (adjacent_unique d v s Hnd Hs) as Hset.
    split.
    + destruct s as [| j s]; [congruence |]. exists j. apply Hadj, Hset. now left.
    + destruct s as [| a [| b [| c s]]]; [congruence | | | simpl in Hle; lia].
      * exists a, a. intros j Hj. apply Hadj, Hset in Hj. destruct Hj as [<- | []]. now left.
      * exists a, b. intros j Hj. apply Hadj, Hset in Hj.
        destruct Hj as [<- | [<- | []]]; auto.
  - intros [(j & Hj) (a & b & Hab)]. apply Hadj in Hj. destruct Hj as (s & Hs & Hjs).
    exists s. split; [exact Hs |].
    destruct (Hok v s Hs) as [Hasc _]. apply ascending_NoDup in Hasc.
    assert (Hincl : incl s [a; b]).
    { intros x Hx. assert (Hn : neighbour mesh v x) by (apply Hadj; now exists s).
      destruct (Hab x Hn) as [-> | ->]; simpl; auto. }
    exact (NoDup_incl_length Hasc Hincl).
Qed.

(** The vertex mask of [sieve], vertex by vertex. *)
Lemma sieve_vert2_mask_spec (mesh : jigsaw_msh_t) (area : option num) (mask : list bool) :
  sieve_vert2_mask mesh area = Ok mask ->
  exists mp,
    geom_to_multipolygon mesh = Ok mp /\
    forall v, nth v mask false = true <-> marked mesh mp area v.
Proof.
  intros H. unfold sieve_vert2_mask in H.
  inv_bind H. destruct a as [mp remove]. inv_bind H. rename a into mask0.
  inv_bind H. rename a into d. inv_bind H. destruct a as [mask1 d'].
  destruct (sieve_selection_by_area mesh area mp remove E) as [Hmp Hrem].
  destruct (mask_inside_spec _ _ _ _ E0) as [Hl0 Hm0].
  destruct (vertices_around_vertex_dict mesh d E1) as (Hnd & Hok & Hadj).
  destruct (mask_neighbors_spec _ _ _ _ Hnd E2) as (Hl1 & Hg & Hm1).
  destruct (mask_dangling_spec _ _ _ H) as [Hl2 Hm2].
  exists mp. split; [exact Hmp |].
  assert (Hin : forall v, nth v mask0 false = true <-> inside_selected mesh mp area v).
  { intros v. rewrite Hm0. unfold inside_selected, selected. split.
    - intros (i & p & c & Hi & Hp & Hc & Hpath).
      rewrite nth_error_map in Hc.
      destruct (nth_error (vert2 mesh) v) as [x |] eqn:Ex; [| discriminate].
      simpl in Hc. injection Hc as <-.
      exists i, p, x. split; [now apply Hrem |]. now repeat split.
    - intros (i & p & x & Hsel & Hp & Hx & Hpath).
      exists i, p, (coord x). split; [now apply Hrem |]. split; [exact Hp |].
      split; [| exact Hpath]. now rewrite nth_error_map, Hx. }
  intros v. rewrite Hm2, Hm1. unfold marked. rewrite <- Hin.
  destruct Hg as (Hnd' & Hsub & Hsup). split.
  - intros [[Hv | (u & Hu & Ha)] | (s & Hs & Hle)].
    + now left.
    + right. left. exists u. split; [now apply Hin | now apply Hadj].
    + destruct (Hsup _ _ Hs) as [Hd | [_ Hv]]; [| now left].
      right. right. apply (few_neighbours_entry mesh d v Hnd Hok Hadj). now exists s.
  - intros [Hv | [(u & Hu & Hn) | Hf]].
    + left. now left.
    + left. right. exists u. split; [now apply Hin | now apply Hadj].
    + right. apply (few_neighbours_entry mesh d v Hnd Hok Hadj) in Hf.
      destruct Hf as (s & Hs & Hle). exists s. split; [now apply Hsub | exact Hle].
Qed.

Lemma unmarked_spec (mask : list bool) (t : tria3_t) (P : nat -> Prop) :
  (forall v, nth v mask false = true <-> P v) ->
  (unmarked mask t = true <-> forall v, references t v -> ~ P v).
Proof.
  intros HP. unfold unmarked, references.
  rewrite negb_true_iff, <- not_true_iff_false, existsb_exists. split.
  - intros H v Hv Hp. apply H. exists v. split; [exact Hv | now apply HP].
  - intros H (v & Hv & Hm). apply (H v Hv). now apply HP.
Qed.

(** C4, as amended.  The triangles of the mesh that [sieve] returns
    are, in their order and with their tags, the triangles of the
    input none of whose vertexes is marked (their indexes renumbered
    for the unreferenced positions that are dropped).  A vertex is
    marked exactly when it lies inside the exterior ring of a selected
    region, or is a neighbour of such a vertex, or has one or two
    neighbours; a region is selected when its polygon area is at most
    the threshold, and without a threshold when its polygon area is
    strictly below that of another region. *)
Theorem sieve_selects_regions_by_area
    (mesh m' : jigsaw_msh_t) (area : option num) :
  sieve mesh area = Ok m' ->
  exists mp keep,
    geom_to_multipolygon mesh = Ok mp /\
    (forall t, keep t = true <-> forall v, references t v -> ~ marked mesh mp area v) /\
    map tria3_IDtag (tria3 m') = map tria3_IDtag (filter keep (tria3 mesh)) /\
    map index (tria3 m')
    = map (fun t => renumber_row (unused_vertices mesh) (index t))
          (filter keep (tria3 mesh)).
Proof.
  intros H.
  destruct (sieve_mask_exists mesh m' area H) as [mask Hmask].
  destruct (sieve_vert2_mask_spec mesh area mask Hmask) as (mp & Hmp & Hmarked).
  destruct (sieve_tria3 mesh m' area mask Hmask H) as [Htags Hrows].
  exists mp, (unmarked mask). split; [exact Hmp |].
  split; [| split; [exact Htags | exact Hrows]].
  intros t. now apply unmarked_spec.
Qed.

End Marking.

Lemma sieve_selects_regions_by_area_witness :
  sieve (G := exact_geom) with_floating_triangle None
  = Ok (euclidean_mesh (split_triangle_coords ++ [(20, 0); (22, 0); (20, 2)]%Z)
                       split_triangle_rows [10; 11; 12; 13; 14; 15; 16]%Z) /\
  exists mp keep,
    geom_to_multipolygon (G := exact_geom) with_floating_triangle = Ok mp /\
    (forall t, keep t = true <->
               forall v, references t v ->
                         ~ marked (G := exact_geom) with_floating_triangle mp None v) /\
    map tria3_IDtag (map (fun t => mk_tria3 t 0) split_triangle_rows)
    = map tria3_IDtag (filter keep (tria3 with_floating_triangle)) /\
    map index (map (fun t => mk_tria3 t 0) split_triangle_rows)
    = map (fun t => renumber_row (unused_vertices with_floating_triangle) (index t))
          (filter keep (tria3 with_floating_triangle)).
Proof.
  assert (H : sieve (G := exact_geom) with_floating_triangle None
              = Ok (euclidean_mesh (split_triangle_coords ++ [(20, 0); (22, 0); (20, 2)]%Z)
                                   split_triangle_rows [10; 11; 12; 13; 14; 15; 16]%Z))
    by (vm_compute; reflexivity).
  split; [exact H |].
  exact (sieve_selects_regions_by_area (G := exact_geom) with_floating_triangle _ None H).
Defined.
